(** * LiveKitAudioManager: a shallow embedding and its verified properties

    The development follows the class [LiveKitAudioManager] of the voice
    agents SDK.  The manager's fields become a record, its methods become
    functions in a state-and-exception monad, and the browser, the LiveKit
    room and the event listeners become an explicit environment carried in
    the same state.  Every platform effect (an emitted event, a cloned media
    track, a recorder, a processing node, a DOM operation) is appended to a
    trace, so that "exactly one" and "none" are statements about that trace. *)

From Stdlib Require Import ZArith QArith Qround Qabs Qpower Qreduction.
From Stdlib Require Import List String Ascii Bool Lia Lqa.
From Stdlib Require Strings.Byte.
Import ListNotations.

Local Open Scope string_scope.
Local Open Scope Z_scope.

(* ================================================================== *)
(** ** JavaScript values *)
(* ================================================================== *)

(** A JavaScript number.  The finite values are carried as rationals: every
    binary32 or binary64 value is one, and the operations used on samples
    (comparison with -1 and 1, product of a binary32 value of magnitude at
    most 1 with 32767) are exact in binary64.  A quotient is not: it is
    rounded by [binary64] below. *)
Inductive number : Type :=
| Fin (q : Q)
| PosInf
| NegInf
| NaN.

Definition Number_isFinite (x : number) : bool :=
  match x with Fin _ => true | _ => false end.

(** [Math.min] and [Math.max] on two arguments. *)
Definition Math_min (a b : number) : number :=
  match a, b with
  | NaN, _ | _, NaN => NaN
  | NegInf, _ | _, NegInf => NegInf
  | PosInf, x | x, PosInf => x
  | Fin x, Fin y => Fin (if Qle_bool x y then x else y)
  end.

Definition Math_max (a b : number) : number :=
  match a, b with
  | NaN, _ | _, NaN => NaN
  | PosInf, _ | _, PosInf => PosInf
  | NegInf, x | x, NegInf => x
  | Fin x, Fin y => Fin (if Qle_bool x y then y else x)
  end.

(** *** Rounding to binary64

    The result of an arithmetic operation is the exact result rounded to
    the nearest binary64 value, ties to the even significand: 53
    significant bits, the last place no finer than 2^-1074, and infinity
    from 2^1024 on. *)

(** The nearest integer, ties to the even one. *)
Definition roundTiesToEven (q : Q) : Z :=
  let f := Qfloor q in
  match Qcompare (q - inject_Z f) (1 # 2) with
  | Lt => f
  | Gt => f + 1
  | Eq => if Z.even f then f else f + 1
  end.

(** The integral part of the binary logarithm of a positive rational. *)
Definition Qlog2 (q : Q) : Z :=
  let k := Z.log2 (Qnum q) - Z.log2 (Zpos (Qden q)) in
  if Qle_bool (2 ^ k) q then k else k - 1.

Definition binary64_pos (q : Q) : number :=
  let e := Z.max (Qlog2 q - 52) (-1074) in
  let m := roundTiesToEven (q / 2 ^ e) in
  let r := (inject_Z m * 2 ^ e)%Q in
  if Qle_bool (2 ^ 1024) r then PosInf else Fin (Qred r).

Definition negate (x : number) : number :=
  match x with
  | Fin q => Fin (Qred (- q))
  | PosInf => NegInf
  | NegInf => PosInf
  | NaN => NaN
  end.

(** The binary64 value of a rational. *)
Definition binary64 (q : Q) : number :=
  match Qcompare q 0 with
  | Eq => Fin 0
  | Gt => binary64_pos q
  | Lt => negate (binary64_pos (- q))
  end.

(** Product with a finite, strictly positive constant. *)
Definition times_pos (a : number) (c : Q) : number :=
  match a with
  | Fin x => Fin (x * c)
  | other => other
  end.

(** Truncation towards zero, the integral part kept by [ToIntegerOrInfinity]. *)
Definition Qtrunc (q : Q) : Z := Z.quot (Qnum q) (Zpos (Qden q)).

(** [ToInt16]: what a store into an [Int16Array] does to a number. *)
Definition wrap16 (z : Z) : Z := (z + 32768) mod 65536 - 32768.

Definition ToInt16 (x : number) : Z :=
  match x with
  | Fin q => wrap16 (Qtrunc q)
  | _ => 0
  end.

(** The JavaScript [||] on strings: the empty string is falsy. *)
Definition str_or (s d : string) : string :=
  if String.eqb s "" then d else s.

(** [a || b] where [a] may be [undefined]. *)
Definition opt_str_or (a : option string) (d : string) : string :=
  match a with
  | Some s => str_or s d
  | None => d
  end.

(** The numbers that count as false: 0, -0 and [NaN]. *)
Definition falsy (x : number) : bool :=
  match x with
  | Fin q => Qeq_bool q 0
  | NaN => true
  | PosInf | NegInf => false
  end.

(** [a || d] on a number that may be omitted. *)
Definition opt_num_or (a : option number) (d : number) : number :=
  match a with
  | Some x => if falsy x then d else x
  | None => d
  end.

(** [a || b] on references that may be [undefined]. *)
Definition opt_or {A : Type} (a b : option A) : option A :=
  match a with
  | Some x => Some x
  | None => b
  end.

(** *** Strings: [toLowerCase] and [includes] *)

Definition lower_ascii (c : ascii) : ascii :=
  let n := nat_of_ascii c in
  if (Nat.leb 65 n && Nat.leb n 90)%bool then ascii_of_nat (n + 32) else c.

Fixpoint toLowerCase (s : string) : string :=
  match s with
  | EmptyString => EmptyString
  | String c r => String (lower_ascii c) (toLowerCase r)
  end.

Fixpoint starts_with (pat s : string) : bool :=
  match pat, s with
  | EmptyString, _ => true
  | String _ _, EmptyString => false
  | String a p, String b r => (Ascii.eqb a b && starts_with p r)%bool
  end.

Fixpoint includes (s pat : string) : bool :=
  (starts_with pat s ||
   match s with
   | EmptyString => false
   | String _ r => includes r pat
   end)%bool.

(* ================================================================== *)
(** ** [Map<string, V>] with insertion order *)
(* ================================================================== *)

Module JsMap.
Section Defs.
Context {V : Type}.

Definition t := list (string * V).

Definition empty : t := [].

Fixpoint get (k : string) (m : t) : option V :=
  match m with
  | [] => None
  | (k', v) :: r => if String.eqb k k' then Some v else get k r
  end.

Definition has (k : string) (m : t) : bool :=
  match get k m with Some _ => true | None => false end.

(** [set] keeps the position of a key that is present and appends a new
    key at the end. *)
Fixpoint set (k : string) (v : V) (m : t) : t :=
  match m with
  | [] => [(k, v)]
  | (k', v') :: r =>
      if String.eqb k k' then (k, v) :: r else (k', v') :: set k v r
  end.

Definition delete (k : string) (m : t) : t :=
  filter (fun kv => negb (String.eqb k (fst kv))) m.

Definition size (m : t) : nat := List.length m.
Definition entries (m : t) : list (string * V) := m.
Definition keys (m : t) : list string := map fst m.
Definition values (m : t) : list V := map snd m.

(** Number of entries stored under [k]. *)
Definition count (k : string) (m : t) : nat :=
  List.length (filter (fun kv => String.eqb k (fst kv)) m).
End Defs.
Arguments t : clear implicits.
End JsMap.

(* ================================================================== *)
(** ** PCM conversion *)
(* ================================================================== *)

Definition INT16_SCALE : Q := 32767 # 1.

(** The value stored at index [i] by the loop body
    [buf[i] = Math.max(-1, Math.min(1, buffer[i])) * INT16_SCALE]. *)
Definition float32ToInt16_elem (s : number) : Z :=
  ToInt16 (times_pos (Math_max (Fin (-1 # 1)) (Math_min (Fin (1 # 1)) s))
                     INT16_SCALE).

(** Store into a typed array: out of range stores are dropped. *)
Fixpoint store {A : Type} (i : nat) (v : A) (buf : list A) : list A :=
  match buf, i with
  | [], _ => []
  | _ :: r, O => v :: r
  | x :: r, S j => x :: store j v r
  end.

(** [#float32ToInt16]: a zeroed [Int16Array] of the input's length, filled
    index by index. *)
Definition float32ToInt16 (buffer : list number) : list Z :=
  let l := List.length buffer in
  fold_left
    (fun buf i => store i (float32ToInt16_elem (nth i buffer NaN)) buf)
    (seq 0 l)
    (repeat 0 l).

(* ================================================================== *)
(** ** Platform and LiveKit objects *)
(* ================================================================== *)

(** [Track.Kind] and [Track.Source] of livekit-client. *)
Inductive TrackKind : Type := KAudio | KVideo | KUnknown.

Inductive TrackSource : Type :=
| Microphone | Camera | ScreenShare | ScreenShareAudio | UnknownSource.

(** A LiveKit track.  [trackObj] is the identity of the object, [sid] and
    [mediaStreamTrackId] are [track.sid] and [track.mediaStreamTrack?.id];
    [attachYields] tells whether [attach()] hands back an element and
    [hasDetach] whether the object has a [detach] method (remote tracks). *)
Record Track : Type := {
  trackObj : nat;
  sid : option string;
  mediaStreamTrackId : option string;
  kind : TrackKind;
  tsource : TrackSource;
  attachYields : bool;
  hasDetach : bool
}.

Record Publication : Type := {
  pubSource : TrackSource;
  isMuted : bool;
  isEnabled : bool;
  dimensions : option (Z * Z);
  simulcasted : bool;
  pubTrack : option Track
}.

Record Participant : Type := { identity : string }.

(** What the unbound [getTrackPublication] does when it is called first with
    the enum value and, if that throws, with the literal ['microphone']. *)
Inductive GetterOutcome : Type :=
| GetterReturns (p : option Publication)
| GetterThrowsThenReturns (p : option Publication)
| GetterThrowsTwice.

Record LocalParticipant : Type := {
  lpPublications : list Publication;
  getTrackPublication : option GetterOutcome
}.

Record Room : Type := {
  remoteParticipants : list (list Publication);
  localParticipant : option LocalParticipant
}.

(** An [HTMLAudioElement] created by [track.attach()].  Each call of
    [#setupAudioMonitoring] on the element adds three listeners that share
    a variable [isCurrentlySpeaking] of their own, and nothing removes
    them: [elMonitors] lists these variables, oldest installation first. *)
Record AudioElement : Type := {
  elId : nat;
  elTrack : nat;
  elAttached : bool;
  elVolume : number;
  elAutoplay : bool;
  elMonitors : list bool;
  elHidden : bool;
  elInDom : bool
}.

Inductive CtxState : Type := Running | Suspended | Closed.

Record AudioCtx : Type := {
  ctxId : nat;
  ctxSampleRate : option Z;
  ctxState : CtxState;
  ctxHasWorklet : bool
}.

(** An analyser node: the number of bins its owner reads and what
    [getByteFrequencyData] would write now ([None]: the call throws). *)
Record Analyser : Type := {
  frequencyBinCount : nat;
  byteFrequencyData : option (list Byte.byte)
}.

Inductive NodeKind : Type := SourceNode | WorkletNode | ScriptProcessor | GainNode.

Record AudioNode : Type := {
  nodeId : nat;
  nodeKind : NodeKind;
  nodeTrack : string
}.

(** ** Capture options *)

Inductive CaptureSource : Type := SrcAgent | SrcUser | SrcBoth.
Inductive Role : Type := Agent | User.
Inductive AudioCaptureFormat : Type := OpusWebm | PcmF32 | PcmI16.

(** Modelled from the spec: the declaration of [AudioCaptureOptions] (file
    [./types]) is missing.  The fields are the ones [enableAudioCapture]
    reads, all optional; [trackSourceFilter] is "specific|all", a specific
    value being one of the strings of [#getTrackSourceString]. *)
Inductive TrackSourceFilter : Type :=
| FilterAll | FilterMicrophone | FilterCamera | FilterScreenShare
| FilterScreenShareAudio | FilterUnknown.

(** The delivery function, known by its identity. *)
Record Callback : Type := { cbId : nat }.

Record AudioCaptureOptions : Type := {
  source : option CaptureSource;
  trackSourceFilter : option TrackSourceFilter;
  format : option AudioCaptureFormat;
  chunkSize : option number;
  bufferSize : option number;
  callback : option Callback;
  onData : option Callback
}.

Record TrackStatsData : Type := {
  tsTrackId : string;
  tsKind : TrackKind;
  tsParticipant : string;
  subscriptionTime : Z;
  tsPublication : Publication;
  tsSource : string;
  tsMuted : bool;
  tsEnabled : bool;
  tsDimensions : option (Z * Z);
  tsSimulcasted : bool
}.

Record TrackStatsResult : Type := {
  totalTracks : nat;
  activeTracks : nat;
  audioElementCount : nat;
  trackDetails : list (string * TrackStatsData)
}.

Record MediaRecorder : Type := {
  recId : nat;
  recTrack : string;
  recMimeType : string;
  recTimeslice : option number;
  recCallback : Callback
}.

Record CaptureState : Type := {
  csParticipant : string;
  csSource : Role
}.

(** The promise stored in [workletReady]: whether the registration of the
    processor module will succeed. *)
Record WorkletRegistration : Type := { registrationOk : bool }.

(** ** Events, listeners, effects *)

Inductive EventName : Type :=
| EvTrackSubscribed | EvTrackUnsubscribed | EvVolumeChanged
| EvSpeaking | EvListening | EvMicMuted | EvMicUnmuted | EvError.

Inductive Payload : Type :=
| PNone
| PNumber (n : number)
| PError (msg : string)
| PSubscribed (trackId participant : string) (stats : option TrackStatsData)
| PUnsubscribed (trackId participant : string).

(** A registered listener returns or throws; it does not call back into the
    manager. *)
Inductive Listener : Type :=
| Returns
| Throws (msg : string).

Inductive Effect : Type :=
| Emitted (ev : EventName) (p : Payload)
| Logged (msg : string)
| ClonedTrack (trackId : string) (clone : nat)
| RecorderCreated (trackId : string) (rec : nat)
| RecorderStopped (rec : nat)
| ModuleAdded
| NodeCreated (trackId : string) (k : NodeKind) (node : nat)
| NodeDisconnected (node : nat)
| CloneStopped (clone : nat)
| ContextCreated (ctx : nat)
| ContextResumed (ctx : nat)
| ContextClosed (ctx : nat)
| DomAppended (el : nat)
| DomRemoved (el : nat).

(** What the browser offers. *)
Record Platform : Type := {
  hasAudioContextCtor : bool;
  ctx16kOk : bool;
  ctxDefaultOk : bool;
  ctxStartsSuspended : bool;
  ctxOffersWorklet : bool;
  micAnalyser : option Analyser;
  hasMediaRecorder : bool;
  supportedMimeTypes : list string;
  recorderFailure : option string;
  workletModuleOk : bool;
  workletNodeFailure : option string;
  sourceNodeFailure : option string;
  scriptProcessorFailure : option string;
  domAppendOk : bool
}.

(** The options object handed to the two PCM strategies; the stream is
    known by the clone it wraps. *)
Record PcmOptions : Type := {
  poContext : AudioCtx;
  poClone : nat;
  poTrackId : string;
  poParticipant : string;
  poSource : Role;
  poTrackSource : string;
  poFormat : AudioCaptureFormat;
  poBufferSize : number;
  poCallback : Callback
}.

(** [#setupAudioWorkletCapture] suspended at its [await]: its options and
    the registration it waits for. *)
Record WorkletTask : Type := {
  wtOptions : PcmOptions;
  wtAwaited : WorkletRegistration
}.

(* ================================================================== *)
(** ** The state *)
(* ================================================================== *)

(** The fields of the class up to [workletReady], then the environment: the
    browser's capabilities, the registered listeners, the audio elements
    that exist (live or not), the clock read by [Date.now()], a supply of
    object identities, the suspended worklet set-ups, and the trace of
    effects, oldest first. *)
Record State : Type := {
  audioElements : list nat;
  trackStats : JsMap.t TrackStatsData;
  volume : number;
  room : option Room;
  audioContext : option AudioCtx;
  inputAnalyser : option Analyser;
  outputAnalyser : option Analyser;
  audioCaptureEnabled : bool;
  audioCaptureOptions : option AudioCaptureOptions;
  recorders : JsMap.t MediaRecorder;
  processors : JsMap.t AudioNode;
  sourceNodes : JsMap.t AudioNode;
  clonedTracks : JsMap.t nat;
  trackCaptureMap : JsMap.t CaptureState;
  workletReady : option WorkletRegistration;
  platform : Platform;
  listeners : EventName -> list Listener;
  heap : list AudioElement;
  now : Z;
  nextObj : nat;
  pending : list WorkletTask;
  trace : list Effect
}.

(** Field updates. *)
Definition with_audioElements (v : list nat) (s : State) : State :=
  {| audioElements := v; trackStats := trackStats s; volume := volume s;
     room := room s; audioContext := audioContext s; inputAnalyser :=
     inputAnalyser s; outputAnalyser := outputAnalyser s;
     audioCaptureEnabled := audioCaptureEnabled s; audioCaptureOptions :=
     audioCaptureOptions s; recorders := recorders s; processors :=
     processors s; sourceNodes := sourceNodes s; clonedTracks :=
     clonedTracks s; trackCaptureMap := trackCaptureMap s; workletReady :=
     workletReady s; platform := platform s; listeners := listeners s; heap
     := heap s; now := now s; nextObj := nextObj s; pending := pending s;
     trace := trace s |}.

Definition with_trackStats (v : JsMap.t TrackStatsData) (s : State) : State :=
  {| audioElements := audioElements s; trackStats := v; volume := volume s;
     room := room s; audioContext := audioContext s; inputAnalyser :=
     inputAnalyser s; outputAnalyser := outputAnalyser s;
     audioCaptureEnabled := audioCaptureEnabled s; audioCaptureOptions :=
     audioCaptureOptions s; recorders := recorders s; processors :=
     processors s; sourceNodes := sourceNodes s; clonedTracks :=
     clonedTracks s; trackCaptureMap := trackCaptureMap s; workletReady :=
     workletReady s; platform := platform s; listeners := listeners s; heap
     := heap s; now := now s; nextObj := nextObj s; pending := pending s;
     trace := trace s |}.

Definition with_volume (v : number) (s : State) : State :=
  {| audioElements := audioElements s; trackStats := trackStats s; volume :=
     v; room := room s; audioContext := audioContext s; inputAnalyser :=
     inputAnalyser s; outputAnalyser := outputAnalyser s;
     audioCaptureEnabled := audioCaptureEnabled s; audioCaptureOptions :=
     audioCaptureOptions s; recorders := recorders s; processors :=
     processors s; sourceNodes := sourceNodes s; clonedTracks :=
     clonedTracks s; trackCaptureMap := trackCaptureMap s; workletReady :=
     workletReady s; platform := platform s; listeners := listeners s; heap
     := heap s; now := now s; nextObj := nextObj s; pending := pending s;
     trace := trace s |}.

Definition with_room (v : option Room) (s : State) : State :=
  {| audioElements := audioElements s; trackStats := trackStats s; volume :=
     volume s; room := v; audioContext := audioContext s; inputAnalyser :=
     inputAnalyser s; outputAnalyser := outputAnalyser s;
     audioCaptureEnabled := audioCaptureEnabled s; audioCaptureOptions :=
     audioCaptureOptions s; recorders := recorders s; processors :=
     processors s; sourceNodes := sourceNodes s; clonedTracks :=
     clonedTracks s; trackCaptureMap := trackCaptureMap s; workletReady :=
     workletReady s; platform := platform s; listeners := listeners s; heap
     := heap s; now := now s; nextObj := nextObj s; pending := pending s;
     trace := trace s |}.

Definition with_audioContext (v : option AudioCtx) (s : State) : State :=
  {| audioElements := audioElements s; trackStats := trackStats s; volume :=
     volume s; room := room s; audioContext := v; inputAnalyser :=
     inputAnalyser s; outputAnalyser := outputAnalyser s;
     audioCaptureEnabled := audioCaptureEnabled s; audioCaptureOptions :=
     audioCaptureOptions s; recorders := recorders s; processors :=
     processors s; sourceNodes := sourceNodes s; clonedTracks :=
     clonedTracks s; trackCaptureMap := trackCaptureMap s; workletReady :=
     workletReady s; platform := platform s; listeners := listeners s; heap
     := heap s; now := now s; nextObj := nextObj s; pending := pending s;
     trace := trace s |}.

Definition with_inputAnalyser (v : option Analyser) (s : State) : State :=
  {| audioElements := audioElements s; trackStats := trackStats s; volume :=
     volume s; room := room s; audioContext := audioContext s; inputAnalyser
     := v; outputAnalyser := outputAnalyser s; audioCaptureEnabled :=
     audioCaptureEnabled s; audioCaptureOptions := audioCaptureOptions s;
     recorders := recorders s; processors := processors s; sourceNodes :=
     sourceNodes s; clonedTracks := clonedTracks s; trackCaptureMap :=
     trackCaptureMap s; workletReady := workletReady s; platform := platform
     s; listeners := listeners s; heap := heap s; now := now s; nextObj :=
     nextObj s; pending := pending s; trace := trace s |}.

Definition with_audioCaptureEnabled (v : bool) (s : State) : State :=
  {| audioElements := audioElements s; trackStats := trackStats s; volume :=
     volume s; room := room s; audioContext := audioContext s; inputAnalyser
     := inputAnalyser s; outputAnalyser := outputAnalyser s;
     audioCaptureEnabled := v; audioCaptureOptions := audioCaptureOptions s;
     recorders := recorders s; processors := processors s; sourceNodes :=
     sourceNodes s; clonedTracks := clonedTracks s; trackCaptureMap :=
     trackCaptureMap s; workletReady := workletReady s; platform := platform
     s; listeners := listeners s; heap := heap s; now := now s; nextObj :=
     nextObj s; pending := pending s; trace := trace s |}.

Definition with_audioCaptureOptions (v : option AudioCaptureOptions) (s : State) : State :=
  {| audioElements := audioElements s; trackStats := trackStats s; volume :=
     volume s; room := room s; audioContext := audioContext s; inputAnalyser
     := inputAnalyser s; outputAnalyser := outputAnalyser s;
     audioCaptureEnabled := audioCaptureEnabled s; audioCaptureOptions := v;
     recorders := recorders s; processors := processors s; sourceNodes :=
     sourceNodes s; clonedTracks := clonedTracks s; trackCaptureMap :=
     trackCaptureMap s; workletReady := workletReady s; platform := platform
     s; listeners := listeners s; heap := heap s; now := now s; nextObj :=
     nextObj s; pending := pending s; trace := trace s |}.

Definition with_recorders (v : JsMap.t MediaRecorder) (s : State) : State :=
  {| audioElements := audioElements s; trackStats := trackStats s; volume :=
     volume s; room := room s; audioContext := audioContext s; inputAnalyser
     := inputAnalyser s; outputAnalyser := outputAnalyser s;
     audioCaptureEnabled := audioCaptureEnabled s; audioCaptureOptions :=
     audioCaptureOptions s; recorders := v; processors := processors s;
     sourceNodes := sourceNodes s; clonedTracks := clonedTracks s;
     trackCaptureMap := trackCaptureMap s; workletReady := workletReady s;
     platform := platform s; listeners := listeners s; heap := heap s; now
     := now s; nextObj := nextObj s; pending := pending s; trace := trace s
     |}.

Definition with_processors (v : JsMap.t AudioNode) (s : State) : State :=
  {| audioElements := audioElements s; trackStats := trackStats s; volume :=
     volume s; room := room s; audioContext := audioContext s; inputAnalyser
     := inputAnalyser s; outputAnalyser := outputAnalyser s;
     audioCaptureEnabled := audioCaptureEnabled s; audioCaptureOptions :=
     audioCaptureOptions s; recorders := recorders s; processors := v;
     sourceNodes := sourceNodes s; clonedTracks := clonedTracks s;
     trackCaptureMap := trackCaptureMap s; workletReady := workletReady s;
     platform := platform s; listeners := listeners s; heap := heap s; now
     := now s; nextObj := nextObj s; pending := pending s; trace := trace s
     |}.

Definition with_sourceNodes (v : JsMap.t AudioNode) (s : State) : State :=
  {| audioElements := audioElements s; trackStats := trackStats s; volume :=
     volume s; room := room s; audioContext := audioContext s; inputAnalyser
     := inputAnalyser s; outputAnalyser := outputAnalyser s;
     audioCaptureEnabled := audioCaptureEnabled s; audioCaptureOptions :=
     audioCaptureOptions s; recorders := recorders s; processors :=
     processors s; sourceNodes := v; clonedTracks := clonedTracks s;
     trackCaptureMap := trackCaptureMap s; workletReady := workletReady s;
     platform := platform s; listeners := listeners s; heap := heap s; now
     := now s; nextObj := nextObj s; pending := pending s; trace := trace s
     |}.

Definition with_clonedTracks (v : JsMap.t nat) (s : State) : State :=
  {| audioElements := audioElements s; trackStats := trackStats s; volume :=
     volume s; room := room s; audioContext := audioContext s; inputAnalyser
     := inputAnalyser s; outputAnalyser := outputAnalyser s;
     audioCaptureEnabled := audioCaptureEnabled s; audioCaptureOptions :=
     audioCaptureOptions s; recorders := recorders s; processors :=
     processors s; sourceNodes := sourceNodes s; clonedTracks := v;
     trackCaptureMap := trackCaptureMap s; workletReady := workletReady s;
     platform := platform s; listeners := listeners s; heap := heap s; now
     := now s; nextObj := nextObj s; pending := pending s; trace := trace s
     |}.

Definition with_trackCaptureMap (v : JsMap.t CaptureState) (s : State) : State :=
  {| audioElements := audioElements s; trackStats := trackStats s; volume :=
     volume s; room := room s; audioContext := audioContext s; inputAnalyser
     := inputAnalyser s; outputAnalyser := outputAnalyser s;
     audioCaptureEnabled := audioCaptureEnabled s; audioCaptureOptions :=
     audioCaptureOptions s; recorders := recorders s; processors :=
     processors s; sourceNodes := sourceNodes s; clonedTracks :=
     clonedTracks s; trackCaptureMap := v; workletReady := workletReady s;
     platform := platform s; listeners := listeners s; heap := heap s; now
     := now s; nextObj := nextObj s; pending := pending s; trace := trace s
     |}.

Definition with_workletReady (v : option WorkletRegistration) (s : State) : State :=
  {| audioElements := audioElements s; trackStats := trackStats s; volume :=
     volume s; room := room s; audioContext := audioContext s; inputAnalyser
     := inputAnalyser s; outputAnalyser := outputAnalyser s;
     audioCaptureEnabled := audioCaptureEnabled s; audioCaptureOptions :=
     audioCaptureOptions s; recorders := recorders s; processors :=
     processors s; sourceNodes := sourceNodes s; clonedTracks :=
     clonedTracks s; trackCaptureMap := trackCaptureMap s; workletReady :=
     v; platform := platform s; listeners := listeners s; heap := heap s;
     now := now s; nextObj := nextObj s; pending := pending s; trace :=
     trace s |}.

Definition with_heap (v : list AudioElement) (s : State) : State :=
  {| audioElements := audioElements s; trackStats := trackStats s; volume :=
     volume s; room := room s; audioContext := audioContext s; inputAnalyser
     := inputAnalyser s; outputAnalyser := outputAnalyser s;
     audioCaptureEnabled := audioCaptureEnabled s; audioCaptureOptions :=
     audioCaptureOptions s; recorders := recorders s; processors :=
     processors s; sourceNodes := sourceNodes s; clonedTracks :=
     clonedTracks s; trackCaptureMap := trackCaptureMap s; workletReady :=
     workletReady s; platform := platform s; listeners := listeners s; heap
     := v; now := now s; nextObj := nextObj s; pending := pending s; trace
     := trace s |}.

Definition with_nextObj (v : nat) (s : State) : State :=
  {| audioElements := audioElements s; trackStats := trackStats s; volume :=
     volume s; room := room s; audioContext := audioContext s; inputAnalyser
     := inputAnalyser s; outputAnalyser := outputAnalyser s;
     audioCaptureEnabled := audioCaptureEnabled s; audioCaptureOptions :=
     audioCaptureOptions s; recorders := recorders s; processors :=
     processors s; sourceNodes := sourceNodes s; clonedTracks :=
     clonedTracks s; trackCaptureMap := trackCaptureMap s; workletReady :=
     workletReady s; platform := platform s; listeners := listeners s; heap
     := heap s; now := now s; nextObj := v; pending := pending s; trace :=
     trace s |}.

Definition with_pending (v : list WorkletTask) (s : State) : State :=
  {| audioElements := audioElements s; trackStats := trackStats s; volume :=
     volume s; room := room s; audioContext := audioContext s; inputAnalyser
     := inputAnalyser s; outputAnalyser := outputAnalyser s;
     audioCaptureEnabled := audioCaptureEnabled s; audioCaptureOptions :=
     audioCaptureOptions s; recorders := recorders s; processors :=
     processors s; sourceNodes := sourceNodes s; clonedTracks :=
     clonedTracks s; trackCaptureMap := trackCaptureMap s; workletReady :=
     workletReady s; platform := platform s; listeners := listeners s; heap
     := heap s; now := now s; nextObj := nextObj s; pending := v; trace :=
     trace s |}.

Definition with_trace (v : list Effect) (s : State) : State :=
  {| audioElements := audioElements s; trackStats := trackStats s; volume :=
     volume s; room := room s; audioContext := audioContext s; inputAnalyser
     := inputAnalyser s; outputAnalyser := outputAnalyser s;
     audioCaptureEnabled := audioCaptureEnabled s; audioCaptureOptions :=
     audioCaptureOptions s; recorders := recorders s; processors :=
     processors s; sourceNodes := sourceNodes s; clonedTracks :=
     clonedTracks s; trackCaptureMap := trackCaptureMap s; workletReady :=
     workletReady s; platform := platform s; listeners := listeners s; heap
     := heap s; now := now s; nextObj := nextObj s; pending := pending s;
     trace := v |}.


Definition with_listeners (v : EventName -> list Listener) (s : State) : State :=
  {| audioElements := audioElements s; trackStats := trackStats s; volume :=
     volume s; room := room s; audioContext := audioContext s; inputAnalyser
     := inputAnalyser s; outputAnalyser := outputAnalyser s;
     audioCaptureEnabled := audioCaptureEnabled s; audioCaptureOptions :=
     audioCaptureOptions s; recorders := recorders s; processors :=
     processors s; sourceNodes := sourceNodes s; clonedTracks :=
     clonedTracks s; trackCaptureMap := trackCaptureMap s; workletReady :=
     workletReady s; platform := platform s; listeners := v; heap := heap s;
     now := now s; nextObj := nextObj s; pending := pending s; trace :=
     trace s |}.

Definition with_now (v : Z) (s : State) : State :=
  {| audioElements := audioElements s; trackStats := trackStats s; volume :=
     volume s; room := room s; audioContext := audioContext s; inputAnalyser
     := inputAnalyser s; outputAnalyser := outputAnalyser s;
     audioCaptureEnabled := audioCaptureEnabled s; audioCaptureOptions :=
     audioCaptureOptions s; recorders := recorders s; processors :=
     processors s; sourceNodes := sourceNodes s; clonedTracks :=
     clonedTracks s; trackCaptureMap := trackCaptureMap s; workletReady :=
     workletReady s; platform := platform s; listeners := listeners s; heap
     := heap s; now := v; nextObj := nextObj s; pending := pending s; trace
     := trace s |}.

(** Updates of an element's properties. *)
Definition with_elAttached (v : bool) (e : AudioElement) : AudioElement :=
  {| elId := elId e; elTrack := elTrack e; elAttached := v; elVolume :=
     elVolume e; elAutoplay := elAutoplay e; elMonitors := elMonitors e;
     elHidden := elHidden e; elInDom := elInDom e |}.

Definition with_elVolume (v : number) (e : AudioElement) : AudioElement :=
  {| elId := elId e; elTrack := elTrack e; elAttached := elAttached e;
     elVolume := v; elAutoplay := elAutoplay e; elMonitors := elMonitors e;
     elHidden := elHidden e; elInDom := elInDom e |}.

Definition with_elAutoplay (v : bool) (e : AudioElement) : AudioElement :=
  {| elId := elId e; elTrack := elTrack e; elAttached := elAttached e;
     elVolume := elVolume e; elAutoplay := v; elMonitors := elMonitors e;
     elHidden := elHidden e; elInDom := elInDom e |}.

Definition with_elMonitors (v : list bool) (e : AudioElement) : AudioElement :=
  {| elId := elId e; elTrack := elTrack e; elAttached := elAttached e;
     elVolume := elVolume e; elAutoplay := elAutoplay e; elMonitors := v;
     elHidden := elHidden e; elInDom := elInDom e |}.

Definition with_elHidden (v : bool) (e : AudioElement) : AudioElement :=
  {| elId := elId e; elTrack := elTrack e; elAttached := elAttached e;
     elVolume := elVolume e; elAutoplay := elAutoplay e; elMonitors :=
     elMonitors e; elHidden := v; elInDom := elInDom e |}.

Definition with_elInDom (v : bool) (e : AudioElement) : AudioElement :=
  {| elId := elId e; elTrack := elTrack e; elAttached := elAttached e;
     elVolume := elVolume e; elAutoplay := elAutoplay e; elMonitors :=
     elMonitors e; elHidden := elHidden e; elInDom := v |}.

(* ================================================================== *)
(** ** Computations: state, exceptions, effects *)
(* ================================================================== *)

Inductive Exn : Type := JsError (msg : string).

Definition message (e : Exn) : string :=
  match e with JsError m => m end.

Inductive Outcome (A : Type) : Type :=
| Ok (a : A)
| Raised (e : Exn).
Arguments Ok {A} a.
Arguments Raised {A} e.

(** A method body: from a state to what it returns or throws, and the state
    it leaves. *)
Definition M (A : Type) : Type := State -> Outcome A * State.

Definition ret {A : Type} (a : A) : M A := fun s => (Ok a, s).

Definition bind {A B : Type} (m : M A) (k : A -> M B) : M B :=
  fun s =>
    match m s with
    | (Ok a, s') => k a s'
    | (Raised e, s') => (Raised e, s')
    end.

Definition throw {A : Type} (e : Exn) : M A := fun s => (Raised e, s).

(** [try { m } catch (e) { h e }] *)
Definition try_catch {A : Type} (m : M A) (h : Exn -> M A) : M A :=
  fun s =>
    match m s with
    | (Ok a, s') => (Ok a, s')
    | (Raised e, s') => h e s'
    end.

Definition gets {A : Type} (f : State -> A) : M A := fun s => (Ok (f s), s).
Definition modify (f : State -> State) : M unit := fun s => (Ok tt, f s).

Declare Scope js_scope.
Delimit Scope js_scope with js.
Notation "x <- m ;; k" := (bind m (fun x => k))
  (at level 61, m at next level, right associativity) : js_scope.
Notation "m ;; k" := (bind m (fun _ => k))
  (at level 61, right associativity) : js_scope.
Local Open Scope js_scope.

Definition effect (e : Effect) : M unit :=
  modify (fun s => with_trace (trace s ++ [e]) s).

Definition log (msg : string) : M unit := effect (Logged msg).

(** A new object identity. *)
Definition fresh : M nat :=
  fun s => (Ok (nextObj s), with_nextObj (S (nextObj s)) s).

(** [for (const x of l) { f x }] *)
Fixpoint forEach {X : Type} (l : list X) (f : X -> M unit) : M unit :=
  match l with
  | [] => ret tt
  | x :: r => f x ;; forEach r f
  end.

Definition when (b : bool) (m : M unit) : M unit :=
  if b then m else ret tt.

(** The state a call leaves and what it returned or threw. *)
Definition post {A : Type} (m : M A) (s : State) : State := snd (m s).
Definition outcome {A : Type} (m : M A) (s : State) : Outcome A := fst (m s).

Definition throws {A : Type} (m : M A) (s : State) : bool :=
  match outcome m s with Raised _ => true | Ok _ => false end.

(** *** [EventEmitter.emit] of the [events] package

    Listeners run in registration order and an exception of one of them
    leaves [emit]; an ['error'] event without any listener throws the error
    it carries. *)
Fixpoint callListeners (ls : list Listener) : M unit :=
  match ls with
  | [] => ret tt
  | Returns :: r => callListeners r
  | Throws m :: _ => throw (JsError m)
  end.

Definition payloadError (p : Payload) : Exn :=
  match p with
  | PError m => JsError m
  | _ => JsError "Unhandled error."
  end.

Definition emit (ev : EventName) (p : Payload) : M unit :=
  effect (Emitted ev p) ;;
  ls <- gets (fun s => listeners s ev) ;;
  match ev, ls with
  | EvError, [] => throw (payloadError p)
  | _, _ => callListeners ls
  end.

Definition listenerCount (ev : EventName) : M nat :=
  gets (fun s => List.length (listeners s ev)).

(** *** Elements *)

Definition findElement (id : nat) (s : State) : option AudioElement :=
  find (fun e => Nat.eqb (elId e) id) (heap s).

Definition updateElement (id : nat) (f : AudioElement -> AudioElement)
  : M unit :=
  modify (fun s =>
    with_heap (map (fun e => if Nat.eqb (elId e) id then f e else e) (heap s))
              s).

Definition newElement (id owner : nat) : AudioElement :=
  {| elId := id; elTrack := owner; elAttached := true; elVolume := Fin 1;
     elAutoplay := false; elMonitors := []; elHidden := false;
     elInDom := false |}.

(** [track.attach()]: a new element bound to the track, or nothing. *)
Definition attach (t : Track) : M (option nat) :=
  if attachYields t then
    id <- fresh ;;
    modify (fun s => with_heap (heap s ++ [newElement id (trackObj t)]) s) ;;
    ret (Some id)
  else ret None.

(** [track.detach()]: the elements bound to the track, which it releases. *)
Definition detach (t : Track) : M (list nat) :=
  ids <- gets (fun s =>
           map elId
             (filter (fun e => Nat.eqb (elTrack e) (trackObj t) && elAttached e)
                     (heap s))) ;;
  forEach ids (fun id => updateElement id (with_elAttached false)) ;;
  ret ids.

(** [Set.add] and [Set.delete] on identities. *)
Definition set_add (x : nat) (l : list nat) : list nat :=
  if existsb (Nat.eqb x) l then l else l ++ [x].

Definition set_delete (x : nat) (l : list nat) : list nat :=
  filter (fun y => negb (Nat.eqb x y)) l.

(* ================================================================== *)
(** ** The class [LiveKitAudioManager] *)
(* ================================================================== *)

Definition MAX_VOLUME : number := Fin 1.
Definition MIN_VOLUME : number := Fin 0.
Definition DEFAULT_VOLUME : number := Fin 0.
Definition ANALYSER_FFT_SIZE : Z := 256.
Definition BYTE_MAX : Z := 255.
Definition DEFAULT_CHUNK_SIZE : number := Fin (100 # 1).
Definition DEFAULT_BUFFER_SIZE : number := Fin (2048 # 1).
Definition DEFAULT_AUDIO_FORMAT : AudioCaptureFormat := OpusWebm.
Definition DEFAULT_PCM_BUFFER_SIZE : number := Fin (4096 # 1).

(** The state of [new LiveKitAudioManager()] in a given environment. *)
Definition initial (p : Platform) (ls : EventName -> list Listener) (t : Z)
  : State :=
  {| audioElements := []; trackStats := JsMap.empty; volume := Fin 1;
     room := None; audioContext := None; inputAnalyser := None;
     outputAnalyser := None; audioCaptureEnabled := false;
     audioCaptureOptions := None; recorders := JsMap.empty;
     processors := JsMap.empty; sourceNodes := JsMap.empty;
     clonedTracks := JsMap.empty; trackCaptureMap := JsMap.empty;
     workletReady := None; platform := p; listeners := ls; heap := [];
     now := t; nextObj := 0; pending := []; trace := [] |}.

Definition setRoom (r : option Room) : M unit := modify (with_room r).

(** *** Volume *)

Definition setVolume (v : number) : M unit :=
  try_catch
    (let numVolume := v in
     (if Number_isFinite numVolume
      then modify (with_volume (Math_min MAX_VOLUME
                                         (Math_max MIN_VOLUME numVolume)))
      else modify (with_volume DEFAULT_VOLUME)) ;;
     els <- gets audioElements ;;
     forEach els (fun id =>
       vol <- gets volume ;;
       updateElement id (with_elVolume vol)) ;;
     vol <- gets volume ;;
     emit EvVolumeChanged (PNumber vol))
    (fun error =>
       emit EvError (PError ("Failed to set volume: " ++ message error))).

Definition getOutputVolume : M number := gets volume.

(** [#emitMicEventSafely] *)
Definition emitMicEventSafely (eventName : EventName) (muted : bool)
  : M unit :=
  try_catch
    (emit eventName PNone)
    (fun error =>
       n <- listenerCount EvError ;;
       when (Nat.ltb 0 n)
         (emit EvError
            (PError ("Failed to " ++ (if muted then "mute" else "unmute")
                     ++ " microphone: " ++ message error)))).

(** *** Level analysis *)

(** [#ensureAudioContext] *)
Definition ensureAudioContext : M unit :=
  ctx <- gets audioContext ;;
  match ctx with
  | Some _ => ret tt
  | None =>
      p <- gets platform ;;
      if negb (hasAudioContextCtor p) then ret tt
      else if ctx16kOk p then
        id <- fresh ;;
        effect (ContextCreated id) ;;
        modify (with_audioContext
                  (Some {| ctxId := id; ctxSampleRate := Some 16000;
                           ctxState := if ctxStartsSuspended p
                                       then Suspended else Running;
                           ctxHasWorklet := ctxOffersWorklet p |})) ;;
        when (ctxStartsSuspended p) (effect (ContextResumed id))
      else if ctxDefaultOk p then
        id <- fresh ;;
        effect (ContextCreated id) ;;
        modify (with_audioContext
                  (Some {| ctxId := id; ctxSampleRate := None;
                           ctxState := if ctxStartsSuspended p
                                       then Suspended else Running;
                           ctxHasWorklet := ctxOffersWorklet p |}))
      else modify (with_audioContext None)
  end.

(** The look-up of the microphone publication through the room's getter,
    with its retry. *)
Definition lookupMicPublication : M (option Publication) :=
  r <- gets room ;;
  match r with
  | None => ret None
  | Some rm =>
      match localParticipant rm with
      | None => ret None
      | Some lp =>
          match getTrackPublication lp with
          | None => ret None
          | Some (GetterReturns p) => ret p
          | Some (GetterThrowsThenReturns p) => ret p
          | Some GetterThrowsTwice =>
              throw (JsError "getTrackPublication failed")
          end
      end
  end.

(** [publication?.track?.mediaStreamTrack] *)
Definition publicationMediaTrack (p : option Publication) : option string :=
  match p with
  | Some pub =>
      match pubTrack pub with
      | Some t => mediaStreamTrackId t
      | None => None
      end
  | None => None
  end.

(** [#initializeInputAnalyser] *)
Definition initializeInputAnalyser : M unit :=
  try_catch
    (ensureAudioContext ;;
     ctx <- gets audioContext ;;
     match ctx with
     | None => ret tt
     | Some _ =>
         publication <- lookupMicPublication ;;
         match publicationMediaTrack publication with
         | None => ret tt
         | Some _ =>
             p <- gets platform ;;
             match micAnalyser p with
             | None => throw (JsError "createAnalyser failed")
             | Some analyser => modify (with_inputAnalyser (Some analyser))
             end
         end
     end)
    (fun _ => modify (with_inputAnalyser None)).

(** A fresh [Uint8Array] of [n] bytes after [getByteFrequencyData]. *)
Definition fillBytes (n : nat) (data : list Byte.byte) : list Byte.byte :=
  firstn n data ++ repeat Byte.x00 (n - List.length data).

Definition byteSum (l : list Byte.byte) : Z :=
  fold_left (fun sum v => sum + Z.of_N (Byte.to_N v)) l 0.

Definition isNone {A : Type} (o : option A) : bool :=
  match o with None => true | Some _ => false end.

(** [getInputVolume].  An analyser has at most 16384 bins (half its
    [fftSize]) and no array that an engine can hold has 2^45 bytes, so that
    the sum of the bytes and the product of the length with 255 are whole
    numbers below 2^53, hence exact; their quotient is rounded. *)
Definition getInputVolume : M number :=
  try_catch
    (a0 <- gets inputAnalyser ;;
     when (isNone a0) initializeInputAnalyser ;;
     a <- gets inputAnalyser ;;
     match a with
     | None => ret MIN_VOLUME
     | Some analyser =>
         let binCount := frequencyBinCount analyser in
         match byteFrequencyData analyser with
         | None => throw (JsError "getByteFrequencyData failed")
         | Some data =>
             let dataArray := fillBytes binCount data in
             if Nat.eqb (List.length dataArray) 0 then ret MIN_VOLUME
             else
               let sum := byteSum dataArray in
               let avg :=
                 binary64
                   (inject_Z sum /
                    inject_Z (Z.of_nat (List.length dataArray) * BYTE_MAX)) in
               ret (Math_max MIN_VOLUME (Math_min MAX_VOLUME avg))
         end
     end)
    (fun _ => ret MIN_VOLUME).

(** *** Track identity and look-up *)

(** [track.sid || track.mediaStreamTrack?.id || 'unknown'] *)
Definition trackKey (t : Track) : string :=
  opt_str_or (sid t) (opt_str_or (mediaStreamTrackId t) "unknown").

(** [#getTrackSourceString] *)
Definition getTrackSourceString (src : TrackSource) : string :=
  match src with
  | Microphone => "microphone"
  | Camera => "camera"
  | ScreenShare => "screen_share"
  | ScreenShareAudio => "screen_share_audio"
  | UnknownSource => "unknown"
  end.

Definition filterString (f : TrackSourceFilter) : string :=
  match f with
  | FilterAll => "all"
  | FilterMicrophone => "microphone"
  | FilterCamera => "camera"
  | FilterScreenShare => "screen_share"
  | FilterScreenShareAudio => "screen_share_audio"
  | FilterUnknown => "unknown"
  end.

Definition opt_is (o : option string) (x : string) : bool :=
  match o with Some s => String.eqb s x | None => false end.

(** The test of the two loops of [#getTrackById]. *)
Definition publicationHas (trackId : string) (pub : Publication) : bool :=
  match pubTrack pub with
  | Some t => opt_is (sid t) trackId || opt_is (mediaStreamTrackId t) trackId
  | None => false
  end.

Definition searchPublications (trackId : string) (pubs : list Publication)
  : option Track :=
  match find (publicationHas trackId) pubs with
  | Some pub => pubTrack pub
  | None => None
  end.

(** [#getTrackById] *)
Definition getTrackById (trackId : string) (s : State) : option Track :=
  match room s with
  | None => None
  | Some rm =>
      match searchPublications trackId (List.concat (remoteParticipants rm)) with
      | Some t => Some t
      | None =>
          match localParticipant rm with
          | Some lp => searchPublications trackId (lpPublications lp)
          | None => None
          end
      end
  end.

(** *** Capture pipeline *)

Definition roleString (r : Role) : string :=
  match r with Agent => "agent" | User => "user" end.

Definition isPcmI16 (f : AudioCaptureFormat) : bool :=
  match f with PcmI16 => true | _ => false end.

Definition isOpusWebm (f : AudioCaptureFormat) : bool :=
  match f with OpusWebm => true | _ => false end.

(** What the delivery function receives from either PCM strategy. *)
Inductive PcmBuffer : Type :=
| Float32Buffer (samples : list number)
| Int16Buffer (samples : list Z).

Definition pcmOutput (f : AudioCaptureFormat) (audioData : list number)
  : PcmBuffer :=
  if isPcmI16 f then Int16Buffer (float32ToInt16 audioData)
  else Float32Buffer audioData.

(** [#setupScriptProcessorCapture] *)
Definition setupScriptProcessorCapture (o : PcmOptions) : M unit :=
  try_catch
    (p <- gets platform ;;
     match sourceNodeFailure p with
     | Some m => throw (JsError m)
     | None =>
         sourceNode <- fresh ;;
         effect (NodeCreated (poTrackId o) SourceNode sourceNode) ;;
         match scriptProcessorFailure p with
         | Some m => throw (JsError m)
         | None =>
             processor <- fresh ;;
             effect (NodeCreated (poTrackId o) ScriptProcessor processor) ;;
             modify (fun s => with_sourceNodes
               (JsMap.set (poTrackId o)
                  {| nodeId := sourceNode; nodeKind := SourceNode;
                     nodeTrack := poTrackId o |} (sourceNodes s)) s) ;;
             modify (fun s => with_processors
               (JsMap.set (poTrackId o)
                  {| nodeId := processor; nodeKind := ScriptProcessor;
                     nodeTrack := poTrackId o |} (processors s)) s) ;;
             silentGain <- fresh ;;
             effect (NodeCreated (poTrackId o) GainNode silentGain) ;;
             modify (fun s => with_processors
               (JsMap.set (poTrackId o ++ "_gain")
                  {| nodeId := silentGain; nodeKind := GainNode;
                     nodeTrack := poTrackId o |} (processors s)) s)
         end
     end)
    (fun _ =>
       log ("ScriptProcessor setup failed for " ++ roleString (poSource o)
            ++ ":")).

(** [#setupAudioWorkletCapture], up to its [await]: the registration is
    started if none is in flight, then the call is suspended. *)
Definition setupAudioWorkletCapture (o : PcmOptions) : M unit :=
  w <- gets workletReady ;;
  registration <-
    match w with
    | Some r => ret r
    | None =>
        p <- gets platform ;;
        effect ModuleAdded ;;
        let r := {| registrationOk := workletModuleOk p |} in
        modify (with_workletReady (Some r)) ;;
        ret r
    end ;;
  modify (fun s =>
    with_pending
      (pending s ++ [{| wtOptions := o; wtAwaited := registration |}]) s).

(** [#setupAudioWorkletCapture], from its [await] on. *)
Definition resumeAudioWorkletCapture (t : WorkletTask) : M unit :=
  let o := wtOptions t in
  try_catch
    (if registrationOk (wtAwaited t) then
       p <- gets platform ;;
       match sourceNodeFailure p with
       | Some m => throw (JsError m)
       | None =>
           sourceNode <- fresh ;;
           effect (NodeCreated (poTrackId o) SourceNode sourceNode) ;;
           match workletNodeFailure p with
           | Some m => throw (JsError m)
           | None =>
               workletNode <- fresh ;;
               effect (NodeCreated (poTrackId o) WorkletNode workletNode) ;;
               modify (fun s => with_sourceNodes
                 (JsMap.set (poTrackId o)
                    {| nodeId := sourceNode; nodeKind := SourceNode;
                       nodeTrack := poTrackId o |} (sourceNodes s)) s) ;;
               modify (fun s => with_processors
                 (JsMap.set (poTrackId o)
                    {| nodeId := workletNode; nodeKind := WorkletNode;
                       nodeTrack := poTrackId o |} (processors s)) s) ;;
               silentGain <- fresh ;;
               effect (NodeCreated (poTrackId o) GainNode silentGain) ;;
               modify (fun s => with_processors
                 (JsMap.set (poTrackId o ++ "_gain")
                    {| nodeId := silentGain; nodeKind := GainNode;
                       nodeTrack := poTrackId o |} (processors s)) s)
           end
       end
     else throw (JsError "addModule failed"))
    (fun _ =>
       log ("AudioWorklet setup failed for " ++ roleString (poSource o)
            ++ ":") ;;
       modify (with_workletReady None) ;;
       setupScriptProcessorCapture o).

(** One turn of the job queue: the oldest suspended set-up resumes. *)
Definition runPending : M unit :=
  q <- gets pending ;;
  match q with
  | [] => ret tt
  | t :: rest =>
      modify (with_pending rest) ;;
      resumeAudioWorkletCapture t
  end.

(** [#setupPCMCapture] *)
Definition setupPCMCapture (clone : nat) (trackId participant : string)
    (src : Role) (fmt : AudioCaptureFormat) (trackSource : string)
  : M unit :=
  opts <- gets audioCaptureOptions ;;
  match opts with
  | None => ret tt
  | Some options =>
      match callback options with
      | None => ret tt
      | Some cb =>
          let size := opt_num_or (bufferSize options) DEFAULT_PCM_BUFFER_SIZE in
          try_catch
            (ensureAudioContext ;;
             ctx <- gets audioContext ;;
             match ctx with
             | None =>
                 throw (JsError "WebAudio is not supported in this environment")
             | Some c =>
                 when (match ctxState c with Suspended => true | _ => false end)
                      (effect (ContextResumed (ctxId c))) ;;
                 let o := {| poContext := c; poClone := clone;
                             poTrackId := trackId;
                             poParticipant := participant; poSource := src;
                             poTrackSource := trackSource; poFormat := fmt;
                             poBufferSize := size; poCallback := cb |} in
                 if ctxHasWorklet c then setupAudioWorkletCapture o
                 else setupScriptProcessorCapture o
             end)
            (fun error =>
               emit EvError
                 (PError ("Failed to setup PCM audio capture: "
                          ++ message error)))
      end
  end.

(** [#getSupportedMimeType] *)
Definition mimePreference : list string :=
  ["audio/webm;codecs=opus"; "audio/mp4"; "audio/aac"; "audio/webm";
   "audio/ogg"].

Definition getSupportedMimeType : M string :=
  p <- gets platform ;;
  if hasMediaRecorder p then
    match find (fun ty => existsb (String.eqb ty) (supportedMimeTypes p))
               mimePreference with
    | Some ty => ret ty
    | None => ret ""
    end
  else throw (JsError "MediaRecorder is not defined").

(** [#setupEncodedCapture] *)
Definition setupEncodedCapture (clone : nat) (trackId participant : string)
    (src : Role) (trackSource : string) : M unit :=
  opts <- gets audioCaptureOptions ;;
  match opts with
  | None => ret tt
  | Some options =>
      match callback options with
      | None => ret tt
      | Some cb =>
          try_catch
            (mimeType <- getSupportedMimeType ;;
             p <- gets platform ;;
             match recorderFailure p with
             | Some m => throw (JsError m)
             | None =>
                 recorder <- fresh ;;
                 effect (RecorderCreated trackId recorder) ;;
                 modify (fun s => with_recorders
                   (JsMap.set trackId
                      {| recId := recorder; recTrack := trackId;
                         recMimeType := mimeType;
                         recTimeslice := chunkSize options;
                         recCallback := cb |} (recorders s)) s)
             end)
            (fun error =>
               emit EvError
                 (PError ("Failed to setup encoded audio capture: "
                          ++ message error)))
      end
  end.

(** [#setupTrackCapture] *)
Definition setupTrackCapture (trackId participant : string) (src : Role)
    (fmt : AudioCaptureFormat) : M unit :=
  opts <- gets audioCaptureOptions ;;
  match opts with
  | None => ret tt
  | Some _ =>
      track <- gets (getTrackById trackId) ;;
      match track with
      | None => ret tt
      | Some tr =>
          match mediaStreamTrackId tr with
          | None => ret tt
          | Some _ =>
              dup <- gets (fun s => JsMap.has trackId (trackCaptureMap s)) ;;
              if dup then
                log ("Skipping duplicate setup for " ++ roleString src
                     ++ " (" ++ trackId ++ ")")
              else
                let trackSource := getTrackSourceString (tsource tr) in
                modify (fun s => with_trackCaptureMap
                  (JsMap.set trackId
                     {| csParticipant := participant; csSource := src |}
                     (trackCaptureMap s)) s) ;;
                clonedTrack <- fresh ;;
                effect (ClonedTrack trackId clonedTrack) ;;
                modify (fun s => with_clonedTracks
                  (JsMap.set trackId clonedTrack (clonedTracks s)) s) ;;
                if isOpusWebm fmt then
                  setupEncodedCapture clonedTrack trackId participant src
                                      trackSource
                else
                  setupPCMCapture clonedTrack trackId participant src fmt
                                  trackSource
          end
      end
  end.

(** ['agent'] or ['user'], from the identity. *)
Definition isAgent (ident : string) : bool :=
  includes (toLowerCase ident) "agent".

Definition roleOf (ident : string) : Role :=
  if isAgent ident then Agent else User.

(** [source !== 'both' && source !== trackSource] *)
Definition sourceRejects (src : option CaptureSource) (r : Role) : bool :=
  match src, r with
  | Some SrcBoth, _ => false
  | Some SrcAgent, Agent => false
  | Some SrcUser, User => false
  | _, _ => true
  end.

(** [trackSourceFilter !== 'all' && trackSourceFilter !== actualTrackSource] *)
Definition filterRejects (f : option TrackSourceFilter) (actual : string)
  : bool :=
  match f with
  | Some x =>
      negb (String.eqb (filterString x) "all")
      && negb (String.eqb (filterString x) actual)
  | None => true
  end.

(** [#setupAudioCaptureIfEnabled] *)
Definition setupAudioCaptureIfEnabled (track : Track) (participant : Participant)
  : M unit :=
  enabled <- gets audioCaptureEnabled ;;
  opts <- gets audioCaptureOptions ;;
  match enabled, opts with
  | true, Some options =>
      let trackId := trackKey track in
      let trackSource := roleOf (str_or (identity participant) "") in
      if sourceRejects (source options) trackSource then ret tt
      else
        let actualTrackSource := getTrackSourceString (tsource track) in
        if filterRejects (trackSourceFilter options) actualTrackSource
        then ret tt
        else
          match format options with
          | Some fmt =>
              setupTrackCapture trackId
                (str_or (identity participant) "unknown") trackSource fmt
          | None => ret tt
          end
  | _, _ => ret tt
  end.

(** [#setupExistingTrackCapture] *)
Definition setupExistingTrackCapture : M unit :=
  opts <- gets audioCaptureOptions ;;
  match opts with
  | None => ret tt
  | Some options =>
      match format options with
      | None => ret tt
      | Some fmt =>
          tracks <- gets (fun s => JsMap.entries (trackStats s)) ;;
          forEach tracks (fun entry =>
            let trackId := fst entry in
            let trackData := snd entry in
            let trackSource := roleOf (tsParticipant trackData) in
            if sourceRejects (source options) trackSource then ret tt
            else if filterRejects (trackSourceFilter options)
                                  (tsSource trackData) then ret tt
            else setupTrackCapture trackId (tsParticipant trackData)
                                   trackSource fmt)
      end
  end.

Definition dq : string := String (ascii_of_nat 34) EmptyString.

(** [enableAudioCapture] *)
Definition enableAudioCapture (options : AudioCaptureOptions) : M unit :=
  match opt_or (callback options) (onData options) with
  | None =>
      throw (JsError ("Audio capture requires either " ++ dq ++ "callback"
                      ++ dq ++ " or " ++ dq ++ "onData" ++ dq ++ " option"))
  | Some cb =>
      modify (with_audioCaptureEnabled true) ;;
      modify (with_audioCaptureOptions (Some
        {| source := Some (match source options with
                           | Some x => x | None => SrcAgent end);
           trackSourceFilter :=
             Some (match trackSourceFilter options with
                   | Some x => x | None => FilterMicrophone end);
           format := Some (match format options with
                           | Some x => x | None => DEFAULT_AUDIO_FORMAT end);
           chunkSize := Some (opt_num_or (chunkSize options)
                                         DEFAULT_CHUNK_SIZE);
           bufferSize := Some (opt_num_or (bufferSize options)
                                          DEFAULT_BUFFER_SIZE);
           callback := Some cb;
           onData := None |})) ;;
      setupExistingTrackCapture
  end.

(** [#cleanupAudioCapture] *)
Definition cleanupAudioCapture : M unit :=
  modify (with_workletReady None) ;;
  recs <- gets (fun s => JsMap.values (recorders s)) ;;
  forEach recs (fun r => effect (RecorderStopped (recId r))) ;;
  modify (with_recorders JsMap.empty) ;;
  procs <- gets (fun s => JsMap.values (processors s)) ;;
  forEach procs (fun n => effect (NodeDisconnected (nodeId n))) ;;
  modify (with_processors JsMap.empty) ;;
  srcs <- gets (fun s => JsMap.values (sourceNodes s)) ;;
  forEach srcs (fun n => effect (NodeDisconnected (nodeId n))) ;;
  modify (with_sourceNodes JsMap.empty) ;;
  clones <- gets (fun s => JsMap.values (clonedTracks s)) ;;
  forEach clones (fun c => effect (CloneStopped c)) ;;
  modify (with_clonedTracks JsMap.empty) ;;
  modify (with_trackCaptureMap JsMap.empty) ;;
  ctx <- gets audioContext ;;
  match ctx with
  | Some c =>
      when (match ctxState c with Closed => false | _ => true end)
           (effect (ContextClosed (ctxId c))) ;;
      modify (with_audioContext None)
  | None => ret tt
  end.

(** [disableAudioCapture] *)
Definition disableAudioCapture : M unit :=
  modify (with_audioCaptureEnabled false) ;;
  cleanupAudioCapture ;;
  modify (with_audioCaptureOptions None) ;;
  modify (with_workletReady None).

(** *** Subscription and playback *)

(** The record that [#recordTrackStats] builds at time [t]. *)
Definition statsRecord (track : Track) (publication : Publication)
    (participant : Participant) (t : Z) : TrackStatsData :=
  {| tsTrackId := trackKey track;
     tsKind := kind track;
     tsParticipant := str_or (identity participant) "unknown";
     subscriptionTime := t;
     tsPublication := publication;
     tsSource := getTrackSourceString (pubSource publication);
     tsMuted := isMuted publication;
     tsEnabled := isEnabled publication;
     tsDimensions := dimensions publication;
     tsSimulcasted := simulcasted publication |}.

(** [#recordTrackStats] *)
Definition recordTrackStats (track : Track) (publication : Publication)
    (participant : Participant) : M unit :=
  t <- gets now ;;
  modify (fun s => with_trackStats
    (JsMap.set (trackKey track) (statsRecord track publication participant t)
               (trackStats s)) s).

(** [#setupAudioMonitoring]: a new variable, not speaking, and three
    listeners that capture it, added after the listeners that the element
    already has. *)
Definition setupAudioMonitoring (el : nat) : M unit :=
  updateElement el (fun e => with_elMonitors (elMonitors e ++ [false]) e).

(** An assignment to the variable of the installation [k]. *)
Definition setSpeaking (k : nat) (b : bool) (e : AudioElement)
  : AudioElement :=
  with_elMonitors (store k b (elMonitors e)) e.

(** The listener that the installation [k] added for ['play']. *)
Definition onPlay (el k : nat) : M unit :=
  e <- gets (findElement el) ;;
  match e with
  | Some x =>
      if negb (nth k (elMonitors x) false) then
        updateElement el (setSpeaking k true) ;;
        emit EvSpeaking PNone
      else ret tt
  | None => ret tt
  end.

(** The listener that the installation [k] added for ['pause']. *)
Definition onPause (el k : nat) : M unit :=
  updateElement el (setSpeaking k false) ;;
  emit EvListening PNone.

(** The listener that the installation [k] added for ['ended']. *)
Definition onEnded (el k : nat) : M unit :=
  updateElement el (setSpeaking k false) ;;
  emit EvListening PNone.

Inductive MediaEvent : Type := Play | Pause | Ended.

(** The browser dispatching a media event on an element: the listeners
    added for the event run in the order of their installation; what one
    of them throws is reported by the browser, it does not stop the others
    and does not reach the manager's callers. *)
Definition dispatch (el : nat) (ev : MediaEvent) : M unit :=
  e <- gets (findElement el) ;;
  match e with
  | Some x =>
      forEach (seq 0 (List.length (elMonitors x))) (fun k =>
        try_catch
          (match ev with
           | Play => onPlay el k
           | Pause => onPause el k
           | Ended => onEnded el k
           end)
          (fun _ => ret tt))
  | None => ret tt
  end.

(** [#emitTrackSubscribed] *)
Definition emitTrackSubscribed (track : Track) (publication : Publication)
    (participant : Participant) : M unit :=
  stats <- gets (fun s => JsMap.get (trackKey track) (trackStats s)) ;;
  emit EvTrackSubscribed
       (PSubscribed (trackKey track)
                    (str_or (identity participant) "unknown") stats).

(** [#attachAudioElementToDOM] *)
Definition attachAudioElementToDOM (el : nat) : M unit :=
  updateElement el (with_elHidden true) ;;
  p <- gets platform ;;
  when (domAppendOk p)
       (updateElement el (with_elInDom true) ;; effect (DomAppended el)).

(** [#setupAudioElement] *)
Definition setupAudioElement (track : Track) (publication : Publication)
    (participant : Participant) : M unit :=
  audioElement <- attach track ;;
  match audioElement with
  | None => ret tt
  | Some el =>
      vol <- gets volume ;;
      updateElement el (with_elVolume vol) ;;
      updateElement el (with_elAutoplay true) ;;
      setupAudioMonitoring el ;;
      modify (fun s => with_audioElements (set_add el (audioElements s)) s) ;;
      emitTrackSubscribed track publication participant ;;
      attachAudioElementToDOM el ;;
      setupAudioCaptureIfEnabled track participant
  end.

Definition isAudio (k : TrackKind) : bool :=
  match k with KAudio => true | _ => false end.

(** [handleTrackSubscribed] *)
Definition handleTrackSubscribed (track : Track) (publication : Publication)
    (participant : Participant) : M unit :=
  if isAudio (kind track) then
    recordTrackStats track publication participant ;;
    setupAudioElement track publication participant ;;
    setupAudioCaptureIfEnabled track participant
  else ret tt.

(** [handleLocalTrackPublished] *)
Definition handleLocalTrackPublished (track : Track)
    (publication : Publication) (participant : Participant) : M unit :=
  if isAudio (kind track) then
    recordTrackStats track publication participant ;;
    setupAudioCaptureIfEnabled track participant
  else ret tt.

(** Removal of an element from its parent, errors ignored. *)
Definition removeFromDOM (el : nat) : M unit :=
  e <- gets (findElement el) ;;
  match e with
  | Some x =>
      when (elInDom x)
           (updateElement el (with_elInDom false) ;; effect (DomRemoved el))
  | None => ret tt
  end.

(** [#detachTrackElements] *)
Definition detachTrackElements (track : Track) : M unit :=
  els <- detach track ;;
  forEach els (fun el =>
    removeFromDOM el ;;
    modify (fun s => with_audioElements (set_delete el (audioElements s)) s)).

(** [#cleanupTrackMetadata] *)
Definition cleanupTrackMetadata (track : Track) : M unit :=
  modify (fun s =>
    with_trackStats (JsMap.delete (trackKey track) (trackStats s)) s).

(** [handleTrackUnsubscribed] *)
Definition handleTrackUnsubscribed (track : Track) (publication : Publication)
    (participant : Participant) : M unit :=
  if negb (isAudio (kind track)) then ret tt
  else
    cleanupTrackMetadata track ;;
    when (hasDetach track) (detachTrackElements track) ;;
    emit EvTrackUnsubscribed
         (PUnsubscribed (trackKey track)
                        (str_or (identity participant) "unknown")).

(** [handleLocalTrackUnsubscribed] *)
Definition handleLocalTrackUnsubscribed (track : Track)
    (publication : Publication) (participant : Participant) : M unit :=
  handleTrackUnsubscribed track publication participant.

(** [getTrackStats] *)
Definition getTrackStats : M TrackStatsResult :=
  gets (fun s =>
    {| totalTracks := JsMap.size (trackStats s);
       activeTracks := JsMap.size (trackStats s);
       audioElementCount := List.length (audioElements s);
       trackDetails := JsMap.entries (trackStats s) |}).

(** *** Teardown *)

(** [cleanup] *)
Definition cleanup : M unit :=
  cleanupAudioCapture ;;
  els <- gets audioElements ;;
  forEach els removeFromDOM ;;
  modify (with_audioElements []) ;;
  modify (with_trackStats JsMap.empty).

(** [on(ev, l)]: one more listener for [ev], after those registered. *)
Definition sameEvent (a b : EventName) : bool :=
  match a, b with
  | EvTrackSubscribed, EvTrackSubscribed
  | EvTrackUnsubscribed, EvTrackUnsubscribed
  | EvVolumeChanged, EvVolumeChanged
  | EvSpeaking, EvSpeaking
  | EvListening, EvListening
  | EvMicMuted, EvMicMuted
  | EvMicUnmuted, EvMicUnmuted
  | EvError, EvError => true
  | _, _ => false
  end.

Definition on (ev : EventName) (l : Listener) : M unit :=
  modify (fun s =>
    with_listeners
      (fun ev' => if sameEvent ev ev' then (listeners s ev' ++ [l])%list
                  else listeners s ev') s).

(** ** The calls a client and the environment can make *)

Inductive Call : Type :=
| CallSetRoom (r : option Room)
| CallSetVolume (v : number)
| CallGetInputVolume
| CallSubscribed (t : Track) (pub : Publication) (p : Participant)
| CallLocalPublished (t : Track) (pub : Publication) (p : Participant)
| CallUnsubscribed (t : Track) (pub : Publication) (p : Participant)
| CallEnableCapture (o : AudioCaptureOptions)
| CallDisableCapture
| CallCleanup
| CallDispatch (el : nat) (ev : MediaEvent)
| CallRunPending
| CallOn (ev : EventName) (l : Listener)
| CallTick (t : Z).

Definition perform (c : Call) : M unit :=
  match c with
  | CallSetRoom r => setRoom r
  | CallSetVolume v => setVolume v
  | CallGetInputVolume => getInputVolume ;; ret tt
  | CallSubscribed t pub p => handleTrackSubscribed t pub p
  | CallLocalPublished t pub p => handleLocalTrackPublished t pub p
  | CallUnsubscribed t pub p => handleTrackUnsubscribed t pub p
  | CallEnableCapture o => enableAudioCapture o
  | CallDisableCapture => disableAudioCapture
  | CallCleanup => cleanup
  | CallDispatch el ev => dispatch el ev
  | CallRunPending => runPending
  | CallOn ev l => on ev l
  | CallTick t => modify (with_now t)
  end.

(** A sequence of calls, each made whatever the previous one returned or
    threw. *)
Definition performAll (cs : list Call) (s : State) : State :=
  fold_left (fun st c => post (perform c) st) cs s.

(* ================================================================== *)
(** ** The specification's own formulas *)
(* ================================================================== *)

(** [clamp(s, lo, hi)] *)
Definition clampQ (lo hi s : Q) : Q :=
  if Qle_bool s lo then lo else if Qle_bool hi s then hi else s.

(** [round]: to the nearest integer, halves upwards as [Math.round]. *)
Definition roundQ (q : Q) : Z := Qfloor (q + (1 # 2)).

(** "output == round(clamp(s,-1,1) × 32767)" *)
Definition float32ToInt16_spec (s : Q) : Z :=
  roundQ (clampQ (-1 # 1) (1 # 1) s * INT16_SCALE).

(** The formula as amended: [clamp(s,-1,1) × 32767] truncated towards
    zero, where the clamp of an infinite sample is the bound on its side,
    and 0 for a [NaN] sample. *)
Definition float32ToInt16_amended (s : number) : Z :=
  match s with
  | Fin q => Qtrunc (clampQ (-1 # 1) (1 # 1) q * INT16_SCALE)
  | PosInf => Qtrunc ((1 # 1) * INT16_SCALE)
  | NegInf => Qtrunc ((-1 # 1) * INT16_SCALE)
  | NaN => 0
  end.

(** "given or default": the given value when the field is present. *)
Definition givenOr {A : Type} (given : option A) (default : A) : A :=
  match given with
  | Some x => x
  | None => default
  end.

(** The stored options as the specification lists them. *)
Definition normalized_spec (options : AudioCaptureOptions) (cb : Callback)
  : AudioCaptureOptions :=
  {| source := Some (givenOr (source options) SrcAgent);
     trackSourceFilter :=
       Some (givenOr (trackSourceFilter options) FilterMicrophone);
     format := Some (givenOr (format options) OpusWebm);
     chunkSize := Some (givenOr (chunkSize options) (Fin (100 # 1)));
     bufferSize := Some (givenOr (bufferSize options) (Fin (2048 # 1)));
     callback := Some cb;
     onData := None |}.

(** "average(frequency-bin byte values) / 255" *)
Definition averageLevel (bins : list Byte.byte) : Q :=
  (inject_Z (byteSum bins) / inject_Z (Z.of_nat (List.length bins)))
  / inject_Z 255.

(** Whether an audio context exists or can be built. *)
Definition contextAvailable (s : State) : bool :=
  match audioContext s with
  | Some _ => true
  | None =>
      hasAudioContextCtor (platform s)
      && (ctx16kOk (platform s) || ctxDefaultOk (platform s))
  end.

(** The media track of the microphone, as the room's getter gives it. *)
Definition microphoneSource (s : State) : option string :=
  match room s with
  | Some rm =>
      match localParticipant rm with
      | Some lp =>
          match getTrackPublication lp with
          | Some (GetterReturns p) => publicationMediaTrack p
          | Some (GetterThrowsThenReturns p) => publicationMediaTrack p
          | _ => None
          end
      | None => None
      end
  | None => None
  end.

(** The analysis tap of the input level: the one created earlier, else the
    one the browser makes for the microphone. *)
Definition inputTap (s : State) : option Analyser :=
  match inputAnalyser s with
  | Some a => Some a
  | None =>
      if contextAvailable s then
        match microphoneSource s with
        | Some _ => micAnalyser (platform s)
        | None => None
        end
      else None
  end.

(** The frequency bins read from a tap. *)
Definition binsOf (a : Analyser) : option (list Byte.byte) :=
  option_map (fillBytes (frequencyBinCount a)) (byteFrequencyData a).

(* ================================================================== *)
(** ** Views of the state, invariants *)
(* ================================================================== *)

(** Number of clones made for a stream in a trace. *)
Definition clonesOf (trackId : string) (tr : list Effect) : nat :=
  List.length
    (filter (fun e =>
               match e with
               | ClonedTrack t _ => String.eqb t trackId
               | _ => false
               end) tr).

(** Effects that create a capture resource. *)
Definition createsResource (e : Effect) : bool :=
  match e with
  | ClonedTrack _ _ | RecorderCreated _ _ | NodeCreated _ _ _ | ModuleAdded
  | ContextCreated _ => true
  | _ => false
  end.

Definition emissions (ev : EventName) (tr : list Effect) : nat :=
  List.length
    (filter (fun e =>
               match e with
               | Emitted ev' _ => sameEvent ev ev'
               | _ => false
               end) tr).

(** The variables of the listeners installed on an element, if the element
    exists: one per installation. *)
Definition speaking (el : nat) (s : State) : option (list bool) :=
  option_map elMonitors (findElement el s).

(** The elements of a heap after the loop of [setVolume] over [ids]. *)
Definition applyVolume (ids : list nat) (vol : number)
    (h : list AudioElement) : list AudioElement :=
  fold_left
    (fun acc id =>
       map (fun e => if Nat.eqb (elId e) id then with_elVolume vol e else e)
           acc)
    ids h.

(** What the capture pipeline owns, and the resources created so far. *)
Record CaptureView : Type := {
  vSessions : JsMap.t CaptureState;
  vClones : JsMap.t nat;
  vRecorders : JsMap.t MediaRecorder;
  vProcessors : JsMap.t AudioNode;
  vSourceNodes : JsMap.t AudioNode;
  vPending : list WorkletTask;
  vWorkletReady : option WorkletRegistration;
  vContext : option AudioCtx;
  vCreated : list Effect
}.

Definition captureView (s : State) : CaptureView :=
  {| vSessions := trackCaptureMap s;
     vClones := clonedTracks s;
     vRecorders := recorders s;
     vProcessors := processors s;
     vSourceNodes := sourceNodes s;
     vPending := pending s;
     vWorkletReady := workletReady s;
     vContext := audioContext s;
     vCreated := filter createsResource (trace s) |}.

(** The session and the clones of one stream, with what decides whether a
    set-up for it runs. *)
Record StreamView : Type := {
  svSession : option CaptureState;
  svClones : nat;
  svOptions : option AudioCaptureOptions;
  svEnabled : bool
}.

Definition streamView (trackId : string) (s : State) : StreamView :=
  {| svSession := JsMap.get trackId (trackCaptureMap s);
     svClones := clonesOf trackId (trace s);
     svOptions := audioCaptureOptions s;
     svEnabled := audioCaptureEnabled s |}.

(** What a first set-up for a stream writes and what the second reads. *)
Definition sessionView (trackId : string) (s : State) :=
  (trackCaptureMap s, clonedTracks s, clonesOf trackId (trace s), room s,
   audioCaptureOptions s).

(** The capture resources together with what arms the capture. *)
Definition armingView (s : State) :=
  (captureView s, audioCaptureOptions s, audioCaptureEnabled s).


(** The states a manager can be in: a new manager, then any calls. *)
Inductive reachable : State -> Prop :=
| reachable_new (p : Platform) (ls : EventName -> list Listener) (t : Z) :
    reachable (initial p ls t)
| reachable_call (c : Call) (s : State) :
    reachable s -> reachable (post (perform c) s).


(** [maintains I m]: the invariant [I] holds after [m] when it held
    before. *)
Definition maintains {X : Type} (I : State -> Prop) (m : M X) : Prop :=
  forall s, I s -> I (post m s).

(** An ['error'] listener is registered and none of them throws. *)
Definition errorsHandled (s : State) : Prop :=
  listeners s EvError <> []
  /\ forall l, In l (listeners s EvError) -> l = Returns.

(** [returnsOk m]: while errors are handled, [m] returns. *)
Definition returnsOk {X : Type} (m : M X) : Prop :=
  forall s, errorsHandled s ->
            exists x s', m s = (Ok x, s') /\ errorsHandled s'.

(** [keeps v P m]: the view [v] of the state is left as it was by [m],
    from every state whose view satisfies [P]. *)
Definition keeps {V X : Type} (v : State -> V) (P : V -> Prop) (m : M X)
  : Prop :=
  forall s, P (v s) -> v (post m s) = v s.

(* ================================================================== *)
(** ** A concrete environment, used in the examples *)
(* ================================================================== *)

Definition demoPlatform : Platform :=
  {| hasAudioContextCtor := true; ctx16kOk := true; ctxDefaultOk := true;
     ctxStartsSuspended := false; ctxOffersWorklet := true;
     micAnalyser :=
       Some {| frequencyBinCount := 4;
               byteFrequencyData :=
                 Some [Byte.xff; Byte.x00; Byte.x80; Byte.x7f] |};
     hasMediaRecorder := true; supportedMimeTypes := ["audio/webm"];
     recorderFailure := None; workletModuleOk := true;
     workletNodeFailure := None; sourceNodeFailure := None;
     scriptProcessorFailure := None; domAppendOk := true |}.

Definition noListeners : EventName -> list Listener := fun _ => [].

Definition demoTrack (obj : nat) (id : string) : Track :=
  {| trackObj := obj; sid := Some id; mediaStreamTrackId := Some ("ms-" ++ id);
     kind := KAudio; tsource := Microphone; attachYields := true;
     hasDetach := true |}.

Definition demoPublication (t : Track) : Publication :=
  {| pubSource := Microphone; isMuted := false; isEnabled := true;
     dimensions := None; simulcasted := false; pubTrack := Some t |}.

Definition agentTrack : Track := demoTrack 1 "TR_agent".
Definition userTrack : Track := demoTrack 2 "TR_user".
Definition agentParticipant : Participant := {| identity := "voice-Agent-7" |}.
Definition userParticipant : Participant := {| identity := "alice" |}.

Definition demoRoom : Room :=
  {| remoteParticipants := [[demoPublication agentTrack]];
     localParticipant :=
       Some {| lpPublications := [demoPublication userTrack];
               getTrackPublication :=
                 Some (GetterReturns (Some (demoPublication userTrack))) |} |}.

Definition demoState : State :=
  with_room (Some demoRoom) (initial demoPlatform noListeners 1000).

Definition demoOptions : AudioCaptureOptions :=
  {| source := Some SrcAgent; trackSourceFilter := None; format := None;
     chunkSize := None; bufferSize := None;
     callback := Some {| cbId := 1 |}; onData := None |}.

(** The manager of the examples once the agent's track is subscribed, and
    the element that subscription created. *)
Definition subscribedState : State :=
  post (handleTrackSubscribed agentTrack (demoPublication agentTrack)
                              agentParticipant) demoState.

Definition demoElement : AudioElement :=
  {| elId := 0; elTrack := 1; elAttached := true; elVolume := Fin 1;
     elAutoplay := true; elMonitors := [false]; elHidden := true;
     elInDom := true |}.

(** The manager of the examples with capture armed for the agent before
    any stream is registered, and the options it then stores. *)
Definition armedState : State := post (enableAudioCapture demoOptions) demoState.

Definition armedOptions : AudioCaptureOptions :=
  {| source := Some SrcAgent; trackSourceFilter := Some FilterMicrophone;
     format := Some OpusWebm; chunkSize := Some (Fin (100 # 1));
     bufferSize := Some (Fin (2048 # 1));
     callback := Some {| cbId := 1 |}; onData := None |}.

(** The manager of the examples after a first reading of the input level,
    once the room is taken away. *)
Definition cachedTapState : State :=
  performAll [CallSetRoom (Some demoRoom); CallGetInputVolume;
              CallSetRoom None]
             (initial demoPlatform noListeners 1000).

(** Options that give the delivery function and a chunk size of 0. *)
Definition zeroChunkOptions : AudioCaptureOptions :=
  {| source := None; trackSourceFilter := None; format := None;
     chunkSize := Some (Fin 0); bufferSize := None;
     callback := None; onData := Some {| cbId := 2 |} |}.

(** Listeners of which the one for ['volumeChanged'] throws, and none is
    registered for ['error']. *)
Definition throwingVolumeListener : EventName -> list Listener :=
  fun ev =>
    match ev with
    | EvVolumeChanged => [Throws "slider update failed"]
    | _ => []
    end.

Definition unguardedState : State :=
  with_room (Some demoRoom) (initial demoPlatform throwingVolumeListener 1000).

(** A browser without Web Audio, a manager in it with the agent's track
    subscribed and no listener registered, and PCM capture options that
    carry a delivery function. *)
Definition noWebAudioPlatform : Platform :=
  {| hasAudioContextCtor := false; ctx16kOk := false; ctxDefaultOk := false;
     ctxStartsSuspended := false; ctxOffersWorklet := false;
     micAnalyser := None;
     hasMediaRecorder := true; supportedMimeTypes := ["audio/webm"];
     recorderFailure := None; workletModuleOk := false;
     workletNodeFailure := None; sourceNodeFailure := None;
     scriptProcessorFailure := None; domAppendOk := true |}.

Definition noWebAudioState : State :=
  post (handleTrackSubscribed agentTrack (demoPublication agentTrack)
                              agentParticipant)
       (with_room (Some demoRoom) (initial noWebAudioPlatform noListeners 1000)).

(** The same manager in a browser without [MediaRecorder]. *)
Definition noRecorderPlatform : Platform :=
  {| hasAudioContextCtor := true; ctx16kOk := true; ctxDefaultOk := true;
     ctxStartsSuspended := false; ctxOffersWorklet := true;
     micAnalyser := None;
     hasMediaRecorder := false; supportedMimeTypes := [];
     recorderFailure := None; workletModuleOk := true;
     workletNodeFailure := None; sourceNodeFailure := None;
     scriptProcessorFailure := None; domAppendOk := true |}.

Definition noRecorderState : State :=
  post (handleTrackSubscribed agentTrack (demoPublication agentTrack)
                              agentParticipant)
       (with_room (Some demoRoom) (initial noRecorderPlatform noListeners 1000)).

Definition pcmOptions : AudioCaptureOptions :=
  {| source := Some SrcAgent; trackSourceFilter := None;
     format := Some PcmF32; chunkSize := None; bufferSize := None;
     callback := Some {| cbId := 3 |}; onData := None |}.

(* ================================================================== *)
(** ** The rest of the class *)
(* ================================================================== *)

Definition with_outputAnalyser (v : option Analyser) (s : State) : State :=
  {| audioElements := audioElements s; trackStats := trackStats s; volume :=
     volume s; room := room s; audioContext := audioContext s; inputAnalyser
     := inputAnalyser s; outputAnalyser := v; audioCaptureEnabled :=
     audioCaptureEnabled s; audioCaptureOptions := audioCaptureOptions s;
     recorders := recorders s; processors := processors s; sourceNodes :=
     sourceNodes s; clonedTracks := clonedTracks s; trackCaptureMap :=
     trackCaptureMap s; workletReady := workletReady s; platform := platform
     s; listeners := listeners s; heap := heap s; now := now s; nextObj :=
     nextObj s; pending := pending s; trace := trace s |}.

(** *** Microphone control *)

(** What [localParticipant.setMicrophoneEnabled(enable)] does when it is
    called: it throws, it returns something that is no promise, or it
    returns a promise that is fulfilled or rejected later. *)
Inductive MicReply : Type :=
| MicThrows (msg : string)
| MicReturns
| MicFulfils
| MicRejects (msg : string).

(** [#emitMicControlError] *)
Definition emitMicControlError (muted : bool) (error : Exn) : M unit :=
  n <- listenerCount EvError ;;
  when (Nat.ltb 0 n)
    (emit EvError
       (PError ("Failed to " ++ (if muted then "mute" else "unmute")
                ++ " microphone: " ++ message error))).

(** [setMicMuted], up to its return.  [setMicrophoneEnabled] is the method
    of the room's local participant; on the promise path the two reactions
    are registered and the call returns. *)
Definition setMicMuted (setMicrophoneEnabled : bool -> MicReply)
    (muted : bool) : M unit :=
  try_catch
    (r <- gets room ;;
     match match r with Some rm => localParticipant rm | None => None end with
     | Some _ =>
         let enable := negb muted in
         match setMicrophoneEnabled enable with
         | MicThrows msg => throw (JsError msg)
         | MicFulfils | MicRejects _ => ret tt
         | MicReturns =>
             emitMicEventSafely (if muted then EvMicMuted else EvMicUnmuted)
                                muted
         end
     | None =>
         emitMicEventSafely (if muted then EvMicMuted else EvMicUnmuted) muted
     end)
    (fun error => emitMicControlError muted error).

(** The reactions registered by [setMicMuted] on the promise, run when it
    settles: [.then(...)] for a fulfilment, [.catch(...)] for a rejection
    and for what the first reaction throws.  What leaves this job is an
    unhandled rejection; it reaches no caller. *)
Definition micPromiseSettled (muted : bool) (reply : MicReply) : M unit :=
  match reply with
  | MicFulfils =>
      try_catch
        (emitMicEventSafely (if muted then EvMicMuted else EvMicUnmuted) muted)
        (fun error => emitMicControlError muted error)
  | MicRejects msg => emitMicControlError muted (JsError msg)
  | MicThrows _ | MicReturns => ret tt
  end.

(** [isMicMuted] *)
Definition isMicMuted : M bool :=
  try_catch
    (publication <- lookupMicPublication ;;
     match publication with
     | Some pub => ret (isMuted pub)
     | None => ret false
     end)
    (fun _ => ret false).

(** *** Frequency data *)

(** [getInputByteFrequencyData] *)
Definition getInputByteFrequencyData : M (list Byte.byte) :=
  try_catch
    (a0 <- gets inputAnalyser ;;
     when (isNone a0) initializeInputAnalyser ;;
     a <- gets inputAnalyser ;;
     match a with
     | None => ret []
     | Some analyser =>
         let binCount := frequencyBinCount analyser in
         match byteFrequencyData analyser with
         | None => throw (JsError "getByteFrequencyData failed")
         | Some data => ret (fillBytes binCount data)
         end
     end)
    (fun _ => ret []).

(** [#initializeOutputAnalyser].  [elementAnalyser el] is what the browser
    answers to [createMediaElementSource(el)] followed by [createAnalyser()]
    and [connect]: the analyser, or nothing when one of them throws. *)
Definition initializeOutputAnalyser (elementAnalyser : nat -> option Analyser)
  : M unit :=
  try_catch
    (ensureAudioContext ;;
     ctx <- gets audioContext ;;
     match ctx with
     | None => ret tt
     | Some _ =>
         els <- gets audioElements ;;
         match els with
         | [] => ret tt
         | first :: _ =>
             match elementAnalyser first with
             | None => throw (JsError "createMediaElementSource failed")
             | Some analyser => modify (with_outputAnalyser (Some analyser))
             end
         end
     end)
    (fun _ => modify (with_outputAnalyser None)).

(** [getOutputByteFrequencyData] *)
Definition getOutputByteFrequencyData
    (elementAnalyser : nat -> option Analyser) : M (list Byte.byte) :=
  try_catch
    (a0 <- gets outputAnalyser ;;
     when (isNone a0) (initializeOutputAnalyser elementAnalyser) ;;
     a <- gets outputAnalyser ;;
     match a with
     | None => ret []
     | Some analyser =>
         let binCount := frequencyBinCount analyser in
         match byteFrequencyData analyser with
         | None => throw (JsError "getByteFrequencyData failed")
         | Some data => ret (fillBytes binCount data)
         end
     end)
    (fun _ => ret []).

(** *** The worklet processor [PCMProcessor]

    The class registered by [#setupAudioWorkletCapture] in the audio
    worklet: it collects the samples of the first channel in a buffer of
    [bufferSize] samples and posts the buffer each time it is full. *)
Record PCMProcessor : Type := {
  ppBufferSize : Q;
  ppBuffer : list number;
  ppIndex : nat
}.

(** [new Float32Array(length)]: the length is truncated to an integer
    ([ToIndex]); a negative length, a length above 2^53 - 1 or one that
    is not finite is a [RangeError], and so is a length that the engine
    cannot allocate, which [allocates] decides. *)
Definition newFloat32Array (allocates : Z -> bool) (length : number)
  : option (list number) :=
  match length with
  | Fin q =>
      let n := Qtrunc q in
      if Z.ltb n 0 || Z.ltb (2 ^ 53 - 1) n || negb (allocates n) then None
      else Some (repeat (Fin 0) (Z.to_nat n))
  | NaN => Some []
  | PosInf | NegInf => None
  end.

(** The constructor: a size of 0 or [NaN] is replaced by the default one,
    and the processor is not built when the array cannot be. *)
Definition newPCMProcessor (allocates : Z -> bool) (bufferSize : number)
  : option PCMProcessor :=
  let size := opt_num_or (Some bufferSize) DEFAULT_PCM_BUFFER_SIZE in
  match size, newFloat32Array allocates size with
  | Fin q, Some buffer =>
      Some {| ppBufferSize := q; ppBuffer := buffer; ppIndex := 0 |}
  | _, _ => None
  end.

(** [array.slice(0, end)] *)
Definition slice0 {A : Type} (stop : Q) (l : list A) : list A :=
  let len := Z.of_nat (List.length l) in
  let relativeEnd := Qtrunc stop in
  let final := if Z.ltb relativeEnd 0 then Z.max (len + relativeEnd) 0
               else Z.min relativeEnd len in
  firstn (Z.to_nat final) l.

(** One turn of the loop of [process]: the sample is stored at [index],
    [index] is incremented, and once it has reached [bufferSize] the
    buffer is copied and posted. *)
Definition processSample (st : PCMProcessor * list (list number))
    (x : number) : PCMProcessor * list (list number) :=
  let '(p, posted) := st in
  let buffer := store (ppIndex p) x (ppBuffer p) in
  let index := S (ppIndex p) in
  if Qle_bool (ppBufferSize p) (inject_Z (Z.of_nat index)) then
    let bufferToSend := slice0 (ppBufferSize p) buffer in
    ({| ppBufferSize := ppBufferSize p; ppBuffer := buffer; ppIndex := 0 |},
     (posted ++ [bufferToSend])%list)
  else
    ({| ppBufferSize := ppBufferSize p; ppBuffer := buffer;
        ppIndex := index |},
     posted).

(** [process(inputs)]: what it returns, the processor afterwards and the
    messages posted, oldest first.  [inputs] lists the inputs, an input
    lists its channels; the samples of a channel are binary32 values, which
    the buffer stores as they are. *)
Definition process (inputs : list (list (list number))) (p : PCMProcessor)
  : bool * PCMProcessor * list (list number) :=
  match inputs with
  | [] => (true, p, [])
  | input :: _ =>
      match input with
      | [] => (true, p, [])
      | channelData :: _ =>
          let '(p', posted) := fold_left processSample channelData (p, []) in
          (true, p', posted)
      end
  end.

(** The processor fed with successive blocks of one channel, and all the
    messages it posted. *)
Fixpoint feed (blocks : list (list number)) (p : PCMProcessor)
  : PCMProcessor * list (list number) :=
  match blocks with
  | [] => (p, [])
  | b :: rest =>
      let '(_, p1, posted1) := process [[b]] p in
      let '(p2, posted2) := feed rest p1 in
      (p2, (posted1 ++ posted2)%list)
  end.

(** *** The handlers of the two PCM strategies *)

Record AudioCaptureMetadata : Type := {
  mdParticipant : string;
  mdSource : Role;
  mdTimestamp : Z;
  mdTrackId : string;
  mdTrackSource : string;
  mdFormat : AudioCaptureFormat;
  mdSampleRate : option Z;
  mdChannels : Z
}.

(** What calling the delivery function does: it returns or throws. *)
Inductive CallbackReply : Type :=
| CallbackReturns
| CallbackThrows (msg : string).

Definition callCallback (r : CallbackReply) : M unit :=
  match r with
  | CallbackReturns => ret tt
  | CallbackThrows msg => throw (JsError msg)
  end.

(** [workletNode.port.onmessage]: the result is what the delivery function
    was called with. *)
Definition onWorkletMessage (o : PcmOptions) (reply : CallbackReply)
    (audioData : list number) : M (PcmBuffer * AudioCaptureMetadata) :=
  let outputData := pcmOutput (poFormat o) audioData in
  t <- gets now ;;
  let metadata :=
    {| mdParticipant := poParticipant o; mdSource := poSource o;
       mdTimestamp := t; mdTrackId := poTrackId o;
       mdTrackSource := poTrackSource o; mdFormat := poFormat o;
       mdSampleRate := ctxSampleRate (poContext o); mdChannels := 1 |} in
  try_catch
    (callCallback reply)
    (fun _ => log ("Callback error for " ++ roleString (poSource o) ++ ":")) ;;
  ret (outputData, metadata).

(** [processor.onaudioprocess], for an input buffer with the given sample
    rate and number of channels whose first channel holds [audioData]. *)
Definition onAudioProcess (o : PcmOptions) (reply : CallbackReply)
    (sampleRate : Z) (numberOfChannels : Z) (audioData : list number)
  : M (PcmBuffer * AudioCaptureMetadata) :=
  let outputData := pcmOutput (poFormat o) audioData in
  t <- gets now ;;
  let metadata :=
    {| mdParticipant := poParticipant o; mdSource := poSource o;
       mdTimestamp := t; mdTrackId := poTrackId o;
       mdTrackSource := poTrackSource o; mdFormat := poFormat o;
       mdSampleRate := Some sampleRate; mdChannels := numberOfChannels |} in
  callCallback reply ;;
  ret (outputData, metadata).

(** ** Every entry point of the class *)

(** The calls of [Call] together with the methods above and the two pure
    getters. *)
Inductive Request : Type :=
| ReqCall (c : Call)
| ReqSetMicMuted (setMicrophoneEnabled : bool -> MicReply) (muted : bool)
| ReqMicPromiseSettled (muted : bool) (reply : MicReply)
| ReqIsMicMuted
| ReqGetOutputVolume
| ReqGetInputByteFrequencyData
| ReqGetOutputByteFrequencyData (elementAnalyser : nat -> option Analyser)
| ReqLocalUnsubscribed (t : Track) (pub : Publication) (p : Participant)
| ReqGetTrackStats.

Definition serve (r : Request) : M unit :=
  match r with
  | ReqCall c => perform c
  | ReqSetMicMuted api muted => setMicMuted api muted
  | ReqMicPromiseSettled muted reply => micPromiseSettled muted reply
  | ReqIsMicMuted => isMicMuted ;; ret tt
  | ReqGetOutputVolume => getOutputVolume ;; ret tt
  | ReqGetInputByteFrequencyData => getInputByteFrequencyData ;; ret tt
  | ReqGetOutputByteFrequencyData f => getOutputByteFrequencyData f ;; ret tt
  | ReqLocalUnsubscribed t pub p => handleLocalTrackUnsubscribed t pub p
  | ReqGetTrackStats => getTrackStats ;; ret tt
  end.

Definition serveAll (rs : list Request) (s : State) : State :=
  fold_left (fun st r => post (serve r) st) rs s.

(** The states of a manager after any requests, each made whatever the
    previous one returned or threw. *)
Inductive attainable : State -> Prop :=
| attainable_new (p : Platform) (ls : EventName -> list Listener) (t : Z) :
    attainable (initial p ls t)
| attainable_serve (r : Request) (s : State) :
    attainable s -> attainable (post (serve r) s).

(** ** Invariants and views of the added code *)

(** The samples collected by a processor and not yet posted. *)
Definition pendingSamples (p : PCMProcessor) : list number :=
  firstn (ppIndex p) (ppBuffer p).

(** The announced size is the length of the buffer, a whole number that
    is not 0, and the next sample is stored inside the buffer. *)
Definition wfProcessor (p : PCMProcessor) : Prop :=
  (ppBufferSize p == inject_Z (Z.of_nat (List.length (ppBuffer p))))%Q
  /\ (ppIndex p < List.length (ppBuffer p))%nat.



(** No ['error'] listener throws (there may be none). *)
Definition quietErrors (s : State) : Prop :=
  forall l, In l (listeners s EvError) -> l = Returns.

(** Whether [setMicMuted] finds a local participant to control. *)
Definition hasLocalParticipant (s : State) : bool :=
  match room s with
  | Some rm =>
      match localParticipant rm with Some _ => true | None => false end
  | None => false
  end.

(** The microphone publication, as the room's getter gives it at the first
    call or at the retry. *)
Definition micPublication (s : State) : option Publication :=
  match room s with
  | Some rm =>
      match localParticipant rm with
      | Some lp =>
          match getTrackPublication lp with
          | Some (GetterReturns p) => p
          | Some (GetterThrowsThenReturns p) => p
          | _ => None
          end
      | None => None
      end
  | None => None
  end.

(** All the publications of the room, those of the remote participants
    first. *)
Definition roomPublications (s : State) : list Publication :=
  match room s with
  | Some rm =>
      (List.concat (remoteParticipants rm)
       ++ match localParticipant rm with
          | Some lp => lpPublications lp
          | None => []
          end)%list
  | None => []
  end.

(** A track carries the id, as its [sid] or as the id of its media track. *)
Definition carriesId (trackId : string) (t : Track) : Prop :=
  sid t = Some trackId \/ mediaStreamTrackId t = Some trackId.

(** An emitted ['error'] event. *)
Definition isErrorReport (e : Effect) : bool :=
  match e with
  | Emitted EvError _ => true
  | _ => false
  end.

(** A manager without room whose ['micMuted'] listener throws, no
    ['error'] listener being registered. *)
Definition throwingMicListener : EventName -> list Listener :=
  fun ev =>
    match ev with
    | EvMicMuted => [Throws "indicator update failed"]
    | _ => []
    end.

Definition micState : State := initial demoPlatform throwingMicListener 1000.

(** A [setMicrophoneEnabled] that returns a promise which is fulfilled. *)
Definition promisingMic : bool -> MicReply := fun _ => MicFulfils.

(** The analysis tap of the output: the one created earlier, else the one
    the browser makes for the first tracked element. *)
Definition outputTap (elementAnalyser : nat -> option Analyser) (s : State)
  : option Analyser :=
  match outputAnalyser s with
  | Some a => Some a
  | None =>
      if contextAvailable s then
        match audioElements s with
        | first :: _ => elementAnalyser first
        | [] => None
        end
      else None
  end.

(** The bytes a frequency-data getter hands back for a tap. *)
Definition tapBytes (tap : option Analyser) : list Byte.byte :=
  match tap with
  | Some a =>
      match binsOf a with
      | Some bins => bins
      | None => []
      end
  | None => []
  end.

(** Whether the browser's [MediaRecorder] supports a type. *)
Definition typeSupported (s : State) (ty : string) : bool :=
  existsb (String.eqb ty) (supportedMimeTypes (platform s)).

(** What [#cleanupAudioCapture] does to the resources a state holds, in
    the order of the code: recorders stopped, processors and source nodes
    disconnected, clones stopped, the context closed unless it is closed
    already. *)
Definition releaseEffects (s : State) : list Effect :=
  (map (fun r => RecorderStopped (recId r)) (JsMap.values (recorders s))
   ++ map (fun n => NodeDisconnected (nodeId n)) (JsMap.values (processors s))
   ++ map (fun n => NodeDisconnected (nodeId n)) (JsMap.values (sourceNodes s))
   ++ map CloneStopped (JsMap.values (clonedTracks s))
   ++ match audioContext s with
      | Some c =>
          match ctxState c with
          | Closed => []
          | _ => [ContextClosed (ctxId c)]
          end
      | None => []
      end)%list.

(** The capture side of a manager on which capture is off. *)
Definition captureOff (s : State) : Prop :=
  audioCaptureEnabled s = false
  /\ audioCaptureOptions s = None
  /\ recorders s = []
  /\ processors s = []
  /\ sourceNodes s = []
  /\ clonedTracks s = []
  /\ trackCaptureMap s = []
  /\ audioContext s = None
  /\ workletReady s = None.

(** Effects that release a capture resource. *)
Definition releasesResource (e : Effect) : bool :=
  match e with
  | RecorderStopped _ | NodeDisconnected _ | CloneStopped _
  | ContextClosed _ => true
  | _ => false
  end.

(** The capture resources, what arms the capture, and the resources
    released so far. *)
Definition captureLedger (s : State) :=
  (captureView s, audioCaptureOptions s, audioCaptureEnabled s,
   filter releasesResource (trace s)).

(** A track without [sid] and without media track id. *)
Definition anonymous (t : Track) : Prop :=
  (sid t = None \/ sid t = Some "")
  /\ (mediaStreamTrackId t = None \/ mediaStreamTrackId t = Some "").

(** Two audio tracks that carry no id and their publications. *)
Definition anonymousTrack (obj : nat) : Track :=
  {| trackObj := obj; sid := None; mediaStreamTrackId := None;
     kind := KAudio; tsource := Microphone; attachYields := true;
     hasDetach := true |}.

(** Registrations of the worklet module in a trace. *)
Definition isModuleAdded (e : Effect) : bool :=
  match e with
  | ModuleAdded => true
  | _ => false
  end.

Definition moduleAdds (tr : list Effect) : nat :=
  List.length (filter isModuleAdded tr).

(** At least [lo] registrations were started, and at most [hi] will have
    been once a missing registration is started. *)
Definition registersWithin (lo hi : nat) (s : State) : Prop :=
  (lo <= moduleAdds (trace s))%nat
  /\ (moduleAdds (trace s) + (if isNone (workletReady s) then 1 else 0)
      <= hi)%nat.

(** Audio contexts created and closed in a trace. *)
Definition isContextCreated (e : Effect) : bool :=
  match e with
  | ContextCreated _ => true
  | _ => false
  end.

Definition isContextClosed (e : Effect) : bool :=
  match e with
  | ContextClosed _ => true
  | _ => false
  end.

Definition contextsOpened (tr : list Effect) : nat :=
  List.length (filter isContextCreated tr).

Definition contextsClosed (tr : list Effect) : nat :=
  List.length (filter isContextClosed tr).

(** Every context created was closed, except the one the manager holds,
    which is not closed. *)
Definition contextBalanced (s : State) : Prop :=
  contextsOpened (trace s)
  = (contextsClosed (trace s) + if isNone (audioContext s) then 0 else 1)%nat
  /\ forall c, audioContext s = Some c -> ctxState c <> Closed.

(** A manager of the examples that read both levels, captured the agent's
    stream as PCM and was then torn down. *)
Definition tornDownState : State :=
  serveAll
    [ReqCall (CallSetRoom (Some demoRoom));
     ReqCall (CallSubscribed agentTrack (demoPublication agentTrack)
                             agentParticipant);
     ReqCall CallGetInputVolume;
     ReqCall (CallEnableCapture pcmOptions);
     ReqCall CallRunPending;
     ReqCall CallDisableCapture;
     ReqGetInputByteFrequencyData;
     ReqGetOutputByteFrequencyData (fun _ => None);
     ReqCall CallCleanup]
    (initial demoPlatform noListeners 1000).

(** The stored volume is a number within [0,1], the tracked elements were
    created by the manager, and every tracked element plays at the stored
    volume. *)
Definition volumeApplied (s : State) : Prop :=
  (exists q, volume s = Fin q /\ (0 <= q)%Q /\ (q <= 1)%Q)
  /\ (forall id, In id (audioElements s) -> (id < nextObj s)%nat)
  /\ (forall e, In e (heap s) -> In (elId e) (audioElements s) ->
                elVolume e = volume s).

(** The state after the first part of [#setupAudioElement], up to the
    registration of the new element [n]. *)
Definition elementAdded (n : nat) (t : Track) (s : State) : State :=
  with_audioElements (set_add n (audioElements s))
    (with_heap
       (map (fun e => if Nat.eqb (elId e) n
                      then with_elMonitors (elMonitors e ++ [false]) e
                      else e)
          (map (fun e => if Nat.eqb (elId e) n
                         then with_elAutoplay true e else e)
             (map (fun e => if Nat.eqb (elId e) n
                            then with_elVolume (volume s) e else e)
                (heap s ++ [newElement n (trackObj t)]))))
       (with_nextObj (S n) s)).

(** A manager of the examples after two subscriptions around a change of
    volume, an unsubscription and a second change. *)
Definition mixedState : State :=
  serveAll
    [ReqCall (CallSetRoom (Some demoRoom));
     ReqCall (CallSubscribed agentTrack (demoPublication agentTrack)
                             agentParticipant);
     ReqCall (CallSetVolume (Fin (3 # 10)));
     ReqCall (CallSubscribed userTrack (demoPublication userTrack)
                             userParticipant);
     ReqCall (CallDispatch 0 Play);
     ReqSetMicMuted promisingMic true;
     ReqCall (CallSetVolume (Fin (5 # 2)))]
    (initial demoPlatform noListeners 1000).

(** The tracked elements, and for every element that exists its identity,
    the track it was created for and whether it is still attached to it. *)
Definition elementsView (s : State) :=
  (audioElements s,
   map (fun e => (elId e, elTrack e, elAttached e)) (heap s)).

(** The elements that [track.detach()] hands back. *)
Definition attachedTo (t : Track) (s : State) : list nat :=
  map elId
    (filter (fun e => Nat.eqb (elTrack e) (trackObj t) && elAttached e)
            (heap s)).

(** The capture session of one stream: its record, its clone and its
    recorder. *)
Definition sessionOf (trackId : string) (s : State) :=
  (JsMap.get trackId (trackCaptureMap s),
   JsMap.get trackId (clonedTracks s),
   JsMap.get trackId (recorders s)).

(** The capture resources, seen from a manager with or without room. *)
Definition captureInRoom (s : State) := (captureView s, room s).

(** Options that replace the delivery function, the format and the chunk
    size of [demoOptions]. *)
Definition otherOptions : AudioCaptureOptions :=
  {| source := Some SrcBoth; trackSourceFilter := Some FilterAll;
     format := Some PcmI16; chunkSize := Some (Fin (20 # 1)); bufferSize := None;
     callback := Some {| cbId := 9 |}; onData := None |}.

(** The manager of the examples with the agent's stream subscribed and
    captured with [demoOptions]. *)
Definition capturingState : State :=
  serveAll
    [ReqCall (CallSetRoom (Some demoRoom));
     ReqCall (CallSubscribed agentTrack (demoPublication agentTrack)
                             agentParticipant);
     ReqCall (CallEnableCapture demoOptions)]
    (initial demoPlatform noListeners 1000).

(** The manager of the examples with the agent's stream subscribed before
    any room was given. *)
Definition roomlessState : State :=
  post (handleTrackSubscribed agentTrack (demoPublication agentTrack)
                              agentParticipant)
       (initial demoPlatform noListeners 1000).

(** The manager of the examples with the agent's stream subscribed and the
    user's stream published. *)
Definition twoStreamsState : State :=
  serveAll
    [ReqCall (CallSetRoom (Some demoRoom));
     ReqCall (CallSubscribed agentTrack (demoPublication agentTrack)
                             agentParticipant);
     ReqCall (CallLocalPublished userTrack (demoPublication userTrack)
                                 userParticipant)]
    (initial demoPlatform noListeners 1000).

(** The options are stored, and every suspended worklet set-up was there
    before or asks for a buffer of [size] samples. *)
Definition bufferSized (stored : AudioCaptureOptions) (size : number)
    (before : list WorkletTask) (s : State) : Prop :=
  audioCaptureOptions s = Some stored
  /\ Forall (fun t => In t before \/ poBufferSize (wtOptions t) = size)
            (pending s).

(* ================================================================== *)
(** * Properties *)
(* ================================================================== *)

(** ** Arithmetic of the PCM conversion *)

Lemma Qtrunc_nonneg (q : Q) : (0 <= Qnum q)%Z -> Qtrunc q = Qfloor q.
Proof.
  intros H. destruct q as [n d]. unfold Qtrunc, Qfloor. simpl in *.
  apply Z.quot_div_nonneg; lia.
Qed.

Lemma Qtrunc_neg (q : Q) : (Qnum q <= 0)%Z -> Qtrunc q = Qceiling q.
Proof.
  intros H. destruct q as [n d]. unfold Qtrunc, Qceiling, Qfloor. simpl in *.
  replace n with (- (- n))%Z at 1 by lia.
  rewrite Z.quot_opp_l by lia.
  rewrite Z.quot_div_nonneg by lia. reflexivity.
Qed.

Lemma Qnum_sign (q : Q) : (0 <= Qnum q)%Z <-> (0 <= q)%Q.
Proof.
  destruct q as [n d]. unfold Qle. simpl. lia.
Qed.

Lemma Qtrunc_comp (x y : Q) : (x == y)%Q -> Qtrunc x = Qtrunc y.
Proof.
  intros E.
  destruct (Z_le_gt_dec 0 (Qnum x)) as [Hx | Hx].
  - assert (Hy : (0 <= Qnum y)%Z).
    { apply Qnum_sign. rewrite <- E. now apply Qnum_sign. }
    rewrite !Qtrunc_nonneg by assumption. now apply Qfloor_comp.
  - assert (Hy : (Qnum y <= 0)%Z).
    { destruct (Z_le_gt_dec (Qnum y) 0) as [H | H]; [exact H | exfalso].
      assert (0 <= y)%Q by (apply Qnum_sign; lia).
      assert (0 <= x)%Q by (rewrite E; assumption).
      apply Qnum_sign in H1. lia. }
    rewrite !Qtrunc_neg by lia. now apply Qceiling_comp.
Qed.

Lemma Qtrunc_bounds (q : Q) (n : Z) :
  (0 <= n)%Z -> (inject_Z (- n) <= q)%Q -> (q <= inject_Z n)%Q ->
  (- n <= Qtrunc q <= n)%Z.
Proof.
  intros Hn Hlo Hhi.
  destruct (Z_le_gt_dec 0 (Qnum q)) as [Hq | Hq].
  - rewrite Qtrunc_nonneg by assumption. split.
    + assert (0 <= Qfloor q)%Z; [| lia].
      rewrite <- (Qfloor_Z 0). apply Qfloor_resp_le. now apply Qnum_sign.
    + rewrite <- (Qfloor_Z n). now apply Qfloor_resp_le.
  - rewrite Qtrunc_neg by lia. split.
    + rewrite <- (Qceiling_Z (- n)). now apply Qceiling_resp_le.
    + assert (Qceiling q <= 0)%Z; [| lia].
      rewrite <- (Qceiling_Z 0). apply Qceiling_resp_le.
      destruct q as [a d]. unfold Qle. simpl in *. lia.
Qed.

Lemma wrap16_small (z : Z) : (-32768 <= z <= 32767)%Z -> wrap16 z = z.
Proof.
  intros H. unfold wrap16. rewrite Z.mod_small by lia. lia.
Qed.

Lemma clampQ_range (s : Q) :
  ((-1 # 1) <= clampQ (-1 # 1) (1 # 1) s)%Q
  /\ (clampQ (-1 # 1) (1 # 1) s <= (1 # 1))%Q.
Proof.
  unfold clampQ.
  destruct (Qle_bool s (-1 # 1)) eqn:E1.
  - split; [apply Qle_refl | discriminate].
  - destruct (Qle_bool (1 # 1) s) eqn:E2.
    + split; [discriminate | apply Qle_refl].
    + split.
      * apply Qlt_le_weak, Qnot_le_lt. intros H.
        apply Qle_bool_iff in H. congruence.
      * apply Qlt_le_weak, Qnot_le_lt. intros H.
        apply Qle_bool_iff in H. congruence.
Qed.

(** The clamp written with [Math.min] and [Math.max] is the clamp of the
    specification, as a rational. *)
Lemma clamp_code_spec (s : Q) :
  exists c, Math_max (Fin (-1 # 1)) (Math_min (Fin (1 # 1)) (Fin s)) = Fin c
            /\ (c == clampQ (-1 # 1) (1 # 1) s)%Q.
Proof.
  unfold clampQ. simpl.
  destruct (Qle_bool (1 # 1) s) eqn:E2.
  - exists (1 # 1). simpl. split; [reflexivity |].
    destruct (Qle_bool s (-1 # 1)) eqn:E1; [| reflexivity].
    apply Qle_bool_iff in E1, E2. exfalso.
    assert (H : ((1 # 1) <= (-1 # 1))%Q) by (eapply Qle_trans; eassumption).
    apply H. reflexivity.
  - destruct (Qle_bool (-1 # 1) s) eqn:E3.
    + exists s. split; [reflexivity |].
      destruct (Qle_bool s (-1 # 1)) eqn:E1; [| reflexivity].
      apply Qle_bool_iff in E1, E3. now apply Qle_antisym.
    + exists (-1 # 1). split; [reflexivity |].
      destruct (Qle_bool s (-1 # 1)) eqn:E1; [reflexivity |].
      exfalso.
      assert (H : ~ (s <= (-1 # 1))%Q) by (rewrite <- Qle_bool_iff; congruence).
      assert (H' : ~ ((-1 # 1) <= s)%Q) by (rewrite <- Qle_bool_iff; congruence).
      apply Qnot_le_lt in H, H'.
      apply (Qlt_irrefl s). eapply Qlt_trans; eassumption.
Qed.

Lemma float32ToInt16_elem_finite (s : Q) :
  float32ToInt16_elem (Fin s)
  = Qtrunc (clampQ (-1 # 1) (1 # 1) s * INT16_SCALE).
Proof.
  unfold float32ToInt16_elem.
  destruct (clamp_code_spec s) as [c [-> Hc]].
  simpl.
  assert (Hr := clampQ_range s).
  assert (E : (c * INT16_SCALE == clampQ (-1 # 1) (1 # 1) s * INT16_SCALE)%Q)
    by (rewrite Hc; reflexivity).
  rewrite (Qtrunc_comp _ _ E).
  apply wrap16_small.
  assert (B : (- 32767 <= Qtrunc (clampQ (-1 # 1) (1 # 1) s * INT16_SCALE)
               <= 32767)%Z).
  { apply (Qtrunc_bounds _ 32767); [lia | |].
    - destruct Hr as [Hlo _].
      setoid_replace (inject_Z (- 32767)) with (((-1 # 1) * INT16_SCALE)%Q)
        by reflexivity.
      apply Qmult_le_compat_r; [assumption | discriminate].
    - destruct Hr as [_ Hhi].
      setoid_replace (inject_Z 32767) with (((1 # 1) * INT16_SCALE)%Q)
        by reflexivity.
      apply Qmult_le_compat_r; [assumption | discriminate]. }
  lia.
Qed.

(** *** The loop fills every index *)

Lemma store_app_at {A : Type} (v : A) (a b : list A) :
  store (List.length a) v (a ++ b)%list = (a ++ store 0 v b)%list.
Proof.
  induction a as [| x a IH]; simpl.
  - destruct b; reflexivity.
  - now rewrite IH.
Qed.

Lemma firstn_snoc_nth {A : Type} (d : A) (l : list A) (n : nat) :
  (n < List.length l)%nat -> firstn (S n) l = (firstn n l ++ [nth n l d])%list.
Proof.
  revert n. induction l as [| x l IH]; intros n H; simpl in *.
  - lia.
  - destruct n; simpl; [reflexivity |].
    f_equal. apply IH. lia.
Qed.

Lemma skipn_cons_nth {A : Type} (d : A) (l : list A) (n : nat) :
  (n < List.length l)%nat -> skipn n l = nth n l d :: skipn (S n) l.
Proof.
  revert n. induction l as [| x l IH]; intros n H; simpl in *.
  - lia.
  - destruct n; simpl; [reflexivity |].
    apply IH. lia.
Qed.

Lemma fill_loop (g : number -> Z) (buffer : list number) :
  forall (n : nat) (buf : list Z),
    List.length buf = List.length buffer ->
    (n <= List.length buffer)%nat ->
    fold_left (fun b i => store i (g (nth i buffer NaN)) b) (seq 0 n) buf
    = (map g (firstn n buffer) ++ skipn n buf)%list.
Proof.
  induction n as [| n IH]; intros buf Hlen Hn.
  - reflexivity.
  - rewrite seq_S, fold_left_app. cbn [fold_left Nat.add].
    rewrite IH by lia.
    assert (L : List.length (map g (firstn n buffer)) = n).
    { rewrite length_map, length_firstn. lia. }
    rewrite <- L at 1. rewrite store_app_at.
    rewrite (skipn_cons_nth 0%Z buf n) by lia. cbn [store].
    rewrite (firstn_snoc_nth NaN buffer n) by lia.
    rewrite map_app, <- app_assoc. reflexivity.
Qed.

Lemma float32ToInt16_map (buffer : list number) :
  float32ToInt16 buffer = map float32ToInt16_elem buffer.
Proof.
  unfold float32ToInt16.
  rewrite fill_loop; [| now rewrite repeat_length | lia].
  rewrite firstn_all, skipn_all2; [| rewrite repeat_length; lia].
  now rewrite app_nil_r.
Qed.

(** ** C2: the float-to-int16 conversion *)

(** What the conversion stores for the values that are not finite. *)
Lemma float32ToInt16_elem_special :
  float32ToInt16_elem NaN = 0
  /\ float32ToInt16_elem PosInf = 32767
  /\ float32ToInt16_elem NegInf = -32767.
Proof. repeat split; reflexivity. Qed.

(** C2, as stated, fails: the sample 0.25 scales to 8191.75, which the store
    into the [Int16Array] truncates to 8191, whereas rounding gives 8192. *)
Lemma float32ToInt16_does_not_round :
  float32ToInt16 [Fin (1 # 4)] = [8191]
  /\ map float32ToInt16_spec [1 # 4] = [8192]
  /\ float32ToInt16 [Fin (1 # 4)] <> map float32ToInt16_spec [1 # 4].
Proof.
  repeat split; try reflexivity.
  vm_compute. discriminate.
Qed.

(** The value stored for 0.25 is not even within one half of the scaled
    sample, so no rounding to the nearest integer produces it. *)
Lemma float32ToInt16_quarter_not_nearest :
  ~ (Qabs (inject_Z (float32ToInt16_elem (Fin (1 # 4)))
           - (1 # 4) * INT16_SCALE) <= 1 # 2)%Q.
Proof. vm_compute. intros H. apply H. reflexivity. Qed.

(** C2, amended: for every buffer, whatever samples it mixes, the output
    has the length of the input and its element at every index is the
    sample at that index clamped to [-1,1], scaled by 32767 and truncated
    towards zero: a finite sample [s] gives [clamp(s,-1,1) × 32767]
    truncated, the infinities are clamped like any other sample (32767 and
    -32767) and a NaN is stored as 0; in particular 1.0 gives 32767, -1.0
    gives -32767 and 2.0 gives 32767. *)
Theorem float32ToInt16_truncates (buffer : list number) :
  float32ToInt16 buffer = map float32ToInt16_amended buffer
  /\ List.length (float32ToInt16 buffer) = List.length buffer
  /\ (forall i : nat,
        (i < List.length buffer)%nat ->
        nth i (float32ToInt16 buffer) 0
        = match nth i buffer NaN with
          | Fin s => Qtrunc (clampQ (-1 # 1) (1 # 1) s * INT16_SCALE)
          | PosInf => 32767
          | NegInf => -32767
          | NaN => 0
          end)
  /\ (forall samples : list Q,
        float32ToInt16 (map Fin samples)
        = map (fun s => Qtrunc (clampQ (-1 # 1) (1 # 1) s * INT16_SCALE))
              samples)
  /\ float32ToInt16 [PosInf; NegInf; NaN] = [32767; -32767; 0]
  /\ float32ToInt16 [Fin (1 # 1); Fin (-1 # 1); Fin (2 # 1)]
     = [32767; -32767; 32767].
Proof.
  assert (E : forall s, float32ToInt16_elem s = float32ToInt16_amended s).
  { intros [q | | |]; [apply float32ToInt16_elem_finite | | |]; reflexivity. }
  assert (M : float32ToInt16 buffer = map float32ToInt16_amended buffer).
  { rewrite float32ToInt16_map. apply map_ext, E. }
  split; [exact M |].
  split; [rewrite M; apply length_map |].
  split.
  { intros i Hi. rewrite M.
    change 0 with (float32ToInt16_amended NaN) at 1. rewrite map_nth.
    destruct (nth i buffer NaN); reflexivity. }
  split; [| split; reflexivity].
  intros samples. rewrite float32ToInt16_map, map_map.
  apply map_ext. intros s. apply float32ToInt16_elem_finite.
Qed.

(* ================================================================== *)
(** ** Reasoning about method bodies *)
(* ================================================================== *)

Lemma post_bind {A B : Type} (m : M A) (k : A -> M B) (s : State) :
  post (bind m k) s
  = match m s with
    | (Ok a, s') => post (k a) s'
    | (Raised _, s') => s'
    end.
Proof. unfold post, bind. destruct (m s) as [[a | e] s']; reflexivity. Qed.

Lemma post_try_catch {A : Type} (m : M A) (h : Exn -> M A) (s : State) :
  post (try_catch m h) s
  = match m s with
    | (Ok _, s') => s'
    | (Raised e, s') => post (h e) s'
    end.
Proof. unfold post, try_catch. destruct (m s) as [[a | e] s']; reflexivity. Qed.

Section Keeps.
Context {V : Type} (v : State -> V) (P : V -> Prop).

Lemma keeps_ret {X : Type} (x : X) : keeps v P (ret x).
Proof. intros s _. reflexivity. Qed.

Lemma keeps_throw {X : Type} (e : Exn) : keeps v P (@throw X e).
Proof. intros s _. reflexivity. Qed.

Lemma keeps_gets {X : Type} (f : State -> X) : keeps v P (gets f).
Proof. intros s _. reflexivity. Qed.

Lemma keeps_modify (g : State -> State) :
  (forall s, P (v s) -> v (g s) = v s) -> keeps v P (modify g).
Proof. intros H s Hs. apply H, Hs. Qed.

Lemma keeps_fresh :
  (forall s, P (v s) -> v (with_nextObj (S (nextObj s)) s) = v s) ->
  keeps v P fresh.
Proof. intros H s Hs. apply H, Hs. Qed.

Lemma keeps_bind {X Y : Type} (m : M X) (k : X -> M Y) :
  keeps v P m -> (forall x, keeps v P (k x)) -> keeps v P (bind m k).
Proof.
  intros Hm Hk s Hs. rewrite post_bind.
  specialize (Hm s Hs). unfold post in Hm.
  destruct (m s) as [[a | e] s']; simpl in Hm.
  - rewrite <- Hm. apply Hk. now rewrite Hm.
  - exact Hm.
Qed.

Lemma keeps_try_catch {X : Type} (m : M X) (h : Exn -> M X) :
  keeps v P m -> (forall e, keeps v P (h e)) -> keeps v P (try_catch m h).
Proof.
  intros Hm Hh s Hs. rewrite post_try_catch.
  specialize (Hm s Hs). unfold post in Hm.
  destruct (m s) as [[a | e] s']; simpl in Hm.
  - exact Hm.
  - rewrite <- Hm. apply Hh. now rewrite Hm.
Qed.

Lemma keeps_forEach {X : Type} (l : list X) (f : X -> M unit) :
  (forall x, keeps v P (f x)) -> keeps v P (forEach l f).
Proof.
  intros Hf. induction l as [| x l IH]; simpl.
  - apply keeps_ret.
  - apply keeps_bind; [apply Hf | intros _; exact IH].
Qed.

Lemma keeps_when (b : bool) (m : M unit) :
  keeps v P m -> keeps v P (when b m).
Proof. intros H. destruct b; [exact H | apply keeps_ret]. Qed.

Lemma keeps_callListeners (ls : list Listener) :
  keeps v P (callListeners ls).
Proof.
  induction ls as [| [| msg] ls IH]; simpl.
  - apply keeps_ret.
  - exact IH.
  - apply keeps_throw.
Qed.
End Keeps.

(** The structural steps of a proof that a method keeps a view; [leaf]
    settles the field updates. *)
Create HintDb methods.
Create HintDb keepsdb.
#[local] Hint Unfold effect log emit listenerCount updateElement attach detach
  setupScriptProcessorCapture setupAudioWorkletCapture
  resumeAudioWorkletCapture setupPCMCapture getSupportedMimeType
  setupEncodedCapture ensureAudioContext lookupMicPublication
  initializeInputAnalyser recordTrackStats setupAudioMonitoring
  emitTrackSubscribed attachAudioElementToDOM removeFromDOM
  detachTrackElements cleanupTrackMetadata : methods.

Ltac keeps_step leaf :=
  first
    [ apply keeps_ret
    | apply keeps_throw
    | apply keeps_gets
    | apply keeps_callListeners
    | solve [auto with keepsdb]
    | apply keeps_bind; [| intros ?]
    | apply keeps_try_catch; [| intros ?]
    | apply keeps_forEach; intros ?
    | apply keeps_when
    | apply keeps_modify; intros ? ?; leaf
    | apply keeps_fresh; intros ? ?; leaf
    | match goal with
      | |- keeps _ _ (match ?x with _ => _ end) => destruct x
      | |- keeps _ _ (let _ := _ in _) => cbv zeta
      end
    | progress autounfold with methods ].

Ltac keeps_auto leaf := repeat keeps_step leaf.

(** A method that only goes through the structural steps and updates of
    other fields. *)
Ltac keeps_fields :=
  autounfold with methods; keeps_auto ltac:(reflexivity).

(** *** The registry is written by the subscription handlers only *)

Lemma keeps_trackStats_setupTrackCapture (P : _ -> Prop) id p r f :
  keeps trackStats P (setupTrackCapture id p r f).
Proof. unfold setupTrackCapture. keeps_fields. Qed.
#[local] Hint Resolve keeps_trackStats_setupTrackCapture : keepsdb.

Lemma keeps_trackStats_setupAudioCaptureIfEnabled (P : _ -> Prop) t p :
  keeps trackStats P (setupAudioCaptureIfEnabled t p).
Proof. unfold setupAudioCaptureIfEnabled. keeps_fields. Qed.
#[local] Hint Resolve keeps_trackStats_setupAudioCaptureIfEnabled : keepsdb.

Lemma keeps_trackStats_setupAudioElement (P : _ -> Prop) t pub p :
  keeps trackStats P (setupAudioElement t pub p).
Proof. unfold setupAudioElement. keeps_fields. Qed.
#[local] Hint Resolve keeps_trackStats_setupAudioElement : keepsdb.

Lemma recordTrackStats_run t pub p s :
  recordTrackStats t pub p s
  = (Ok tt,
     with_trackStats
       (JsMap.set (trackKey t) (statsRecord t pub p (now s)) (trackStats s))
       s).
Proof. reflexivity. Qed.

Lemma trackStats_handleTrackSubscribed t pub p s :
  isAudio (kind t) = true ->
  trackStats (post (handleTrackSubscribed t pub p) s)
  = JsMap.set (trackKey t) (statsRecord t pub p (now s)) (trackStats s).
Proof.
  intros Hk. unfold handleTrackSubscribed. rewrite Hk.
  rewrite post_bind, recordTrackStats_run.
  assert (K : keeps trackStats (fun _ => True)
                (setupAudioElement t pub p ;;
                 setupAudioCaptureIfEnabled t p)) by keeps_fields.
  rewrite K by exact I. reflexivity.
Qed.

Lemma trackStats_handleTrackUnsubscribed t pub p s :
  isAudio (kind t) = true ->
  trackStats (post (handleTrackUnsubscribed t pub p) s)
  = JsMap.delete (trackKey t) (trackStats s).
Proof.
  intros Hk. unfold handleTrackUnsubscribed. rewrite Hk. cbn [negb].
  rewrite post_bind. unfold cleanupTrackMetadata at 1. cbn [modify].
  assert (K : keeps trackStats (fun _ => True)
                (when (hasDetach t) (detachTrackElements t) ;;
                 emit EvTrackUnsubscribed
                   (PUnsubscribed (trackKey t)
                                  (str_or (identity p) "unknown"))))
    by keeps_fields.
  rewrite K by exact I. reflexivity.
Qed.

(** ** C8: the statistics after two subscriptions and one unsubscription *)

(** The handlers do not move the clock. *)
Lemma now_handleTrackSubscribed t pub p s :
  now (post (handleTrackSubscribed t pub p) s) = now s.
Proof.
  assert (K : keeps now (fun _ => True) (handleTrackSubscribed t pub p)).
  { unfold handleTrackSubscribed, setupAudioElement,
      setupAudioCaptureIfEnabled, setupTrackCapture.
    keeps_fields. }
  now apply K.
Qed.

(** C8: on a manager with an empty registry, subscribing the audio streams
    S1 and S2 with distinct stream ids and then unsubscribing S1 makes
    [getTrackStats()] return activeTracks = 1, totalTracks = 1 and
    trackDetails holding exactly S2's record: one entry, under S2's stream
    id, whose fields are that id, the kind audio, the identity of S2's
    participant (or ['unknown'] when it is empty), the time of S2's
    subscription, S2's publication and the source, mute state, enabled
    state, dimensions and simulcast flag read from that publication.  S1
    has no entry left.  This holds whoever the two participants are, an
    agent and a user in particular. *)
Theorem getTrackStats_after_unsubscribe
    (s0 : State) (S1 S2 : Track) (pub1 pub2 : Publication)
    (p1 p2 : Participant) :
  trackStats s0 = [] ->
  kind S1 = KAudio ->
  kind S2 = KAudio ->
  trackKey S1 <> trackKey S2 ->
  let s1 := post (handleTrackSubscribed S1 pub1 p1) s0 in
  let s2 := post (handleTrackSubscribed S2 pub2 p2) s1 in
  let s3 := post (handleTrackUnsubscribed S1 pub1 p1) s2 in
  exists r,
    outcome getTrackStats s3 = Ok r
    /\ activeTracks r = 1%nat
    /\ totalTracks r = 1%nat
    /\ trackDetails r = [(trackKey S2, statsRecord S2 pub2 p2 (now s1))]
    /\ JsMap.get (trackKey S1) (trackStats s3) = None
    /\ trackDetails r
       = [(trackKey S2,
           {| tsTrackId := trackKey S2;
              tsKind := KAudio;
              tsParticipant := if String.eqb (identity p2) ""
                               then "unknown" else identity p2;
              subscriptionTime := now s1;
              tsPublication := pub2;
              tsSource := match pubSource pub2 with
                          | Microphone => "microphone"
                          | Camera => "camera"
                          | ScreenShare => "screen_share"
                          | ScreenShareAudio => "screen_share_audio"
                          | UnknownSource => "unknown"
                          end;
              tsMuted := isMuted pub2;
              tsEnabled := isEnabled pub2;
              tsDimensions := dimensions pub2;
              tsSimulcasted := simulcasted pub2 |})]
    /\ now s1 = now s0.
Proof.
  intros H0 K1 K2 Hne s1 s2 s3.
  assert (E : trackStats s3 = [(trackKey S2, statsRecord S2 pub2 p2 (now s1))]).
  { subst s3 s2 s1.
    rewrite trackStats_handleTrackUnsubscribed by (rewrite K1; reflexivity).
    rewrite trackStats_handleTrackSubscribed by (rewrite K2; reflexivity).
    rewrite trackStats_handleTrackSubscribed by (rewrite K1; reflexivity).
    rewrite H0. cbn [JsMap.set].
    assert (N : String.eqb (trackKey S2) (trackKey S1) = false)
      by (apply String.eqb_neq; congruence).
    assert (N' : String.eqb (trackKey S1) (trackKey S2) = false)
      by (apply String.eqb_neq; congruence).
    rewrite N. unfold JsMap.delete. cbn [filter fst].
    rewrite String.eqb_refl, N'. reflexivity. }
  eexists. split; [reflexivity |].
  cbn [activeTracks totalTracks trackDetails].
  unfold JsMap.size, JsMap.entries. rewrite E.
  split; [reflexivity |]. split; [reflexivity |]. split; [reflexivity |].
  split.
  { cbn [JsMap.get].
    assert (N' : String.eqb (trackKey S1) (trackKey S2) = false)
      by (apply String.eqb_neq; congruence).
    now rewrite N'. }
  split.
  { unfold statsRecord, str_or, getTrackSourceString. rewrite K2.
    reflexivity. }
  subst s1. apply now_handleTrackSubscribed.
Qed.

Lemma getTrackStats_after_unsubscribe_witness :
  trackStats demoState = []
  /\ kind agentTrack = KAudio
  /\ kind userTrack = KAudio
  /\ trackKey agentTrack <> trackKey userTrack
  /\ exists r,
       outcome getTrackStats
         (post (handleTrackUnsubscribed agentTrack
                  (demoPublication agentTrack) agentParticipant)
            (post (handleTrackSubscribed userTrack
                     (demoPublication userTrack) userParticipant)
               (post (handleTrackSubscribed agentTrack
                        (demoPublication agentTrack) agentParticipant)
                  demoState))) = Ok r
       /\ activeTracks r = 1%nat
       /\ totalTracks r = 1%nat
       /\ trackDetails r
          = [("TR_user",
              {| tsTrackId := "TR_user";
                 tsKind := KAudio;
                 tsParticipant := "alice";
                 subscriptionTime := 1000;
                 tsPublication := demoPublication userTrack;
                 tsSource := "microphone";
                 tsMuted := false;
                 tsEnabled := true;
                 tsDimensions := None;
                 tsSimulcasted := false |})].
Proof.
  assert (N : trackKey agentTrack <> trackKey userTrack)
    by (vm_compute; discriminate).
  split; [reflexivity |]. split; [reflexivity |]. split; [reflexivity |].
  split; [exact N |].
  destruct (getTrackStats_after_unsubscribe demoState agentTrack userTrack
              (demoPublication agentTrack) (demoPublication userTrack)
              agentParticipant userParticipant eq_refl eq_refl eq_refl N)
    as (r & Ho & Ha & Ht & _ & _ & Hd & Hn).
  exists r. split; [exact Ho |]. split; [exact Ha |]. split; [exact Ht |].
  rewrite Hd, Hn. reflexivity.
Defined.

(** ** C5: activity detection *)

Lemma callListeners_state (ls : list Listener) (s : State) :
  snd (callListeners ls s) = s.
Proof.
  induction ls as [| [| msg] ls IH]; simpl; auto.
Qed.

Lemma emit_post (ev : EventName) (p : Payload) (s : State) :
  post (emit ev p) s = with_trace (trace s ++ [Emitted ev p]) s.
Proof.
  unfold emit. rewrite post_bind. cbn [effect modify].
  rewrite post_bind. cbn [gets].
  set (s' := with_trace _ s).
  destruct ev; try apply callListeners_state.
  destruct (listeners s' EvError) eqn:E.
  - reflexivity.
  - rewrite <- E. apply callListeners_state.
Qed.

Lemma find_update (f : AudioElement -> AudioElement) (el : nat)
    (h : list AudioElement) :
  (forall e, elId (f e) = elId e) ->
  find (fun e => Nat.eqb (elId e) el)
       (map (fun e => if Nat.eqb (elId e) el then f e else e) h)
  = option_map f (find (fun e => Nat.eqb (elId e) el) h).
Proof.
  intros Hid. induction h as [| e h IH]; simpl; [reflexivity |].
  destruct (Nat.eqb (elId e) el) eqn:E.
  - rewrite Hid, E. reflexivity.
  - rewrite E. exact IH.
Qed.

Lemma updateElement_run (el : nat) (f : AudioElement -> AudioElement)
    (s : State) :
  updateElement el f s
  = (Ok tt,
     with_heap (map (fun e => if Nat.eqb (elId e) el then f e else e) (heap s))
               s).
Proof. reflexivity. Qed.

Lemma speaking_after_update (el k : nat) (b : bool) (s : State)
    (tr : list Effect) (x : AudioElement) :
  findElement el s = Some x ->
  speaking el
    (with_trace tr
       (with_heap
          (map (fun e => if Nat.eqb (elId e) el
                         then setSpeaking k b e else e) (heap s))
          s))
  = Some (store k b (elMonitors x)).
Proof.
  intros H. unfold speaking, findElement in *. cbn [heap with_trace with_heap].
  rewrite find_update by reflexivity. rewrite H. reflexivity.
Qed.

Lemma onPlay_quiet (el k : nat) (s : State) (x : AudioElement) :
  findElement el s = Some x -> nth k (elMonitors x) false = false ->
  post (onPlay el k) s
  = with_trace (trace s ++ [Emitted EvSpeaking PNone])
      (with_heap
         (map (fun e => if Nat.eqb (elId e) el
                        then setSpeaking k true e else e) (heap s))
         s).
Proof.
  intros Hf Hq. unfold onPlay. rewrite post_bind. cbn [gets].
  rewrite Hf, Hq. cbn [negb].
  rewrite post_bind, updateElement_run, emit_post. reflexivity.
Qed.

Lemma onPlay_speaking (el k : nat) (s : State) (x : AudioElement) :
  findElement el s = Some x -> nth k (elMonitors x) false = true ->
  onPlay el k s = (Ok tt, s).
Proof.
  intros Hf Hq. unfold onPlay, bind. cbn [gets].
  rewrite Hf, Hq. reflexivity.
Qed.

Lemma onPause_post (el k : nat) (s : State) :
  post (onPause el k) s
  = with_trace (trace s ++ [Emitted EvListening PNone])
      (with_heap
         (map (fun e => if Nat.eqb (elId e) el
                        then setSpeaking k false e else e) (heap s))
         s).
Proof.
  unfold onPause. rewrite post_bind, updateElement_run, emit_post.
  reflexivity.
Qed.

Lemma onEnded_post (el k : nat) (s : State) :
  post (onEnded el k) s = post (onPause el k) s.
Proof. reflexivity. Qed.

(** With one installation, one listener runs. *)
Lemma dispatch_post (el : nat) (ev : MediaEvent) (s : State)
    (x : AudioElement) (b : bool) :
  findElement el s = Some x -> elMonitors x = [b] ->
  post (dispatch el ev) s
  = post (match ev with
          | Play => onPlay el 0
          | Pause => onPause el 0
          | Ended => onEnded el 0
          end) s.
Proof.
  intros Hf Hm. unfold dispatch. rewrite post_bind. cbn [gets].
  rewrite Hf, Hm. cbn [List.length seq forEach].
  unfold post, bind, try_catch.
  destruct (_ s) as [[a | e] s']; reflexivity.
Qed.

Lemma speaking_element (el : nat) (s : State) (flags : list bool) :
  speaking el s = Some flags ->
  exists x, findElement el s = Some x /\ elMonitors x = flags.
Proof.
  unfold speaking. destruct (findElement el s) as [x |]; [| discriminate].
  intros [= <-]. now exists x.
Qed.

(** C5: [#setupAudioMonitoring] on a sink that has no listeners yet leaves
    it with one installation whose variable says not speaking, and emits
    nothing; a play event then emits exactly one Speaking.  On a sink with
    that one installation: a play event while not speaking emits exactly
    one Speaking and sets the variable; a play event while speaking
    changes and emits nothing; a pause or an ended event emits one
    Listening whatever the variable was and clears it, after which a play
    event emits exactly one Speaking again. *)
Theorem activity_detection (s : State) (el : nat) :
  (speaking el s = Some [] ->
   let s1 := post (setupAudioMonitoring el) s in
   speaking el s1 = Some [false]
   /\ trace s1 = trace s
   /\ trace (post (dispatch el Play) s1)
      = (trace s ++ [Emitted EvSpeaking PNone])%list)
  /\ (speaking el s = Some [false] ->
      trace (post (dispatch el Play) s)
      = (trace s ++ [Emitted EvSpeaking PNone])%list
      /\ speaking el (post (dispatch el Play) s) = Some [true])
  /\ (speaking el s = Some [true] -> post (dispatch el Play) s = s)
  /\ (forall ev b,
        ev = Pause \/ ev = Ended -> speaking el s = Some [b] ->
        trace (post (dispatch el ev) s)
        = (trace s ++ [Emitted EvListening PNone])%list
        /\ speaking el (post (dispatch el ev) s) = Some [false]
        /\ trace (post (dispatch el Play) (post (dispatch el ev) s))
           = (trace s ++ [Emitted EvListening PNone; Emitted EvSpeaking PNone])
             %list).
Proof.
  assert (Quiet : forall st,
            speaking el st = Some [false] ->
            trace (post (dispatch el Play) st)
            = (trace st ++ [Emitted EvSpeaking PNone])%list
            /\ speaking el (post (dispatch el Play) st) = Some [true]).
  { intros st H. destruct (speaking_element el st _ H) as (x & Hf & Hm).
    rewrite (dispatch_post el Play st x false Hf Hm).
    rewrite (onPlay_quiet el 0 st x Hf) by (rewrite Hm; reflexivity).
    split; [reflexivity |].
    rewrite (speaking_after_update el 0 true st _ x Hf), Hm. reflexivity. }
  split; [| split; [exact (Quiet s) | split]].
  - intros H. destruct (speaking_element el s _ H) as (x & Hf & Hm).
    cbv zeta.
    assert (S1 : speaking el (post (setupAudioMonitoring el) s)
                 = Some [false]).
    { unfold setupAudioMonitoring, post. rewrite updateElement_run.
      cbn [snd]. unfold speaking, findElement in *. cbn [heap with_heap].
      rewrite find_update by reflexivity. rewrite Hf.
      cbn [option_map elMonitors with_elMonitors]. now rewrite Hm. }
    split; [exact S1 |]. split; [reflexivity |].
    exact (proj1 (Quiet _ S1)).
  - intros H. destruct (speaking_element el s _ H) as (x & Hf & Hm).
    rewrite (dispatch_post el Play s x true Hf Hm).
    unfold post. rewrite (onPlay_speaking el 0 s x Hf); [reflexivity |].
    rewrite Hm. reflexivity.
  - intros ev b Hev H.
    destruct (speaking_element el s _ H) as (x & Hf & Hm).
    assert (E : post (dispatch el ev) s = post (onPause el 0) s).
    { rewrite (dispatch_post el ev s x b Hf Hm).
      destruct Hev as [-> | ->]; reflexivity. }
    rewrite E, onPause_post.
    assert (S1 : speaking el
                   (with_trace (trace s ++ [Emitted EvListening PNone])
                      (with_heap
                         (map (fun e => if Nat.eqb (elId e) el
                                        then setSpeaking 0 false e else e)
                              (heap s)) s))
                 = Some [false]).
    { rewrite (speaking_after_update el 0 false s _ x Hf), Hm. reflexivity. }
    split; [reflexivity |]. split; [exact S1 |].
    rewrite (proj1 (Quiet _ S1)). cbn [trace with_trace].
    now rewrite <- app_assoc.
Qed.

Lemma activity_detection_witness :
  speaking 0 subscribedState = Some [false]
  /\ trace (post (dispatch 0 Play) subscribedState)
     = (trace subscribedState ++ [Emitted EvSpeaking PNone])%list
  /\ speaking 0 (post (dispatch 0 Play) subscribedState) = Some [true].
Proof.
  assert (Hf : speaking 0 subscribedState = Some [false])
    by (vm_compute; reflexivity).
  destruct (activity_detection subscribedState 0) as (_ & Hplay & _).
  destruct (Hplay Hf) as [Htr Hsp].
  exact (conj Hf (conj Htr Hsp)).
Defined.

(** The listeners are never removed and every installation has a variable
    of its own: a sink on which [#setupAudioMonitoring] ran twice emits
    Speaking twice at a play event, and Listening twice at a pause. *)
Example activity_detection_two_installations :
  let s2 := post (setupAudioMonitoring 0) subscribedState in
  speaking 0 s2 = Some [false; false]
  /\ trace (post (dispatch 0 Play) s2)
     = (trace subscribedState
        ++ [Emitted EvSpeaking PNone; Emitted EvSpeaking PNone])%list
  /\ speaking 0 (post (dispatch 0 Play) s2) = Some [true; true]
  /\ trace (post (dispatch 0 Pause) s2)
     = (trace subscribedState
        ++ [Emitted EvListening PNone; Emitted EvListening PNone])%list.
Proof.
  cbv zeta.
  split; [vm_compute; reflexivity |].
  split; [vm_compute; reflexivity |].
  split; vm_compute; reflexivity.
Qed.

(** ** C6: teardown *)

Lemma with_trace_same (s : State) : with_trace (trace s) s = s.
Proof. destruct s; reflexivity. Qed.

Lemma forEach_effect {X : Type} (f : X -> Effect) (l : list X) (s : State) :
  forEach l (fun x => effect (f x)) s
  = (Ok tt, with_trace (trace s ++ map f l) s).
Proof.
  revert s. induction l as [| x l IH]; intros s; simpl.
  - rewrite app_nil_r, with_trace_same. reflexivity.
  - unfold bind. cbn [effect modify]. rewrite IH.
    destruct s; cbn. rewrite <- app_assoc. reflexivity.
Qed.

(** The state [#cleanupAudioCapture] leaves, given the trace it produced. *)
Lemma cleanupAudioCapture_run (s : State) :
  exists tr,
    cleanupAudioCapture s
    = (Ok tt,
       with_trace tr
         (with_audioContext None
            (with_trackCaptureMap JsMap.empty
               (with_clonedTracks JsMap.empty
                  (with_sourceNodes JsMap.empty
                     (with_processors JsMap.empty
                        (with_recorders JsMap.empty
                           (with_workletReady None s)))))))).
Proof.
  unfold cleanupAudioCapture, bind. cbn [modify gets].
  repeat (rewrite forEach_effect; cbn [modify gets]).
  destruct s as [ae ts vol rm ctx ia oa en opts recs procs srcs cl tcm wr
                  pf ls hp nw nx pd tr].
  cbn. destruct ctx as [c |].
  - destruct (ctxState c); cbn; eexists; reflexivity.
  - eexists; reflexivity.
Qed.

Lemma removeFromDOM_loop (els : list nat) (s : State) :
  exists h tr,
    forEach els removeFromDOM s = (Ok tt, with_trace tr (with_heap h s)).
Proof.
  revert s. induction els as [| el els IH]; intros s.
  - exists (heap s), (trace s). destruct s; reflexivity.
  - cbn [forEach]. unfold bind.
    assert (R : exists h tr,
               removeFromDOM el s = (Ok tt, with_trace tr (with_heap h s))).
    { unfold removeFromDOM, bind. cbn [gets].
      destruct (findElement el s) as [x |].
      - destruct (elInDom x); cbn.
        + eexists _, _. destruct s; reflexivity.
        + exists (heap s), (trace s). destruct s; reflexivity.
      - exists (heap s), (trace s). destruct s; reflexivity. }
    destruct R as (h & tr & ->).
    destruct (IH (with_trace tr (with_heap h s))) as (h' & tr' & ->).
    exists h', tr'. destruct s; reflexivity.
Qed.

Lemma cleanup_run (s : State) :
  exists h tr,
    cleanup s
    = (Ok tt,
       with_trackStats JsMap.empty
         (with_audioElements []
            (with_trace tr
               (with_heap h
                  (with_audioContext None
                     (with_trackCaptureMap JsMap.empty
                        (with_clonedTracks JsMap.empty
                           (with_sourceNodes JsMap.empty
                              (with_processors JsMap.empty
                                 (with_recorders JsMap.empty
                                    (with_workletReady None s))))))))))).
Proof.
  unfold cleanup. unfold bind at 1.
  destruct (cleanupAudioCapture_run s) as (tr0 & ->).
  unfold bind at 1. cbn [gets]. unfold bind at 1.
  match goal with
  | |- context [forEach ?l removeFromDOM ?st] =>
      destruct (removeFromDOM_loop l st) as (h & tr & E)
  end.
  rewrite E.
  exists h, tr. destruct s; reflexivity.
Qed.

(** A manager whose collections are empty is left as it is. *)
Lemma cleanup_on_clean (s : State) :
  audioElements s = [] -> trackStats s = [] -> recorders s = [] ->
  processors s = [] -> sourceNodes s = [] -> clonedTracks s = [] ->
  trackCaptureMap s = [] -> audioContext s = None -> workletReady s = None ->
  cleanup s = (Ok tt, s).
Proof.
  destruct s; cbn. intros; subst. reflexivity.
Qed.

(** C6: [cleanup()] never throws; after it the audio elements, the track
    statistics, the recorders, the processors, the source nodes, the cloned
    tracks and the capture map are empty and the audio context reference is
    cleared; a second [cleanup()] returns normally and leaves the state
    exactly as the first one left it; on a new manager [cleanup()] changes
    nothing. *)
Theorem cleanup_idempotent (s : State) :
  outcome cleanup s = Ok tt
  /\ audioElements (post cleanup s) = []
  /\ trackStats (post cleanup s) = []
  /\ recorders (post cleanup s) = []
  /\ processors (post cleanup s) = []
  /\ sourceNodes (post cleanup s) = []
  /\ clonedTracks (post cleanup s) = []
  /\ trackCaptureMap (post cleanup s) = []
  /\ audioContext (post cleanup s) = None
  /\ cleanup (post cleanup s) = (Ok tt, post cleanup s)
  /\ (forall p ls t, cleanup (initial p ls t) = (Ok tt, initial p ls t)).
Proof.
  destruct (cleanup_run s) as (h & tr & E).
  unfold outcome, post. rewrite E. cbn [fst snd].
  do 9 (split; [reflexivity |]).
  split; [| intros p ls t]; apply cleanup_on_clean; reflexivity.
Qed.

(** ** C9: the input level *)

Lemma reachable_performAll (cs : list Call) (s : State) :
  reachable s -> reachable (performAll cs s).
Proof.
  unfold performAll. revert s.
  induction cs as [| c cs IH]; intros s H; cbn [fold_left].
  - exact H.
  - apply IH. now apply reachable_call.
Qed.

(** Case analysis on the variables that block the evaluation of a method. *)
Ltac case_step :=
  match goal with
  | |- context [match ?x with _ => _ end] => is_var x; destruct x
  | |- context [match negb ?x with _ => _ end] => is_var x; destruct x
  | |- context [match ?f ?x with _ => _ end] =>
      is_var x; destruct (f x) eqn:?
  end; cbn.

Lemma initializeInputAnalyser_tap (s : State) :
  inputAnalyser s = None ->
  outcome initializeInputAnalyser s = Ok tt
  /\ inputAnalyser (post initializeInputAnalyser s) = inputTap s.
Proof.
  intros H. unfold inputTap, contextAvailable, microphoneSource. rewrite H.
  destruct s as [ae ts vol rm ctx ia oa en opts recs procs srcs cl tcm wr
                  pf ls hp nw nx pd tr].
  destruct pf. cbn in *. subst ia.
  cbv [outcome post initializeInputAnalyser try_catch bind
       ensureAudioContext lookupMicPublication gets modify effect fresh
       when ret throw].
  cbn.
  repeat case_step; split; reflexivity.
Qed.

Lemma try_bind_ok {A B : Type} (m : M A) (k : A -> M B) (h : Exn -> M B)
    (s s1 : State) (a : A) :
  m s = (Ok a, s1) -> try_catch (bind m k) h s = try_catch (k a) h s1.
Proof. intros H. unfold try_catch, bind. now rewrite H. Qed.

(** The level computed from the bins of a tap. *)
Lemma getInputVolume_outcome (s : State) :
  outcome getInputVolume s
  = Ok match inputTap s with
       | None => MIN_VOLUME
       | Some a =>
           match binsOf a with
           | None => MIN_VOLUME
           | Some bins =>
               if Nat.eqb (List.length bins) 0 then MIN_VOLUME
               else Math_max MIN_VOLUME
                      (Math_min MAX_VOLUME
                         (binary64 (inject_Z (byteSum bins)
                                    / inject_Z (Z.of_nat (List.length bins)
                                                * BYTE_MAX))))
           end
       end.
Proof.
  assert (Tail : forall st tap,
             inputAnalyser st = tap ->
             fst (try_catch
                    (a <- gets inputAnalyser ;;
                     match a with
                     | None => ret MIN_VOLUME
                     | Some analyser =>
                         let binCount := frequencyBinCount analyser in
                         match byteFrequencyData analyser with
                         | None =>
                             throw (JsError "getByteFrequencyData failed")
                         | Some data =>
                             let dataArray := fillBytes binCount data in
                             if Nat.eqb (List.length dataArray) 0
                             then ret MIN_VOLUME
                             else
                               let sum := byteSum dataArray in
                               let avg :=
                                 binary64
                                   (inject_Z sum /
                                    inject_Z (Z.of_nat
                                                (List.length dataArray)
                                              * BYTE_MAX)) in
                               ret (Math_max MIN_VOLUME
                                      (Math_min MAX_VOLUME avg))
                         end
                     end)
                    (fun _ => ret MIN_VOLUME) st)
             = Ok match tap with
                  | None => MIN_VOLUME
                  | Some a =>
                      match binsOf a with
                      | None => MIN_VOLUME
                      | Some bins =>
                          if Nat.eqb (List.length bins) 0 then MIN_VOLUME
                          else Math_max MIN_VOLUME
                                 (Math_min MAX_VOLUME
                                    (binary64 (inject_Z (byteSum bins)
                                               / inject_Z
                                                   (Z.of_nat (List.length bins)
                                                    * BYTE_MAX))))
                      end
                  end).
  { intros st tap E. unfold try_catch, bind. cbn [gets]. rewrite E.
    destruct tap as [a |]; [| reflexivity].
    unfold binsOf. destruct (byteFrequencyData a) as [data |];
      [| reflexivity].
    cbn [option_map]. cbv zeta.
    destruct (Nat.eqb _ 0); reflexivity. }
  unfold outcome, getInputVolume.
  erewrite try_bind_ok by (cbn [gets]; reflexivity).
  destruct (inputAnalyser s) as [a |] eqn:E.
  - cbn [isNone when].
    erewrite try_bind_ok by reflexivity.
    unfold inputTap. rewrite E. exact (Tail s (Some a) E).
  - cbn [isNone when].
    destruct (initializeInputAnalyser_tap s E) as [Ho Hi].
    unfold outcome, post in Ho, Hi.
    destruct (initializeInputAnalyser s) as [o s1] eqn:R.
    cbn [fst snd] in Ho, Hi. subst o.
    erewrite try_bind_ok by exact R.
    exact (Tail s1 (inputTap s) Hi).
Qed.

Lemma byteSum_acc (l : list Byte.byte) (a : Z) :
  fold_left (fun sum v => sum + Z.of_N (Byte.to_N v)) l a = a + byteSum l.
Proof.
  unfold byteSum. revert a. induction l as [| v l IH]; intros a; simpl.
  - lia.
  - rewrite IH, (IH (Z.of_N (Byte.to_N v))). lia.
Qed.

Lemma byteSum_bounds (l : list Byte.byte) :
  0 <= byteSum l <= 255 * Z.of_nat (List.length l).
Proof.
  induction l as [| v l IH].
  - cbn. lia.
  - unfold byteSum. cbn [fold_left List.length]. rewrite byteSum_acc.
    pose proof (Byte.to_N_bounded v) as B. lia.
Qed.

(** *** The rounding of the quotient *)

Lemma roundTiesToEven_near (x : Q) :
  (x - (1 # 2) <= inject_Z (roundTiesToEven x) <= x + (1 # 2))%Q.
Proof.
  unfold roundTiesToEven.
  pose proof (Qfloor_le x) as L. pose proof (Qlt_floor x) as U.
  rewrite inject_Z_plus in U. change (inject_Z 1) with 1%Q in U.
  destruct (Qcompare_spec (x - inject_Z (Qfloor x)) (1 # 2)) as [E | E | E].
  - destruct (Z.even (Qfloor x)); [| rewrite inject_Z_plus;
                                     change (inject_Z 1) with 1%Q]; lra.
  - lra.
  - rewrite inject_Z_plus. change (inject_Z 1) with 1%Q. lra.
Qed.

Lemma roundTiesToEven_bounds (x : Q) (lo hi : Z) :
  (inject_Z lo <= x)%Q -> (x <= inject_Z hi)%Q ->
  lo <= roundTiesToEven x <= hi.
Proof.
  intros Hlo Hhi.
  pose proof (roundTiesToEven_near x) as [N1 N2].
  split.
  - destruct (Z_le_gt_dec lo (roundTiesToEven x)) as [H | H]; [exact H |].
    exfalso. assert (H' : roundTiesToEven x + 1 <= lo) by lia.
    rewrite Zle_Qle, inject_Z_plus in H'.
    change (inject_Z 1) with 1%Q in H'. lra.
  - destruct (Z_le_gt_dec (roundTiesToEven x) hi) as [H | H]; [exact H |].
    exfalso. assert (H' : hi + 1 <= roundTiesToEven x) by lia.
    rewrite Zle_Qle, inject_Z_plus in H'.
    change (inject_Z 1) with 1%Q in H'. lra.
Qed.

Lemma two_power (k : Z) : (0 <= k)%Z -> (inject_Z (2 ^ k) == 2 ^ k)%Q.
Proof. intros H. now rewrite Zpower_Qpower. Qed.

Lemma Qlog2_lower (q : Q) : (0 < q)%Q -> (2 ^ Qlog2 q <= q)%Q.
Proof.
  intros Hq. unfold Qlog2.
  set (a := Z.log2 (Qnum q)). set (b := Z.log2 (Z.pos (Qden q))).
  destruct (Qle_bool (2 ^ (a - b)) q) eqn:T; [now apply Qle_bool_iff |].
  assert (Hn : 0 < Qnum q)
    by (destruct q as [n d]; unfold Qlt in Hq; cbn in *; lia).
  assert (Ha : 2 ^ a <= Qnum q) by (apply Z.log2_spec; exact Hn).
  assert (Hb : Z.pos (Qden q) < 2 ^ (b + 1)).
  { unfold b.
    replace (Z.log2 (Z.pos (Qden q)) + 1)
      with (Z.succ (Z.log2 (Z.pos (Qden q)))) by lia.
    apply Z.log2_spec. lia. }
  assert (Ha0 : 0 <= a) by apply Z.log2_nonneg.
  assert (Hb0 : 0 <= b) by apply Z.log2_nonneg.
  replace (a - b - 1) with (a + - (b + 1)) by lia.
  rewrite Qpower_plus by discriminate. rewrite Qpower_opp.
  rewrite <- !two_power by lia.
  assert (Hd : (0 < inject_Z (2 ^ (b + 1)))%Q).
  { change 0%Q with (inject_Z 0). rewrite <- Zlt_Qlt. lia. }
  apply Qle_shift_div_r; [exact Hd |].
  destruct q as [n d]. unfold Qle, Qmult, inject_Z. cbn [Qnum Qden] in *.
  rewrite Pos.mul_1_r, !Z.mul_1_r. nia.
Qed.

Lemma Qlog2_le (q : Q) (k : Z) : (0 < q)%Q -> (q <= 2 ^ k)%Q -> Qlog2 q <= k.
Proof.
  intros Hq Hk. pose proof (Qlog2_lower q Hq) as L.
  apply (Qpower_le_compat_l_inv 2); [| reflexivity]. lra.
Qed.

(** Between 0 and 1 the rounding stays between 0 and 1 and moves a value
    by at most 2^-53. *)
Lemma binary64_unit (q : Q) :
  (0 <= q)%Q -> (q <= 1)%Q ->
  exists r, binary64 q = Fin r
            /\ Qred r = r
            /\ (0 <= r)%Q /\ (r <= 1)%Q
            /\ (q - (1 # 9007199254740992) <= r)%Q
            /\ (r <= q + (1 # 9007199254740992))%Q.
Proof.
  intros H0 H1. unfold binary64.
  destruct (Qcompare_spec q 0) as [E | E | E]; [| lra |].
  - exists 0%Q. split; [reflexivity |]. split; [reflexivity |].
    repeat split; lra.
  - unfold binary64_pos.
    assert (Hk : Qlog2 q <= 0) by (apply Qlog2_le; [exact E | exact H1]).
    set (e := Z.max (Qlog2 q - 52) (-1074)).
    assert (He : -1074 <= e <= -52) by lia.
    assert (Hp : (0 < 2 ^ e)%Q) by (apply Qpower_0_lt; reflexivity).
    assert (Hp52 : (2 ^ e <= 1 # 4503599627370496)%Q).
    { change (1 # 4503599627370496)%Q with (2 ^ (-52))%Q.
      apply Qpower_le_compat_l; [lia | discriminate]. }
    set (x := (q / 2 ^ e)%Q).
    assert (Hx : (q == x * 2 ^ e)%Q) by (unfold x; field; lra).
    assert (Hinv : (2 ^ e * inject_Z (2 ^ (- e)) == 1)%Q).
    { rewrite two_power by lia. rewrite Qpower_opp. field. lra. }
    assert (Hx0 : (inject_Z 0 <= x)%Q).
    { change (inject_Z 0) with 0%Q. unfold x.
      apply Qle_shift_div_l; [exact Hp | lra]. }
    assert (Hx1 : (x <= inject_Z (2 ^ (- e)))%Q).
    { unfold x. apply Qle_shift_div_r; [exact Hp |]. lra. }
    pose proof (roundTiesToEven_bounds x 0 (2 ^ (- e)) Hx0 Hx1) as [B0 B1].
    pose proof (roundTiesToEven_near x) as [N0 N1].
    set (m := roundTiesToEven x) in *.
    rewrite Zle_Qle in B0, B1. change (inject_Z 0) with 0%Q in B0.
    assert (R0 : (0 <= inject_Z m * 2 ^ e)%Q) by nra.
    assert (R1 : (inject_Z m * 2 ^ e <= 1)%Q) by nra.
    assert (Big : Qle_bool (2 ^ 1024) (inject_Z m * 2 ^ e) = false).
    { destruct (Qle_bool (2 ^ 1024) (inject_Z m * 2 ^ e)) eqn:T;
        [| reflexivity].
      apply Qle_bool_iff in T.
      assert (1 < 2 ^ 1024)%Q by (apply Qpower_1_lt; [reflexivity | lia]).
      lra. }
    rewrite Big. exists (Qred (inject_Z m * 2 ^ e)).
    split; [reflexivity |].
    split; [apply Qred_complete, Qred_correct |].
    rewrite Qred_correct.
    split; [exact R0 |]. split; [exact R1 |].
    assert (Hhalf : (2 ^ e * (1 # 2) <= 1 # 9007199254740992)%Q).
    { setoid_replace (1 # 9007199254740992)%Q
        with ((1 # 4503599627370496) * (1 # 2))%Q by reflexivity. nra. }
    split; nra.
Qed.

(** The level computed from a sum of [n] bytes: the rounded quotient, left
    as it is by the clamp, within 2^-53 of the exact one. *)
Lemma level_clamped (sum n : Z) :
  0 <= sum <= 255 * n -> 0 < n ->
  exists c,
    Math_max MIN_VOLUME
      (Math_min MAX_VOLUME
         (binary64 (inject_Z sum / inject_Z (n * BYTE_MAX))))
    = Fin c
    /\ binary64 (inject_Z sum / inject_Z (n * BYTE_MAX)) = Fin c
    /\ (0 <= c)%Q /\ (c <= 1)%Q
    /\ ((inject_Z sum / inject_Z n) / inject_Z 255
        - (1 # 9007199254740992) <= c)%Q
    /\ (c <= (inject_Z sum / inject_Z n) / inject_Z 255
             + (1 # 9007199254740992))%Q.
Proof.
  intros Hs Hn. unfold BYTE_MAX.
  set (avg := (inject_Z sum / inject_Z (n * 255))%Q).
  assert (Hpos : (0 < inject_Z (n * 255))%Q).
  { change 0%Q with (inject_Z 0). rewrite <- Zlt_Qlt. lia. }
  assert (H0 : (0 <= avg)%Q).
  { apply Qle_shift_div_l; [exact Hpos |].
    rewrite Qmult_0_l. change 0%Q with (inject_Z 0).
    rewrite <- Zle_Qle. lia. }
  assert (H1 : (avg <= 1)%Q).
  { apply Qle_shift_div_r; [exact Hpos |].
    rewrite Qmult_1_l. rewrite <- Zle_Qle. lia. }
  assert (Havg : (avg == (inject_Z sum / inject_Z n) / inject_Z 255)%Q).
  { unfold avg. rewrite inject_Z_mult. field.
    intros E. unfold Qeq in E. simpl in E. lia. }
  destruct (binary64_unit avg H0 H1) as (r & Er & Rc & R0 & R1 & Rlo & Rhi).
  exists r. rewrite Er. unfold MIN_VOLUME, MAX_VOLUME. cbn [Math_min Math_max].
  rewrite <- Havg.
  split; [| repeat split; assumption].
  assert (Hmin : (if Qle_bool 1 r then 1%Q else r) = r).
  { destruct (Qle_bool 1 r) eqn:E1; [| reflexivity].
    apply Qle_bool_iff in E1.
    assert (E : (r == 1)%Q) by (apply Qle_antisym; assumption).
    rewrite <- Rc. exact (eq_sym (Qred_complete _ _ E)). }
  rewrite Hmin. apply Qle_bool_iff in R0. now rewrite R0.
Qed.

(** C9, as stated, fails: after a first reading created the tap, a
    manager whose room was taken away has no microphone source to look up,
    yet the getter keeps reading the tap it holds and returns its level. *)
Lemma getInputVolume_reads_cached_tap :
  reachable cachedTapState
  /\ microphoneSource cachedTapState = None
  /\ outcome getInputVolume cachedTapState = Ok (Fin (1 # 2))
  /\ outcome getInputVolume cachedTapState <> Ok (Fin 0).
Proof.
  split; [apply reachable_performAll, reachable_new |].
  split; [vm_compute; reflexivity |].
  split; [vm_compute; reflexivity |].
  vm_compute. discriminate.
Qed.

(** C9, amended: the input-level getter returns normally in every state.
    It returns 0 when no tap was created by an earlier call and no audio
    context can be built or the room yields no microphone track, and
    altogether whenever there is no tap to read or its bins cannot be read;
    a tap created earlier is read again; when bins are read, the getter
    returns 0 for an empty bin array and otherwise the quotient of the sum
    of the bin bytes by 255 times their number, rounded to binary64: a
    value within [0,1] and within 2^-53 of the average of the bytes
    divided by 255. *)
Theorem getInputVolume_level (s : State) :
  exists q : Q,
    outcome getInputVolume s = Ok (Fin q)
    /\ (0 <= q)%Q /\ (q <= 1)%Q
    /\ (inputAnalyser s = None ->
        contextAvailable s = false \/ microphoneSource s = None ->
        q = 0%Q)
    /\ (inputTap s = None -> q = 0%Q)
    /\ (forall a, inputTap s = Some a -> binsOf a = None -> q = 0%Q)
    /\ (forall a bins,
          inputTap s = Some a -> binsOf a = Some bins ->
          (bins = [] -> q = 0%Q)
          /\ (bins <> [] ->
              Fin q = binary64 (inject_Z (byteSum bins)
                                / inject_Z (Z.of_nat (List.length bins) * 255))
              /\ (averageLevel bins - (1 # 9007199254740992) <= q)%Q
              /\ (q <= averageLevel bins + (1 # 9007199254740992))%Q)).
Proof.
  rewrite getInputVolume_outcome.
  assert (NoTap : inputAnalyser s = None ->
                  contextAvailable s = false \/ microphoneSource s = None ->
                  inputTap s = None).
  { intros Hi [Hc | Hm]; unfold inputTap; rewrite Hi.
    - now rewrite Hc.
    - rewrite Hm. now destruct (contextAvailable s). }
  destruct (inputTap s) as [a |] eqn:T.
  - destruct (binsOf a) as [bins |] eqn:B.
    + destruct bins as [| b bins].
      * exists 0%Q. cbn [List.length Nat.eqb].
        split; [reflexivity |].
        split; [apply Qle_refl |]. split; [discriminate |].
        split; [intros Hi Hx; specialize (NoTap Hi Hx); discriminate |].
        split; [discriminate |].
        split; [reflexivity |].
        intros a' bins' Ea Eb. injection Ea as <-.
        rewrite B in Eb. injection Eb as <-.
        split; [reflexivity | congruence].
      * set (l := b :: bins) in *.
        assert (Hlen : (0 < Z.of_nat (List.length l))%Z)
          by (subst l; cbn [List.length]; lia).
        destruct (level_clamped (byteSum l) (Z.of_nat (List.length l))
                    (byteSum_bounds l) Hlen)
          as (c & Ec & Er & Hc0 & Hc1 & Hlo & Hhi).
        exists c.
        replace (Nat.eqb (List.length l) 0) with false
          by (subst l; reflexivity).
        rewrite Ec.
        split; [reflexivity |].
        split; [exact Hc0 |]. split; [exact Hc1 |].
        split; [intros Hi Hx; specialize (NoTap Hi Hx); discriminate |].
        split; [discriminate |].
        split; [intros a' Ea Eb; injection Ea as <-; congruence |].
        intros a' bins' Ea Eb. injection Ea as <-.
        rewrite B in Eb. injection Eb as <-.
        split; [subst l; discriminate |].
        intros _. split; [symmetry; exact Er |].
        unfold averageLevel. split; assumption.
    + exists 0%Q.
      split; [reflexivity |].
      split; [apply Qle_refl |]. split; [discriminate |].
      split; [intros Hi Hx; specialize (NoTap Hi Hx); discriminate |].
      split; [discriminate |].
      split; [reflexivity |].
      intros a' bins' Ea Eb. injection Ea as <-.
      rewrite B in Eb. discriminate.
  - exists 0%Q.
    split; [reflexivity |].
    split; [apply Qle_refl |]. split; [discriminate |].
    split; [reflexivity |]. split; [reflexivity |].
    split; [discriminate |].
    intros a' bins' Ea. discriminate.
Qed.

Lemma getInputVolume_level_witness :
  exists q : Q,
    outcome getInputVolume demoState = Ok (Fin q) /\ q = (1 # 2)%Q.
Proof.
  destruct (getInputVolume_level demoState)
    as (q & Ho & _ & _ & _ & _ & _ & Hb).
  exists q. split; [exact Ho |].
  destruct (Hb {| frequencyBinCount := 4;
                  byteFrequencyData :=
                    Some [Byte.xff; Byte.x00; Byte.x80; Byte.x7f] |}
               [Byte.xff; Byte.x00; Byte.x80; Byte.x7f]
               eq_refl eq_refl) as [_ Havg].
  destruct (Havg ltac:(discriminate)) as [E _].
  assert (V : binary64 (inject_Z (byteSum [Byte.xff; Byte.x00; Byte.x80;
                                           Byte.x7f])
                        / inject_Z (Z.of_nat 4 * 255))
              = Fin (1 # 2)) by (vm_compute; reflexivity).
  cbn [List.length] in E. rewrite V in E. now injection E.
Defined.

(** The quotient is rounded: for the bins 1, 0, 0 the level is the binary64
    value 6028347736506389 / 2^62 and not the rational 1/765. *)
Example getInputVolume_rounds :
  let tap := {| frequencyBinCount := 3;
                byteFrequencyData := Some [Byte.x01; Byte.x00; Byte.x00] |} in
  let s := with_inputAnalyser (Some tap) demoState in
  outcome getInputVolume s
  = Ok (Fin (6028347736506389 # 4611686018427387904))
  /\ (averageLevel [Byte.x01; Byte.x00; Byte.x00] == 1 # 765)%Q
  /\ ~ (6028347736506389 # 4611686018427387904 == 1 # 765)%Q.
Proof.
  cbv zeta. split; [vm_compute; reflexivity |].
  split; [reflexivity | discriminate].
Qed.

(** ** C10 and C3: arming the capture *)

Lemma keeps_armed_setupExistingTrackCapture (P : _ -> Prop) :
  keeps (fun s => (audioCaptureEnabled s, audioCaptureOptions s)) P
        setupExistingTrackCapture.
Proof. unfold setupExistingTrackCapture. keeps_fields. Qed.

(** C10, as stated, fails: given a chunk size of 0, the stored chunk size
    is 100 and not the given value. *)
Lemma enableAudioCapture_zero_chunk_is_replaced :
  opt_or (callback zeroChunkOptions) (onData zeroChunkOptions)
  = Some {| cbId := 2 |}
  /\ outcome (enableAudioCapture zeroChunkOptions) demoState = Ok tt
  /\ audioCaptureOptions (post (enableAudioCapture zeroChunkOptions) demoState)
     <> Some (normalized_spec zeroChunkOptions {| cbId := 2 |}).
Proof.
  split; [reflexivity |]. split; [vm_compute; reflexivity |].
  vm_compute. discriminate.
Qed.

(** C10, amended: when the options carry a delivery function under
    [callback] or, failing that, under [onData], the call stores
    {source: given or 'agent', trackSourceFilter: given or 'microphone',
    format: given or 'opus-webm', chunkSize: given unless absent, 0 or NaN,
    then 100, bufferSize: given unless absent, 0 or NaN, then 2048,
    callback} and sets the capture-enabled flag.  Any other number is
    stored as given, be it negative, fractional or infinite. *)
Theorem enableAudioCapture_normalizes (s : State)
    (options : AudioCaptureOptions) (cb : Callback) :
  opt_or (callback options) (onData options) = Some cb ->
  audioCaptureEnabled (post (enableAudioCapture options) s) = true
  /\ audioCaptureOptions (post (enableAudioCapture options) s)
     = Some {| source := Some (givenOr (source options) SrcAgent);
               trackSourceFilter :=
                 Some (givenOr (trackSourceFilter options) FilterMicrophone);
               format := Some (givenOr (format options) OpusWebm);
               chunkSize :=
                 Some (match chunkSize options with
                       | Some (Fin q) =>
                           if Qeq_bool q 0 then Fin 100 else Fin q
                       | Some NaN | None => Fin 100
                       | Some PosInf => PosInf
                       | Some NegInf => NegInf
                       end);
               bufferSize :=
                 Some (match bufferSize options with
                       | Some (Fin q) =>
                           if Qeq_bool q 0 then Fin 2048 else Fin q
                       | Some NaN | None => Fin 2048
                       | Some PosInf => PosInf
                       | Some NegInf => NegInf
                       end);
               callback := Some cb;
               onData := None |}.
Proof.
  intros Hcb. unfold enableAudioCapture. rewrite Hcb.
  rewrite post_bind. cbn [modify]. rewrite post_bind. cbn [modify].
  pose proof (keeps_armed_setupExistingTrackCapture (fun _ => True)) as K.
  match goal with
  | |- context [post setupExistingTrackCapture ?st] =>
      specialize (K st I)
  end.
  cbn beta in K. injection K as K1 K2.
  rewrite K1, K2. split; [reflexivity |].
  unfold opt_num_or, falsy, givenOr, DEFAULT_CHUNK_SIZE, DEFAULT_BUFFER_SIZE.
  destruct (chunkSize options) as [[qc | | |] |],
           (bufferSize options) as [[qb | | |] |];
    try destruct (Qeq_bool qc 0); try destruct (Qeq_bool qb 0); reflexivity.
Qed.

Lemma enableAudioCapture_normalizes_witness :
  opt_or (callback zeroChunkOptions) (onData zeroChunkOptions)
  = Some {| cbId := 2 |}
  /\ audioCaptureEnabled (post (enableAudioCapture zeroChunkOptions) demoState)
     = true
  /\ audioCaptureOptions (post (enableAudioCapture zeroChunkOptions) demoState)
     = Some {| source := Some SrcAgent;
               trackSourceFilter := Some FilterMicrophone;
               format := Some OpusWebm;
               chunkSize := Some (Fin 100);
               bufferSize := Some (Fin 2048);
               callback := Some {| cbId := 2 |};
               onData := None |}.
Proof.
  split; [reflexivity |].
  exact (enableAudioCapture_normalizes demoState zeroChunkOptions
           {| cbId := 2 |} eq_refl).
Defined.

(** Without a delivery function the call throws and leaves the whole
    state, the trace of events included, as it was. *)
Lemma enableAudioCapture_requires_callback (s : State)
    (options : AudioCaptureOptions) :
  callback options = None -> onData options = None ->
  exists msg, enableAudioCapture options s = (Raised (JsError msg), s).
Proof.
  intros H1 H2. unfold enableAudioCapture. rewrite H1, H2.
  eexists. reflexivity.
Qed.

(** C3: the claim is right and the code departs from it.  With a delivery
    function in the options, a registered agent stream, no Web Audio and no
    ['error'] listener, [enableAudioCapture] throws the error of the failed
    PCM set-up, after it has armed the capture and created a session and a
    clone; the encoded set-up does the same in a browser without
    [MediaRecorder]. *)
Theorem enableAudioCapture_rethrows_setup_failure :
  opt_or (callback pcmOptions) (onData pcmOptions) = Some {| cbId := 3 |}
  /\ outcome (enableAudioCapture pcmOptions) noWebAudioState
     = Raised (JsError ("Failed to setup PCM audio capture: "
                        ++ "WebAudio is not supported in this environment"))
  /\ audioCaptureEnabled noWebAudioState = false
  /\ audioCaptureEnabled (post (enableAudioCapture pcmOptions) noWebAudioState)
     = true
  /\ JsMap.has "TR_agent"
       (trackCaptureMap (post (enableAudioCapture pcmOptions) noWebAudioState))
     = true
  /\ clonesOf "TR_agent"
       (trace (post (enableAudioCapture pcmOptions) noWebAudioState))
     = 1%nat
  /\ opt_or (callback demoOptions) (onData demoOptions) = Some {| cbId := 1 |}
  /\ outcome (enableAudioCapture demoOptions) noRecorderState
     = Raised (JsError ("Failed to setup encoded audio capture: "
                        ++ "MediaRecorder is not defined")).
Proof. vm_compute. repeat split; reflexivity. Qed.

(** ** C4: the volume *)

Lemma with_heap_same (s : State) : with_heap (heap s) s = s.
Proof. destruct s; reflexivity. Qed.

Lemma emit_run (ev : EventName) (p : Payload) (s : State) :
  exists o, emit ev p s = (o, with_trace (trace s ++ [Emitted ev p]) s).
Proof.
  exists (fst (emit ev p s)).
  rewrite <- emit_post. unfold post. apply surjective_pairing.
Qed.

Lemma setVolume_loop (ids : list nat) (s : State) :
  forEach ids (fun id => vol <- gets volume ;;
                         updateElement id (with_elVolume vol)) s
  = (Ok tt, with_heap (applyVolume ids (volume s) (heap s)) s).
Proof.
  revert s. induction ids as [| id ids IH]; intros s.
  - cbn. now rewrite with_heap_same.
  - cbn [forEach]. unfold bind at 1. unfold bind at 1. cbn [gets].
    rewrite updateElement_run, IH. destruct s; reflexivity.
Qed.

Lemma applyVolume_ids (ids : list nat) (vol : number) (h : list AudioElement) :
  map elId (applyVolume ids vol h) = map elId h.
Proof.
  unfold applyVolume. revert h. induction ids as [| id ids IH]; intros h.
  - reflexivity.
  - cbn [fold_left]. rewrite IH, map_map. apply map_ext.
    intros e. now destruct (Nat.eqb (elId e) id).
Qed.

Lemma applyVolume_sets (ids : list nat) (vol : number) :
  forall (h : list AudioElement) (e : AudioElement),
    In e (applyVolume ids vol h) ->
    (In (elId e) ids -> elVolume e = vol)
    /\ (~ In (elId e) ids -> In e h).
Proof.
  unfold applyVolume. induction ids as [| id ids IH]; intros h e Hin.
  - cbn in *. split; [contradiction | auto].
  - cbn [fold_left] in Hin. destruct (IH _ e Hin) as [Hset Hkeep].
    split.
    + intros [Hid | Hi]; [| now apply Hset].
      destruct (in_dec Nat.eq_dec (elId e) ids) as [Hi | Hn];
        [now apply Hset |].
      apply Hkeep in Hn. apply in_map_iff in Hn.
      destruct Hn as (e0 & E & _). revert E.
      destruct (Nat.eqb (elId e0) id) eqn:Q; intros E; subst e.
      * reflexivity.
      * rewrite Hid, Nat.eqb_refl in Q. discriminate.
    + intros Hn.
      assert (Hn' : ~ In (elId e) ids) by (intros Hi; apply Hn; now right).
      apply Hkeep in Hn'. apply in_map_iff in Hn'.
      destruct Hn' as (e0 & E & Hin0). revert E.
      destruct (Nat.eqb (elId e0) id) eqn:Q; intros E; subst e.
      * exfalso. apply Hn. left. apply Nat.eqb_eq in Q. now rewrite <- Q.
      * exact Hin0.
Qed.

(** The state [setVolume] leaves, whatever the listeners do: the volume is
    stored, every live element has it, and a VolumeChanged event with the
    stored value was emitted. *)
Lemma setVolume_state (v : number) (s : State) :
  let stored :=
    if Number_isFinite v
    then Math_min MAX_VOLUME (Math_max MIN_VOLUME v) else DEFAULT_VOLUME in
  exists tail,
    volume (post (setVolume v) s) = stored
    /\ heap (post (setVolume v) s)
       = applyVolume (audioElements s) stored (heap s)
    /\ audioElements (post (setVolume v) s) = audioElements s
    /\ trace (post (setVolume v) s)
       = (trace s ++ Emitted EvVolumeChanged (PNumber stored) :: tail)%list
    /\ (tail = [] \/ exists msg, tail = [Emitted EvError (PError msg)])
    /\ (outcome (setVolume v) s = Ok tt
        \/ (tail <> [] /\ exists e, outcome (setVolume v) s = Raised e)).
Proof.
  intros stored. unfold setVolume, post, outcome.
  set (s1 := with_volume stored s).
  assert (E1 : (if Number_isFinite v
                then modify (with_volume
                               (Math_min MAX_VOLUME (Math_max MIN_VOLUME v)))
                else modify (with_volume DEFAULT_VOLUME)) s = (Ok tt, s1)).
  { subst s1 stored. now destruct (Number_isFinite v). }
  erewrite try_bind_ok by exact E1.
  erewrite try_bind_ok by (cbn [gets]; reflexivity).
  erewrite try_bind_ok by apply setVolume_loop.
  erewrite try_bind_ok by (cbn [gets]; reflexivity).
  set (s2 := with_heap _ s1).
  unfold try_catch.
  destruct (emit_run EvVolumeChanged (PNumber (volume s2)) s2) as (o & ->).
  destruct o as [[] | e].
  - exists []. cbn [fst snd].
    subst s2 s1. destruct s; cbn. repeat split; auto.
  - set (s3 := with_trace _ s2).
    destruct (emit_run EvError
                (PError ("Failed to set volume: " ++ message e)) s3)
      as (o' & ->).
    eexists [_]. cbn [fst snd].
    subst s3 s2 s1. destruct s; cbn.
    rewrite <- app_assoc. cbn [app].
    repeat split; eauto.
    destruct o' as [[] | e']; [now left | right].
    split; [discriminate | eauto].
Qed.

(** The stored volume is the clamp of a finite argument and 0 otherwise. *)
Lemma setVolume_stored (v : number) (s : State) :
  exists c : Q,
    volume (post (setVolume v) s) = Fin c
    /\ (0 <= c)%Q /\ (c <= 1)%Q
    /\ (forall q, v = Fin q -> (c == clampQ 0 1 q)%Q)
    /\ (Number_isFinite v = false -> c = 0%Q).
Proof.
  destruct (setVolume_state v s) as (tail & -> & _).
  destruct v as [q | | |];
    try (exists 0%Q; cbn; repeat split;
         [apply Qle_refl | discriminate | discriminate]).
  cbn [Number_isFinite]. unfold MAX_VOLUME, MIN_VOLUME.
  cbn [Math_max Math_min]. unfold clampQ.
  destruct (Qle_bool 0 q) eqn:E0.
  - destruct (Qle_bool 1 q) eqn:E1.
    + exists 1%Q. split; [reflexivity |].
      split; [discriminate |]. split; [apply Qle_refl |].
      split; [| discriminate].
      intros q' [= <-]. rewrite E1.
      destruct (Qle_bool q 0) eqn:E2; [| reflexivity].
      apply Qle_bool_iff in E1, E2. exfalso.
      assert (H : (1 <= 0)%Q) by (eapply Qle_trans; eassumption).
      apply H. reflexivity.
    + exists q. split; [reflexivity |].
      assert (H1 : ~ (1 <= q)%Q) by (rewrite <- Qle_bool_iff; congruence).
      apply Qle_bool_iff in E0.
      split; [exact E0 |].
      split; [apply Qlt_le_weak, Qnot_le_lt, H1 |].
      split; [| discriminate].
      intros q' [= <-]. rewrite E1.
      destruct (Qle_bool q 0) eqn:E2; [| reflexivity].
      apply Qle_bool_iff in E2. now apply Qle_antisym.
  - assert (H0 : ~ (0 <= q)%Q) by (rewrite <- Qle_bool_iff; congruence).
    apply Qnot_le_lt in H0.
    replace (Qle_bool 1 0) with false by reflexivity.
    exists 0%Q. split; [reflexivity |].
    split; [apply Qle_refl |]. split; [discriminate |].
    split; [| discriminate].
    intros q' [= <-].
    assert (E2 : Qle_bool q 0 = true)
      by (apply Qle_bool_iff; now apply Qlt_le_weak).
    now rewrite E2.
Qed.

(** Every live element carries the stored volume after the call. *)
Lemma setVolume_live_elements (v : number) (s : State) (id : nat)
    (e : AudioElement) :
  In id (audioElements s) ->
  findElement id (post (setVolume v) s) = Some e ->
  elVolume e = volume (post (setVolume v) s).
Proof.
  intros Hid Hf.
  destruct (setVolume_state v s) as (tail & Hv & Hh & _).
  rewrite Hv. unfold findElement in Hf. rewrite Hh in Hf.
  apply find_some in Hf. destruct Hf as [Hin Heq].
  apply Nat.eqb_eq in Heq. subst id.
  now apply (applyVolume_sets _ _ _ _ Hin).
Qed.

Lemma callListeners_returning (ls : list Listener) (s : State) :
  (forall l, In l ls -> l = Returns) -> callListeners ls s = (Ok tt, s).
Proof.
  induction ls as [| l ls IH]; intros H; [reflexivity |].
  rewrite (H l (or_introl eq_refl)). cbn. apply IH.
  intros l' Hl. apply H. now right.
Qed.

(** When no ['volumeChanged'] listener throws, [setVolume] returns and the
    one event it emits is VolumeChanged with the stored value. *)
Lemma setVolume_success (v : number) (s : State) :
  (forall l, In l (listeners s EvVolumeChanged) -> l = Returns) ->
  outcome (setVolume v) s = Ok tt
  /\ trace (post (setVolume v) s)
     = (trace s
        ++ [Emitted EvVolumeChanged (PNumber (volume (post (setVolume v) s)))])
       %list.
Proof.
  intros Hl.
  assert (E : forall st p,
             listeners st = listeners s ->
             emit EvVolumeChanged p st
             = (Ok tt, with_trace (trace st ++ [Emitted EvVolumeChanged p]) st)).
  { intros st p Hst. unfold emit, bind. cbn [effect modify gets].
    cbn [listeners with_trace]. rewrite Hst.
    apply callListeners_returning. exact Hl. }
  unfold setVolume, post, outcome.
  set (stored := if Number_isFinite v
                 then Math_min MAX_VOLUME (Math_max MIN_VOLUME v)
                 else DEFAULT_VOLUME).
  assert (E1 : (if Number_isFinite v
                then modify (with_volume
                               (Math_min MAX_VOLUME (Math_max MIN_VOLUME v)))
                else modify (with_volume DEFAULT_VOLUME)) s
               = (Ok tt, with_volume stored s)).
  { subst stored. now destruct (Number_isFinite v). }
  erewrite try_bind_ok by exact E1.
  erewrite try_bind_ok by (cbn [gets]; reflexivity).
  erewrite try_bind_ok by apply setVolume_loop.
  erewrite try_bind_ok by (cbn [gets]; reflexivity).
  unfold try_catch. rewrite E by (destruct s; reflexivity).
  cbn [fst snd]. destruct s; split; reflexivity.
Qed.

(** C4: the claim is right and the code departs from it.  With a
    ['volumeChanged'] listener that throws and no ['error'] listener,
    [setVolume(0.5)] stores 0.5 and then throws: the ['error'] event by
    which the failure is reported is itself unhandled. *)
Theorem setVolume_throws_unhandled :
  outcome (setVolume (Fin (1 # 2))) unguardedState
  = Raised (JsError ("Failed to set volume: " ++ "slider update failed"))
  /\ volume (post (setVolume (Fin (1 # 2))) unguardedState) = Fin (1 # 2)
  /\ trace (post (setVolume (Fin (1 # 2))) unguardedState)
     = [Emitted EvVolumeChanged (PNumber (Fin (1 # 2)));
        Emitted EvError
          (PError ("Failed to set volume: " ++ "slider update failed"))].
Proof. vm_compute. repeat split; reflexivity. Qed.

(** The microphone path guards the same report: without an ['error']
    listener [#emitMicEventSafely] returns whatever its listeners do. *)
Lemma emitMicEventSafely_guarded (ev : EventName) (muted : bool) (s : State) :
  listeners s EvError = [] ->
  outcome (emitMicEventSafely ev muted) s = Ok tt.
Proof.
  intros He. unfold emitMicEventSafely, outcome, try_catch.
  destruct (emit_run ev PNone s) as (o & ->).
  destruct o as [[] | e]; [reflexivity |].
  unfold bind, listenerCount. cbn [gets listeners with_trace].
  rewrite He. reflexivity.
Qed.

(** ** Facts about maps *)

Lemma JsMap_has_count {V : Type} (k : string) (m : JsMap.t V) :
  JsMap.has k m = false -> JsMap.count k m = 0%nat.
Proof.
  unfold JsMap.has, JsMap.count.
  induction m as [| [k' v] m IH]; cbn; [reflexivity |].
  destruct (String.eqb k k'); [discriminate | exact IH].
Qed.


Lemma JsMap_has_set_same {V : Type} (k : string) (v : V) (m : JsMap.t V) :
  JsMap.has k (JsMap.set k v m) = true.
Proof.
  unfold JsMap.has. induction m as [| [k' v'] m IH]; cbn.
  - now rewrite String.eqb_refl.
  - destruct (String.eqb k k') eqn:E; cbn.
    + now rewrite String.eqb_refl.
    + rewrite E. exact IH.
Qed.

Lemma JsMap_get_set_other {V : Type} (k k' : string) (v : V) (m : JsMap.t V) :
  k <> k' -> JsMap.get k (JsMap.set k' v m) = JsMap.get k m.
Proof.
  intros Hne. apply String.eqb_neq in Hne.
  induction m as [| [k0 v0] m IH]; cbn.
  - now rewrite Hne.
  - destruct (String.eqb k' k0) eqn:E; cbn.
    + apply String.eqb_eq in E. subst k0. now rewrite Hne.
    + now rewrite IH.
Qed.

Lemma clonesOf_snoc_other (trackId : string) (tr : list Effect) (e : Effect) :
  match e with
  | ClonedTrack t _ => String.eqb t trackId
  | _ => false
  end = false ->
  clonesOf trackId (tr ++ [e]) = clonesOf trackId tr.
Proof.
  intros H. unfold clonesOf. rewrite filter_app. cbn [filter].
  rewrite H, app_nil_r. reflexivity.
Qed.


Lemma created_snoc_other (tr : list Effect) (e : Effect) :
  createsResource e = false ->
  filter createsResource (tr ++ [e]) = filter createsResource tr.
Proof.
  intros H. rewrite filter_app. cbn [filter]. rewrite H. apply app_nil_r.
Qed.

Arguments clonesOf : simpl never.

(** Field updates and effects that leave a view alone. *)
Ltac view_leaf :=
  cbv [sessionView armingView captureView streamView]; cbn;
  rewrite ?clonesOf_snoc_other, ?created_snoc_other by reflexivity;
  reflexivity.


(** ** C1: one capture session and one clone per stream *)








(** ** The capture maps move together *)

Section Maintains.
Context (I : State -> Prop).

Lemma maintains_ret {X : Type} (x : X) : maintains I (ret x).
Proof. intros s H. exact H. Qed.

Lemma maintains_bind {X Y : Type} (m : M X) (k : X -> M Y) :
  maintains I m -> (forall x, maintains I (k x)) -> maintains I (bind m k).
Proof.
  intros Hm Hk s Hs. rewrite post_bind.
  specialize (Hm s Hs). unfold post in Hm.
  destruct (m s) as [[a | e] s']; cbn [snd] in Hm.
  - now apply Hk.
  - exact Hm.
Qed.

Lemma maintains_forEach {X : Type} (l : list X) (f : X -> M unit) :
  (forall x, maintains I (f x)) -> maintains I (forEach l f).
Proof.
  intros Hf. induction l as [| x l IH]; cbn [forEach].
  - apply maintains_ret.
  - apply maintains_bind; [apply Hf | intros _; exact IH].
Qed.

End Maintains.












(** ** C7: the capture filter *)

Lemma str_or_empty (s : string) : str_or s "" = s.
Proof. unfold str_or. destruct s; reflexivity. Qed.

(** With [source = 'agent'] stored, the set-up hook does nothing for a
    participant whose identity does not contain "agent". *)
Lemma keeps_armingView_rejected track p :
  isAgent (identity p) = false ->
  keeps armingView
        (fun v => exists o, snd (fst v) = Some o /\ source o = Some SrcAgent)
        (setupAudioCaptureIfEnabled track p).
Proof.
  intros Hp s (o & Ho & Hs). cbn in Ho.
  unfold post, setupAudioCaptureIfEnabled, bind. cbn [gets].
  rewrite Ho. destruct (audioCaptureEnabled s); [| reflexivity].
  rewrite Hs, str_or_empty. unfold roleOf. rewrite Hp. reflexivity.
Qed.

Lemma keeps_armingView_subscribed track pub p :
  isAgent (identity p) = false ->
  keeps armingView
        (fun v => exists o, snd (fst v) = Some o /\ source o = Some SrcAgent)
        (handleTrackSubscribed track pub p)
  /\ keeps armingView
        (fun v => exists o, snd (fst v) = Some o /\ source o = Some SrcAgent)
        (handleLocalTrackPublished track pub p).
Proof.
  intros Hp.
  pose proof (keeps_armingView_rejected track p Hp) as K.
  split.
  - unfold handleTrackSubscribed, setupAudioElement.
    keeps_auto ltac:(view_leaf).
  - unfold handleLocalTrackPublished. keeps_auto ltac:(view_leaf).
Qed.

Lemma keeps_forEach_in {V X : Type} (v : State -> V) (P : V -> Prop)
    (l : list X) (f : X -> M unit) :
  (forall x, In x l -> keeps v P (f x)) -> keeps v P (forEach l f).
Proof.
  induction l as [| x l IH]; intros Hf; cbn [forEach].
  - apply keeps_ret.
  - apply keeps_bind.
    + apply Hf. now left.
    + intros _. apply IH. intros y Hy. apply Hf. now right.
Qed.

(** A set-up for another stream leaves the session and the clones of
    [trackId] alone. *)
Lemma keeps_streamView_other trackId id' p r f :
  trackId <> id' ->
  keeps (streamView trackId) (fun _ => True) (setupTrackCapture id' p r f).
Proof.
  intros Hne.
  assert (Hb : String.eqb id' trackId = false)
    by (apply String.eqb_neq; congruence).
  unfold setupTrackCapture.
  keeps_auto ltac:(
    cbv [streamView]; cbn;
    rewrite ?(JsMap_get_set_other trackId id') by exact Hne;
    rewrite ?clonesOf_snoc_other by (first [reflexivity | exact Hb]);
    reflexivity).
Qed.

(** C7: with [source = 'agent'] stored, a subscription or a local
    publication by a participant whose identity does not contain "agent"
    in any letter case leaves the capture map, the clones and every other
    capture resource as they were; and arming the capture with
    [source = 'agent'] creates no session and no clone for a stream that
    the registry lists only under such participants. *)
Theorem capture_filter_agent_only :
  (forall (s : State) (track : Track) (pub : Publication) (p : Participant)
          (o : AudioCaptureOptions),
      audioCaptureOptions s = Some o ->
      source o = Some SrcAgent ->
      isAgent (identity p) = false ->
      captureView (post (handleTrackSubscribed track pub p) s)
      = captureView s
      /\ captureView (post (handleLocalTrackPublished track pub p) s)
         = captureView s)
  /\ (forall (s : State) (options : AudioCaptureOptions) (cb : Callback)
             (trackId : string),
        opt_or (callback options) (onData options) = Some cb ->
        givenOr (source options) SrcAgent = SrcAgent ->
        (forall d, In (trackId, d) (JsMap.entries (trackStats s)) ->
                   isAgent (tsParticipant d) = false) ->
        JsMap.get trackId
          (trackCaptureMap (post (enableAudioCapture options) s))
        = JsMap.get trackId (trackCaptureMap s)
        /\ clonesOf trackId (trace (post (enableAudioCapture options) s))
           = clonesOf trackId (trace s)).
Proof.
  split.
  - intros s track pub p o Ho Hs Hp.
    destruct (keeps_armingView_subscribed track pub p Hp) as [K1 K2].
    assert (HP : exists o', snd (fst (armingView s)) = Some o'
                            /\ source o' = Some SrcAgent)
      by (exists o; split; assumption).
    specialize (K1 s HP). specialize (K2 s HP).
    apply (f_equal (fun v => fst (fst v))) in K1, K2.
    now split.
  - intros s options cb trackId Hcb Hsrc Hreg. unfold givenOr in Hsrc.
    unfold enableAudioCapture. rewrite Hcb.
    rewrite post_bind. cbn [modify]. rewrite post_bind. cbn [modify].
    unfold setupExistingTrackCapture.
    rewrite post_bind. cbn [gets audioCaptureOptions with_audioCaptureOptions].
    cbn [format]. rewrite post_bind.
    cbn [gets trackStats with_audioCaptureOptions with_audioCaptureEnabled].
    match goal with
    | |- context [post (forEach ?l ?f) ?st] =>
        assert (K : keeps (streamView trackId) (fun _ => True) (forEach l f))
    end.
    { apply keeps_forEach_in. intros [id' d] Hin. cbn [fst snd source].
      rewrite Hsrc.
      destruct (string_dec trackId id') as [<- | Hne].
      - unfold roleOf. rewrite (Hreg d Hin). cbn. apply keeps_ret.
      - destruct (sourceRejects _ _); [apply keeps_ret |].
        destruct (filterRejects _ _); [apply keeps_ret |].
        now apply keeps_streamView_other. }
    match goal with
    | |- context [post _ ?st] => specialize (K st I)
    end.
    split.
    + exact (f_equal svSession K).
    + exact (f_equal svClones K).
Qed.

Lemma capture_filter_agent_only_witness :
  audioCaptureOptions armedState = Some armedOptions
  /\ source armedOptions = Some SrcAgent
  /\ isAgent (identity userParticipant) = false
  /\ captureView
       (post (handleTrackSubscribed userTrack (demoPublication userTrack)
                                    userParticipant) armedState)
     = captureView armedState.
Proof.
  assert (Ho : audioCaptureOptions armedState = Some armedOptions)
    by (vm_compute; reflexivity).
  assert (Hp : isAgent (identity userParticipant) = false)
    by (vm_compute; reflexivity).
  destruct capture_filter_agent_only as [A _].
  destruct (A armedState userTrack (demoPublication userTrack)
              userParticipant armedOptions Ho eq_refl Hp) as [W _].
  exact (conj Ho (conj eq_refl (conj Hp W))).
Defined.

(** *** The role test is a substring test on the lower-cased identity *)

Lemma starts_with_iff (pat s : string) :
  starts_with pat s = true <-> exists rest, s = pat ++ rest.
Proof.
  revert s. induction pat as [| a pat IH]; intros s; cbn.
  - split; [intros _; now exists s | reflexivity].
  - destruct s as [| b s].
    + split; [discriminate | intros [rest H]; discriminate].
    + rewrite andb_true_iff, Ascii.eqb_eq, IH. split.
      * intros [-> [rest ->]]. now exists rest.
      * intros [rest [= -> ->]]. split; [reflexivity | now exists rest].
Qed.

Lemma includes_iff (s pat : string) :
  includes s pat = true <-> exists pre rest, s = pre ++ pat ++ rest.
Proof.
  induction s as [| c s IH].
  - cbn. rewrite orb_false_r, starts_with_iff. split.
    + intros [rest ->]. now exists "", rest.
    + intros [pre [rest H]]. destruct pre; [now exists rest | discriminate].
  - cbn [includes]. rewrite orb_true_iff, starts_with_iff, IH. split.
    + intros [[rest ->] | [pre [rest ->]]].
      * now exists "", rest.
      * now exists (String c pre), rest.
    + intros [pre [rest H]]. destruct pre as [| c' pre].
      * left. now exists rest.
      * right. injection H as -> ->. now exists pre, rest.
Qed.

Lemma isAgent_iff (ident : string) :
  isAgent ident = true
  <-> exists pre rest, toLowerCase ident = pre ++ "agent" ++ rest.
Proof. apply includes_iff. Qed.

Example isAgent_examples :
  isAgent "voice-Agent-7" = true /\ isAgent "AGENT" = true
  /\ isAgent "alice" = false /\ isAgent "" = false
  /\ isAgent "unknown" = false.
Proof. vm_compute. repeat split; reflexivity. Qed.

(** ** With a handled ['error'] event the two calls behave as specified *)

Lemma errorsHandled_listeners (s s' : State) :
  listeners s' = listeners s -> errorsHandled s -> errorsHandled s'.
Proof. unfold errorsHandled. now intros ->. Qed.

Lemma returnsOk_ret {X : Type} (x : X) : returnsOk (ret x).
Proof. intros s H. now exists x, s. Qed.

Lemma returnsOk_gets {X : Type} (f : State -> X) : returnsOk (gets f).
Proof. intros s H. now exists (f s), s. Qed.

Lemma returnsOk_modify (g : State -> State) :
  (forall s, listeners (g s) = listeners s) -> returnsOk (modify g).
Proof.
  intros Hg s H. exists tt, (g s). split; [reflexivity |].
  now apply (errorsHandled_listeners s).
Qed.

Lemma returnsOk_fresh : returnsOk fresh.
Proof.
  intros s H. exists (nextObj s), (with_nextObj (S (nextObj s)) s).
  split; [reflexivity |]. now apply (errorsHandled_listeners s).
Qed.

Lemma returnsOk_bind {X Y : Type} (m : M X) (k : X -> M Y) :
  returnsOk m -> (forall x, returnsOk (k x)) -> returnsOk (bind m k).
Proof.
  intros Hm Hk s H. destruct (Hm s H) as (x & s1 & E & H1).
  destruct (Hk x s1 H1) as (y & s2 & E2 & H2).
  exists y, s2. unfold bind. rewrite E. now split.
Qed.

Lemma returnsOk_forEach {X : Type} (l : list X) (f : X -> M unit) :
  (forall x, returnsOk (f x)) -> returnsOk (forEach l f).
Proof.
  intros Hf. induction l as [| x l IH]; cbn [forEach].
  - apply returnsOk_ret.
  - apply returnsOk_bind; [apply Hf | intros _; exact IH].
Qed.

Lemma returnsOk_try_catch {X : Type} (m : M X) (h : Exn -> M X) :
  keeps listeners (fun _ => True) m ->
  (forall e, returnsOk (h e)) ->
  returnsOk (try_catch m h).
Proof.
  intros Km Hh s H. unfold try_catch.
  pose proof (Km s Logic.I) as L. unfold post in L.
  destruct (m s) as [[x | e] s1]; cbn [snd] in L.
  - exists x, s1. split; [reflexivity |].
    now apply (errorsHandled_listeners s).
  - apply Hh. now apply (errorsHandled_listeners s).
Qed.

Lemma returnsOk_emit_error (p : Payload) : returnsOk (emit EvError p).
Proof.
  intros s H. unfold emit, bind. cbn [effect modify gets listeners with_trace].
  destruct H as [Hne Hall].
  destruct (listeners s EvError) as [| l ls] eqn:E; [congruence |].
  rewrite callListeners_returning by exact Hall.
  eexists tt, _. split; [reflexivity |].
  split; cbn [listeners with_trace]; rewrite E; [discriminate | exact Hall].
Qed.
Ltac returnsOk_step :=
  first
    [ apply returnsOk_ret
    | apply returnsOk_gets
    | apply returnsOk_fresh
    | apply returnsOk_emit_error
    | apply returnsOk_bind; [| intros ?]
    | apply returnsOk_forEach; intros ?
    | apply returnsOk_try_catch; [solve [keeps_fields] | intros ?]
    | apply returnsOk_modify; intros ?; reflexivity
    | match goal with
      | |- returnsOk (match ?x with _ => _ end) => destruct x
      | |- returnsOk (let _ := _ in _) => cbv zeta
      end ].

Lemma returnsOk_setupExistingTrackCapture : returnsOk setupExistingTrackCapture.
Proof.
  unfold setupExistingTrackCapture, setupTrackCapture, setupEncodedCapture,
    setupPCMCapture, log, effect.
  repeat returnsOk_step.
Qed.

(** With an ['error'] listener that returns, [enableAudioCapture] throws
    exactly when the options carry no delivery function. *)
Lemma enableAudioCapture_throws_iff (s : State) (options : AudioCaptureOptions) :
  errorsHandled s ->
  (throws (enableAudioCapture options) s = true
   <-> opt_or (callback options) (onData options) = None).
Proof.
  intros H. unfold throws, outcome, enableAudioCapture.
  destruct (opt_or (callback options) (onData options)) as [cb |].
  - assert (R : returnsOk
                  (modify (with_audioCaptureEnabled true) ;;
                   modify (with_audioCaptureOptions (Some
                     {| source := Some (match source options with
                                        | Some x => x | None => SrcAgent end);
                        trackSourceFilter :=
                          Some (match trackSourceFilter options with
                                | Some x => x | None => FilterMicrophone end);
                        format := Some (match format options with
                                        | Some x => x
                                        | None => DEFAULT_AUDIO_FORMAT end);
                        chunkSize := Some (opt_num_or (chunkSize options)
                                                      DEFAULT_CHUNK_SIZE);
                        bufferSize := Some (opt_num_or (bufferSize options)
                                                       DEFAULT_BUFFER_SIZE);
                        callback := Some cb;
                        onData := None |})) ;;
                   setupExistingTrackCapture)).
    { pose proof returnsOk_setupExistingTrackCapture as K.
      repeat first [exact K | returnsOk_step]. }
    destruct (R s H) as ([] & s' & -> & _). cbn. split; discriminate.
  - cbn. split; reflexivity.
Qed.

(** With an ['error'] listener that returns, [setVolume] returns whatever
    the other listeners do. *)
Lemma setVolume_returns_when_handled (v : number) (s : State) :
  errorsHandled s -> outcome (setVolume v) s = Ok tt.
Proof.
  intros H.
  assert (R : returnsOk (setVolume v)).
  { unfold setVolume. apply returnsOk_try_catch.
    - keeps_fields.
    - intros e. apply returnsOk_emit_error. }
  unfold outcome. destruct (R s H) as ([] & s' & -> & _). reflexivity.
Qed.

(** ** Further facts *)

(** What the delivery function receives when integer PCM was requested. *)
Lemma pcmOutput_int16 (audioData : list Q) :
  pcmOutput PcmI16 (map Fin audioData)
  = Int16Buffer
      (map (fun s => Qtrunc (clampQ (-1 # 1) (1 # 1) s * INT16_SCALE))
           audioData).
Proof.
  unfold pcmOutput. cbn [isPcmI16]. f_equal.
  rewrite float32ToInt16_map, map_map.
  apply map_ext. intros s. apply float32ToInt16_elem_finite.
Qed.

Lemma pcmOutput_float32 (audioData : list number) :
  pcmOutput PcmF32 audioData = Float32Buffer audioData.
Proof. reflexivity. Qed.

(** Every emitted event of a trace is counted under its own name only. *)
Lemma emissions_snoc (ev ev' : EventName) (p : Payload) (tr : list Effect) :
  emissions ev (tr ++ [Emitted ev' p])
  = (emissions ev tr + (if sameEvent ev ev' then 1 else 0))%nat.
Proof.
  unfold emissions. rewrite filter_app, length_app. cbn [filter].
  now destruct (sameEvent ev ev').
Qed.
(** ** The worklet processor keeps the stream *)

Lemma store_length {A : Type} (i : nat) (v : A) (buf : list A) :
  List.length (store i v buf) = List.length buf.
Proof.
  revert i. induction buf as [| x buf IH]; intros [| i]; cbn; auto.
Qed.

Lemma firstn_store {A : Type} (i : nat) (v : A) (buf : list A) :
  (i < List.length buf)%nat ->
  firstn (S i) (store i v buf) = (firstn i buf ++ [v])%list.
Proof.
  revert i. induction buf as [| x buf IH]; intros [| i] H; cbn in *;
    try lia; [reflexivity |].
  f_equal. apply IH. lia.
Qed.

Lemma Qtrunc_inject_Z (z : Z) : Qtrunc (inject_Z z) = z.
Proof. unfold Qtrunc. cbn. apply Z.quot_1_r. Qed.

Lemma slice0_whole {A : Type} (size : Q) (l : list A) :
  (size == inject_Z (Z.of_nat (List.length l)))%Q -> slice0 size l = l.
Proof.
  intros E. unfold slice0.
  rewrite (Qtrunc_comp _ _ E), Qtrunc_inject_Z.
  destruct (Z.ltb_spec (Z.of_nat (List.length l)) 0) as [H | H]; [lia |].
  rewrite Z.min_id, Nat2Z.id. apply firstn_all.
Qed.

Lemma full_iff (size : Q) (n i : nat) :
  (size == inject_Z (Z.of_nat n))%Q ->
  Qle_bool size (inject_Z (Z.of_nat i)) = Nat.leb n i.
Proof.
  intros E. destruct (Nat.leb_spec n i) as [H | H].
  - apply Qle_bool_iff. rewrite E, <- Zle_Qle. lia.
  - destruct (Qle_bool size (inject_Z (Z.of_nat i))) eqn:B; [| reflexivity].
    apply Qle_bool_iff in B. rewrite E, <- Zle_Qle in B. lia.
Qed.

(** One sample: the processor stays well formed, and the posted samples
    followed by the collected ones grow by that sample. *)
Lemma processSample_stream (p : PCMProcessor) (posted : list (list number))
    (x : number) :
  wfProcessor p ->
  Forall (fun m => List.length m = List.length (ppBuffer p)) posted ->
  let '(p', posted') := processSample (p, posted) x in
  wfProcessor p'
  /\ ppBufferSize p' = ppBufferSize p
  /\ List.length (ppBuffer p') = List.length (ppBuffer p)
  /\ Forall (fun m => List.length m = List.length (ppBuffer p)) posted'
  /\ (List.concat posted' ++ pendingSamples p'
      = List.concat posted ++ pendingSamples p ++ [x])%list.
Proof.
  intros [Hsize Hidx] Hposted. unfold processSample.
  assert (F : firstn (S (ppIndex p)) (store (ppIndex p) x (ppBuffer p))
              = (pendingSamples p ++ [x])%list)
    by (apply firstn_store; lia).
  rewrite (full_iff _ _ _ Hsize).
  destruct (Nat.leb (List.length (ppBuffer p)) (S (ppIndex p))) eqn:E.
  - apply Nat.leb_le in E.
    assert (Hfull : List.length (ppBuffer p) = S (ppIndex p)) by lia.
    rewrite slice0_whole by (rewrite store_length; exact Hsize).
    unfold wfProcessor, pendingSamples. cbn [ppIndex ppBuffer ppBufferSize].
    rewrite store_length.
    split; [split; [exact Hsize | lia] |].
    split; [reflexivity |].
    split; [reflexivity |].
    split.
    + apply Forall_app. split; [exact Hposted |].
      constructor; [| constructor]. apply store_length.
    + rewrite concat_app. cbn [List.concat firstn]. rewrite !app_nil_r.
      f_equal. change (firstn (ppIndex p) (ppBuffer p)) with (pendingSamples p).
      rewrite <- F, <- Hfull, <- (store_length (ppIndex p) x (ppBuffer p)).
      rewrite firstn_all. reflexivity.
  - apply Nat.leb_gt in E.
    unfold wfProcessor. cbn [ppIndex ppBuffer ppBufferSize].
    rewrite store_length.
    split; [split; [exact Hsize | lia] |].
    split; [reflexivity |].
    split; [reflexivity |].
    split; [exact Hposted |].
    unfold pendingSamples at 1. cbn [ppIndex ppBuffer]. rewrite F.
    reflexivity.
Qed.

Lemma processSamples_stream (channelData : list number) (p : PCMProcessor)
    (posted : list (list number)) :
  wfProcessor p ->
  Forall (fun m => List.length m = List.length (ppBuffer p)) posted ->
  let '(p', posted') := fold_left processSample channelData (p, posted) in
  wfProcessor p'
  /\ ppBufferSize p' = ppBufferSize p
  /\ List.length (ppBuffer p') = List.length (ppBuffer p)
  /\ Forall (fun m => List.length m = List.length (ppBuffer p)) posted'
  /\ (List.concat posted' ++ pendingSamples p'
      = List.concat posted ++ pendingSamples p ++ channelData)%list.
Proof.
  revert p posted.
  induction channelData as [| x rest IH]; intros p posted Hwf Hposted.
  - cbn [fold_left]. rewrite app_nil_r. auto.
  - cbn [fold_left].
    pose proof (processSample_stream p posted x Hwf Hposted) as S1.
    destruct (processSample (p, posted) x) as [p1 posted1].
    destruct S1 as (Hwf1 & Hsize1 & Hlen1 & Hposted1 & Heq1).
    assert (Hposted1' : Forall (fun m => List.length m
                                         = List.length (ppBuffer p1)) posted1)
      by (rewrite Hlen1; exact Hposted1).
    specialize (IH p1 posted1 Hwf1 Hposted1').
    destruct (fold_left processSample rest (p1, posted1)) as [p2 posted2].
    destruct IH as (Hwf2 & Hsize2 & Hlen2 & Hposted2 & Heq2).
    split; [exact Hwf2 |].
    split; [congruence |].
    split; [congruence |].
    split; [rewrite <- Hlen1; exact Hposted2 |].
    rewrite Heq2, app_assoc, Heq1, <- !app_assoc. reflexivity.
Qed.

Lemma process_stream_step (b : list number) (p : PCMProcessor) :
  wfProcessor p ->
  let '(_, p', posted) := process [[b]] p in
  wfProcessor p'
  /\ ppBufferSize p' = ppBufferSize p
  /\ List.length (ppBuffer p') = List.length (ppBuffer p)
  /\ Forall (fun m => List.length m = List.length (ppBuffer p)) posted
  /\ (List.concat posted ++ pendingSamples p' = pendingSamples p ++ b)%list.
Proof.
  intros Hwf. unfold process.
  pose proof (processSamples_stream b p [] Hwf (Forall_nil _)) as S.
  destruct (fold_left processSample b (p, [])) as [p' posted].
  exact S.
Qed.




Lemma opt_num_or_truthy (x d : number) :
  falsy (opt_num_or (Some x) d) = falsy d && falsy x.
Proof.
  unfold opt_num_or. destruct (falsy x) eqn:E.
  - now rewrite andb_true_r.
  - now rewrite E, andb_false_r.
Qed.

(** A processor that was built has the size it was built for, an empty
    collection and, when that size is a whole number, a buffer of that
    many samples. *)
Lemma newPCMProcessor_wf (allocates : Z -> bool) (bufferSize : number)
    (p : PCMProcessor) :
  newPCMProcessor allocates bufferSize = Some p ->
  opt_num_or (Some bufferSize) DEFAULT_PCM_BUFFER_SIZE = Fin (ppBufferSize p)
  /\ (0 <= Qtrunc (ppBufferSize p) <= 2 ^ 53 - 1)%Z
  /\ allocates (Qtrunc (ppBufferSize p)) = true
  /\ List.length (ppBuffer p) = Z.to_nat (Qtrunc (ppBufferSize p))
  /\ pendingSamples p = []
  /\ forall n : nat,
       (ppBufferSize p == inject_Z (Z.of_nat n))%Q ->
       wfProcessor p /\ List.length (ppBuffer p) = n /\ (0 < n)%nat.
Proof.
  unfold newPCMProcessor.
  pose proof (opt_num_or_truthy bufferSize DEFAULT_PCM_BUFFER_SIZE) as T.
  destruct (opt_num_or (Some bufferSize) DEFAULT_PCM_BUFFER_SIZE)
    as [q | | |]; try discriminate.
  unfold newFloat32Array.
  destruct (Z.ltb_spec (Qtrunc q) 0) as [| Hlo]; [discriminate |].
  destruct (Z.ltb_spec (2 ^ 53 - 1) (Qtrunc q)) as [| Hhi]; [discriminate |].
  destruct (allocates (Qtrunc q)) eqn:Ha; [| discriminate].
  cbn [orb negb]. intros [= <-].
  cbn [ppBuffer ppBufferSize ppIndex]. unfold pendingSamples.
  cbn [ppBuffer ppIndex firstn]. rewrite repeat_length.
  split; [reflexivity |]. split; [lia |]. split; [exact Ha |].
  split; [reflexivity |]. split; [reflexivity |].
  intros n E.
  assert (Hn : Qtrunc q = Z.of_nat n)
    by (rewrite (Qtrunc_comp _ _ E); apply Qtrunc_inject_Z).
  assert (Hpos : (0 < n)%nat).
  { destruct n as [| n]; [exfalso | lia].
    cbn [falsy DEFAULT_PCM_BUFFER_SIZE] in T.
    change (Qeq_bool (4096 # 1) 0) with false in T. cbn [andb] in T.
    apply Qeq_bool_neq in T. apply T. exact E. }
  unfold wfProcessor. cbn [ppBuffer ppBufferSize ppIndex].
  rewrite repeat_length, Hn, Nat2Z.id.
  split; [split; [exact E | exact Hpos] |]. split; [reflexivity | exact Hpos].
Qed.

Lemma feed_stream (blocks : list (list number)) (p : PCMProcessor) :
  wfProcessor p ->
  let '(p', posted) := feed blocks p in
  wfProcessor p'
  /\ ppBufferSize p' = ppBufferSize p
  /\ List.length (ppBuffer p') = List.length (ppBuffer p)
  /\ Forall (fun m => List.length m = List.length (ppBuffer p)) posted
  /\ (List.concat posted ++ pendingSamples p'
      = pendingSamples p ++ List.concat blocks)%list.
Proof.
  revert p. induction blocks as [| b rest IH]; intros p Hwf.
  - cbn. rewrite app_nil_r. auto.
  - cbn [feed].
    pose proof (process_stream_step b p Hwf) as S1.
    destruct (process [[b]] p) as [[alive p1] posted1].
    destruct S1 as (Hwf1 & Hsize1 & Hlen1 & Hposted1 & Heq1).
    specialize (IH p1 Hwf1).
    destruct (feed rest p1) as [p2 posted2].
    destruct IH as (Hwf2 & Hsize2 & Hlen2 & Hposted2 & Heq2).
    split; [exact Hwf2 |].
    split; [congruence |].
    split; [congruence |].
    split; [apply Forall_app; split;
            [exact Hposted1 | rewrite <- Hlen1; exact Hposted2] |].
    cbn [List.concat].
    rewrite concat_app, <- app_assoc, Heq2, app_assoc, Heq1, <- app_assoc.
    reflexivity.
Qed.

Lemma concat_uniform_length {A : Type} (n : nat) (l : list (list A)) :
  Forall (fun m => List.length m = n) l ->
  List.length (List.concat l) = (List.length l * n)%nat.
Proof.
  induction 1 as [| m l Hm _ IH]; cbn; [reflexivity |].
  rewrite length_app, IH, Hm. reflexivity.
Qed.

(** X2: the constructor takes the given size, 0 and [NaN] standing for
    the default 4096, and builds the processor unless that size is
    infinite, truncates to a negative integer or to one above 2^53 - 1,
    or cannot be allocated.  A processor built for a whole size [n] and fed
    the successive blocks of a channel posts the stream cut into
    consecutive messages of exactly [n] samples: the messages concatenated,
    followed by the fewer than [n] samples still collected, are the blocks
    concatenated, and their number is the length of the stream divided by
    [n]. *)
Theorem PCMProcessor_chunks_stream (allocates : Z -> bool)
    (bufferSize : number) (blocks : list (list number)) :
  let size :=
    match bufferSize with
    | Fin q => if Qeq_bool q 0 then Fin 4096 else Fin q
    | NaN => Fin 4096
    | PosInf => PosInf
    | NegInf => NegInf
    end in
  match newPCMProcessor allocates bufferSize with
  | None =>
      forall q, size = Fin q ->
                Qtrunc q < 0 \/ 2 ^ 53 - 1 < Qtrunc q
                \/ allocates (Qtrunc q) = false
  | Some p0 =>
      size = Fin (ppBufferSize p0)
      /\ 0 <= Qtrunc (ppBufferSize p0) <= 2 ^ 53 - 1
      /\ allocates (Qtrunc (ppBufferSize p0)) = true
      /\ List.length (ppBuffer p0) = Z.to_nat (Qtrunc (ppBufferSize p0))
      /\ forall n : nat,
           (ppBufferSize p0 == inject_Z (Z.of_nat n))%Q ->
           let '(p, posted) := feed blocks p0 in
           Forall (fun m => List.length m = n) posted
           /\ (List.concat posted ++ pendingSamples p
               = List.concat blocks)%list
           /\ (List.length (pendingSamples p) < n)%nat
           /\ List.length posted
              = (List.length (List.concat blocks) / n)%nat
  end.
Proof.
  cbv zeta.
  assert (Hsize : opt_num_or (Some bufferSize) DEFAULT_PCM_BUFFER_SIZE
                  = match bufferSize with
                    | Fin q => if Qeq_bool q 0 then Fin 4096 else Fin q
                    | NaN => Fin 4096
                    | PosInf => PosInf
                    | NegInf => NegInf
                    end).
  { unfold opt_num_or, falsy, DEFAULT_PCM_BUFFER_SIZE.
    destruct bufferSize as [q | | |]; reflexivity. }
  rewrite <- Hsize.
  destruct (newPCMProcessor allocates bufferSize) as [p0 |] eqn:E.
  - destruct (newPCMProcessor_wf allocates bufferSize p0 E)
      as (Hq & Hrange & Ha & Hlen & Hpend & Hwhole).
    split; [exact Hq |]. split; [exact Hrange |]. split; [exact Ha |].
    split; [exact Hlen |].
    intros n Hn. destruct (Hwhole n Hn) as (Hwf & Hlen' & Hpos).
    pose proof (feed_stream blocks p0 Hwf) as S.
    destruct (feed blocks p0) as [p posted].
    destruct S as (Hwf' & Hsize' & Hlen'' & Hposted & Heq).
    rewrite Hpend in Heq. cbn [app] in Heq. rewrite Hlen' in Hposted.
    assert (Hlt : (List.length (pendingSamples p) < n)%nat).
    { unfold pendingSamples. rewrite length_firstn.
      destruct Hwf' as [_ Hidx]. lia. }
    split; [exact Hposted |].
    split; [exact Heq |].
    split; [exact Hlt |].
    rewrite <- Heq, length_app, (concat_uniform_length _ _ Hposted).
    rewrite Nat.div_add_l by lia.
    rewrite Nat.div_small by exact Hlt. lia.
  - intros q Hq. revert E. unfold newPCMProcessor. rewrite Hq.
    unfold newFloat32Array.
    destruct (Z.ltb_spec (Qtrunc q) 0) as [| Hlo]; [now left |].
    destruct (Z.ltb_spec (2 ^ 53 - 1) (Qtrunc q)) as [| Hhi];
      [now right; left |].
    destruct (allocates (Qtrunc q)); [discriminate | now right; right].
Qed.

(** The size is compared as it was given, while the buffer has its
    truncated length: with a size of 2.5 the third sample of every three
    is stored outside the buffer and lost.  A size beyond what the engine
    allocates, an infinite and a negative one build no processor; a size
    of -0.5 builds one whose messages are empty. *)
Example PCMProcessor_fractional_size :
  let anyLength := fun _ : Z => true in
  let upTo := fun limit n : Z => Z.leb n limit in
  option_map (fun p => snd (feed [[Fin 1; Fin 2; Fin 3; Fin 4]; [Fin 5; Fin 6]] p))
             (newPCMProcessor anyLength (Fin (5 # 2)))
  = Some [[Fin 1; Fin 2]; [Fin 4; Fin 5]]
  /\ newPCMProcessor (upTo 1000) (Fin 4096) = None
  /\ newPCMProcessor anyLength PosInf = None
  /\ newPCMProcessor anyLength (Fin (-3)) = None
  /\ option_map (fun p => snd (feed [[Fin 1; Fin 2]] p))
                (newPCMProcessor anyLength (Fin (-1 # 2)))
     = Some [[]; []]
  /\ option_map ppBufferSize (newPCMProcessor anyLength NaN) = Some 4096%Q.
Proof. cbv zeta. repeat split; vm_compute; reflexivity. Qed.

(** ** Microphone control *)

Lemma emit_error_quiet (p : Payload) (s : State) :
  quietErrors s -> listeners s EvError <> [] ->
  emit EvError p s = (Ok tt, with_trace (trace s ++ [Emitted EvError p]) s).
Proof.
  intros Hq Hne. unfold emit, bind.
  cbn [effect modify gets listeners with_trace].
  unfold quietErrors in Hq.
  destruct (listeners s EvError) as [| l ls] eqn:E; [congruence |].
  apply callListeners_returning. exact Hq.
Qed.

(** [#emitMicControlError]: one ['error'] event when a listener waits for
    it, nothing otherwise. *)
Lemma emitMicControlError_run (muted : bool) (error : Exn) (s : State) :
  exists o,
    emitMicControlError muted error s
    = (o,
       with_trace
         (trace s
          ++ if Nat.ltb 0 (List.length (listeners s EvError))
             then [Emitted EvError
                     (PError ("Failed to "
                              ++ (if muted then "mute" else "unmute")
                              ++ " microphone: " ++ message error))]
             else [])
         s)
    /\ (quietErrors s -> o = Ok tt).
Proof.
  unfold emitMicControlError, listenerCount, bind. cbn [gets].
  destruct (listeners s EvError) as [| l ls] eqn:E.
  - cbn. exists (Ok tt). rewrite app_nil_r, with_trace_same. auto.
  - cbn [List.length Nat.ltb Nat.leb when].
    match goal with
    | |- context [emit EvError ?p s] =>
        destruct (emit_run EvError p s) as (o & R);
        pose proof (emit_error_quiet p s) as Q
    end.
    exists o. split; [exact R |].
    intros Hq. rewrite Q in R; [congruence | exact Hq | congruence].
Qed.

(** [#emitMicEventSafely]: the event, then at most one report of what a
    listener threw. *)
Lemma emitMicEventSafely_run (ev : EventName) (muted : bool) (s : State) :
  exists o report,
    emitMicEventSafely ev muted s
    = (o, with_trace (trace s ++ Emitted ev PNone :: report) s)
    /\ (report = [] \/ exists m, report = [Emitted EvError (PError m)])
    /\ (listeners s EvError = [] -> report = [])
    /\ (quietErrors s -> o = Ok tt).
Proof.
  unfold emitMicEventSafely, try_catch.
  destruct (emit_run ev PNone s) as (o & ->).
  destruct o as [[] | e].
  - exists (Ok tt), []. auto.
  - unfold listenerCount, bind. cbn [gets listeners with_trace].
    destruct (listeners s EvError) as [| l ls] eqn:E.
    + cbn. exists (Ok tt), []. auto.
    + cbn [List.length Nat.ltb Nat.leb when].
      match goal with
      | |- context [emit EvError ?p ?st] =>
          destruct (emit_run EvError p st) as (o & R);
          pose proof (emit_error_quiet p st) as Q
      end.
      rewrite R. cbn [trace with_trace].
      eexists o, [_]. split.
      * unfold with_trace. cbn. rewrite <- app_assoc. reflexivity.
      * split; [right; eexists; reflexivity |].
        split; [discriminate |].
        intros Hq. rewrite Q in R.
        -- congruence.
        -- exact Hq.
        -- cbn [listeners with_trace]. congruence.
Qed.

Lemma emissions_app (ev : EventName) (a b : list Effect) :
  emissions ev (a ++ b) = (emissions ev a + emissions ev b)%nat.
Proof. unfold emissions. now rewrite filter_app, length_app. Qed.

Lemma emissions_reports (ev : EventName) (l : list Effect) :
  sameEvent ev EvError = false ->
  forallb isErrorReport l = true -> emissions ev l = 0%nat.
Proof.
  intros Hev. unfold emissions.
  induction l as [| e l IH]; [reflexivity |].
  cbn [forallb filter]. intros H. apply andb_prop in H as [He Hl].
  destruct e as [ev' p | | | | | | | | | | | | |]; try discriminate.
  destruct ev'; try discriminate. rewrite Hev. now apply IH.
Qed.

(** The microphone event emitted safely, with [#emitMicControlError] as the
    handler of what still escapes: the event, then only reports. *)
Lemma micEvent_reported_run (muted : bool) (st : State) :
  exists o reports,
    try_catch
      (emitMicEventSafely (if muted then EvMicMuted else EvMicUnmuted) muted)
      (fun error => emitMicControlError muted error) st
    = (o,
       with_trace
         (trace st
          ++ [Emitted (if muted then EvMicMuted else EvMicUnmuted) PNone]
          ++ reports) st)
    /\ forallb isErrorReport reports = true
    /\ (quietErrors st -> o = Ok tt).
Proof.
  unfold try_catch.
  destruct (emitMicEventSafely_run
              (if muted then EvMicMuted else EvMicUnmuted) muted st)
    as (o & report & -> & Hrep & _ & Hq).
  assert (Hr : forallb isErrorReport report = true)
    by (destruct Hrep as [-> | (m & ->)]; reflexivity).
  destruct o as [[] | e].
  - exists (Ok tt), report. auto.
  - match goal with
    | |- context [emitMicControlError muted e ?st1] =>
        destruct (emitMicControlError_run muted e st1) as (o & -> & Hq2)
    end.
    cbn [trace with_trace listeners].
    eexists o, (report ++ _)%list. split.
    + unfold with_trace. cbn. rewrite <- !app_assoc. reflexivity.
    + split.
      * rewrite forallb_app, Hr.
        now destruct (List.length (listeners st EvError)).
      * intros Q. specialize (Hq Q). discriminate.
Qed.

(** What [setMicMuted] appends to the trace: the microphone event when there
    is no local participant or [setMicrophoneEnabled] returned no promise,
    then only reports of errors. *)
Lemma setMicMuted_trace (api : bool -> MicReply) (muted : bool) (s : State) :
  exists o reports,
    setMicMuted api muted s
    = (o,
       with_trace
         (trace s
          ++ (if negb (hasLocalParticipant s)
                 || match api (negb muted) with
                    | MicReturns => true
                    | _ => false
                    end
              then [Emitted (if muted then EvMicMuted else EvMicUnmuted) PNone]
              else [])
          ++ reports) s)
    /\ forallb isErrorReport reports = true
    /\ (quietErrors s -> o = Ok tt).
Proof.
  pose proof (micEvent_reported_run muted) as Safe.
  unfold setMicMuted, hasLocalParticipant.
  change (try_catch (bind (gets room) ?k) ?h s)
    with (try_catch (k (room s)) h s).
  destruct (match room s with
            | Some rm => localParticipant rm
            | None => None
            end) as [lp |] eqn:L.
  - replace (match room s with
             | Some rm =>
                 match localParticipant rm with
                 | Some _ => true
                 | None => false
                 end
             | None => false
             end) with true
      by (destruct (room s) as [rm |]; [rewrite L | discriminate];
          reflexivity).
    rewrite ?L. cbv zeta. cbn [negb orb].
    destruct (api (negb muted)) as [msg | | | msg].
    + unfold try_catch, throw.
      destruct (emitMicControlError_run muted (JsError msg) s)
        as (o & -> & Hq).
      eexists o, _. split; [reflexivity |].
      split; [| exact Hq].
      now destruct (Nat.ltb 0 (List.length (listeners s EvError))).
    + apply Safe.
    + exists (Ok tt), []. cbn. rewrite app_nil_r, with_trace_same. auto.
    + exists (Ok tt), []. cbn. rewrite app_nil_r, with_trace_same. auto.
  - replace (match room s with
             | Some rm =>
                 match localParticipant rm with
                 | Some _ => true
                 | None => false
                 end
             | None => false
             end) with false
      by (destruct (room s) as [rm |]; [rewrite L |]; reflexivity).
    rewrite ?L. cbn [negb orb]. apply Safe.
Qed.

(** X3: [setMicMuted] returns normally whenever no ['error'] listener
    throws, in particular when none is registered, whatever the other
    listeners and [setMicrophoneEnabled] do; so do the reactions it
    registered on the promise. *)
Theorem setMicMuted_returns (api : bool -> MicReply) (muted : bool)
    (reply : MicReply) (s : State) :
  quietErrors s ->
  outcome (setMicMuted api muted) s = Ok tt
  /\ outcome (micPromiseSettled muted reply) s = Ok tt.
Proof.
  intros Hq. unfold outcome. split.
  - destruct (setMicMuted_trace api muted s) as (o & reports & -> & _ & Ho).
    now apply Ho.
  - unfold micPromiseSettled. destruct reply as [msg | | | msg];
      try reflexivity.
    + destruct (micEvent_reported_run muted s) as (o & reports & -> & _ & Ho).
      now apply Ho.
    + destruct (emitMicControlError_run muted (JsError msg) s)
        as (o & -> & Ho).
      now apply Ho.
Qed.

Lemma setMicMuted_returns_witness :
  quietErrors micState
  /\ outcome (setMicMuted promisingMic true) micState = Ok tt
  /\ outcome (micPromiseSettled true MicFulfils) micState = Ok tt
  /\ trace (post (micPromiseSettled true MicFulfils) micState)
     = [Emitted EvMicMuted PNone].
Proof.
  assert (Q : quietErrors micState) by (intros l []).
  destruct (setMicMuted_returns promisingMic true MicFulfils micState Q)
    as [H1 H2].
  exact (conj Q (conj H1 (conj H2 eq_refl))).
Defined.

(** X4: [setMicMuted] changes nothing but the trace.  It emits the event
    of the requested state ([micMuted] or [micUnmuted]) exactly once when
    the room has no local participant or [setMicrophoneEnabled] returned no
    promise, and not at all when it threw or returned a promise; it never
    emits the opposite event.  When the promise is fulfilled the reaction
    emits the event exactly once; when it is rejected the reaction emits no
    microphone event and reports one error exactly if an ['error'] listener
    is registered. *)
Theorem setMicMuted_events (api : bool -> MicReply) (muted : bool)
    (s : State) :
  let ev := if muted then EvMicMuted else EvMicUnmuted in
  let other := if muted then EvMicUnmuted else EvMicMuted in
  let immediate :=
    negb (hasLocalParticipant s)
    || match api (negb muted) with MicReturns => true | _ => false end in
  let s1 := post (setMicMuted api muted) s in
  (exists added, s1 = with_trace (trace s ++ added) s)
  /\ emissions ev (trace s1)
     = (emissions ev (trace s) + if immediate then 1 else 0)%nat
  /\ emissions other (trace s1) = emissions other (trace s)
  /\ emissions ev (trace (post (micPromiseSettled muted MicFulfils) s))
     = S (emissions ev (trace s))
  /\ forall msg,
       let s2 := post (micPromiseSettled muted (MicRejects msg)) s in
       emissions ev (trace s2) = emissions ev (trace s)
       /\ emissions other (trace s2) = emissions other (trace s)
       /\ emissions EvError (trace s2)
          = (emissions EvError (trace s)
             + if Nat.ltb 0 (List.length (listeners s EvError))
               then 1 else 0)%nat.
Proof.
  cbv zeta. unfold post.
  destruct (setMicMuted_trace api muted s) as (o & reports & -> & Hr & _).
  cbn [snd trace with_trace].
  split; [eexists; reflexivity |].
  assert (Hev : forall l, forallb isErrorReport l = true ->
                  emissions (if muted then EvMicMuted else EvMicUnmuted) l
                  = 0%nat)
    by (intros l; apply emissions_reports; now destruct muted).
  assert (Hot : forall l, forallb isErrorReport l = true ->
                  emissions (if muted then EvMicUnmuted else EvMicMuted) l
                  = 0%nat)
    by (intros l; apply emissions_reports; now destruct muted).
  split.
  { rewrite !emissions_app, (Hev _ Hr).
    destruct (negb (hasLocalParticipant s)
              || match api (negb muted) with
                 | MicReturns => true
                 | _ => false
                 end); destruct muted; cbn; lia. }
  split.
  { rewrite !emissions_app, (Hot _ Hr).
    destruct (negb (hasLocalParticipant s)
              || match api (negb muted) with
                 | MicReturns => true
                 | _ => false
                 end); destruct muted; cbn; lia. }
  split.
  { unfold micPromiseSettled.
    destruct (micEvent_reported_run muted s) as (o' & reps & -> & Hr' & _).
    cbn [snd trace with_trace].
    rewrite !emissions_app, (Hev _ Hr'). destruct muted; cbn; lia. }
  intros msg. unfold micPromiseSettled.
  destruct (emitMicControlError_run muted (JsError msg) s) as (o' & -> & _).
  cbn [snd trace with_trace]. rewrite !emissions_app.
  destruct (Nat.ltb 0 (List.length (listeners s EvError)));
    destruct muted; cbn; repeat split; lia.
Qed.

(** ** The mute state *)

Lemma lookupMicPublication_run (s : State) :
  lookupMicPublication s
  = (match room s with
     | Some rm =>
         match localParticipant rm with
         | Some lp =>
             match getTrackPublication lp with
             | Some GetterThrowsTwice =>
                 Raised (JsError "getTrackPublication failed")
             | _ => Ok (micPublication s)
             end
         | None => Ok None
         end
     | None => Ok None
     end, s).
Proof.
  unfold lookupMicPublication, micPublication, bind. cbn [gets].
  destruct (room s) as [rm |]; [| reflexivity].
  destruct (localParticipant rm) as [lp |]; [| reflexivity].
  destruct (getTrackPublication lp) as [[p | p |] |]; reflexivity.
Qed.

(** X5: [isMicMuted] never throws and changes nothing; it answers the
    [isMuted] of the microphone publication that the room's getter gives,
    at the first call or at the retry, and [false] when there is no room,
    no local participant, no getter, no publication, or when both look-ups
    throw.  The manager keeps no mute state of its own: without a local
    participant [setMicMuted(true)] emits [micMuted] and [isMicMuted()]
    still answers [false]. *)
Theorem isMicMuted_reads_room (s : State) :
  isMicMuted s
  = (Ok match micPublication s with
        | Some pub => isMuted pub
        | None => false
        end, s)
  /\ forall api muted,
       hasLocalParticipant s = false ->
       let s1 := post (setMicMuted api muted) s in
       outcome isMicMuted s1 = Ok false
       /\ emissions (if muted then EvMicMuted else EvMicUnmuted) (trace s1)
          = S (emissions (if muted then EvMicMuted else EvMicUnmuted)
                         (trace s)).
Proof.
  assert (G : forall st,
            isMicMuted st
            = (Ok match micPublication st with
                  | Some pub => isMuted pub
                  | None => false
                  end, st)).
  { intros st. unfold isMicMuted, try_catch, bind.
    rewrite lookupMicPublication_run. unfold micPublication.
    destruct (room st) as [rm |]; [| reflexivity].
    destruct (localParticipant rm) as [lp |]; [| reflexivity].
    destruct (getTrackPublication lp) as [[[p |] | [p |] |] |];
      reflexivity. }
  split; [apply G |].
  intros api muted Hlp. cbv zeta.
  unfold post, outcome.
  destruct (setMicMuted_trace api muted s) as (o & reports & -> & Hr & _).
  rewrite Hlp. cbn [negb orb snd trace with_trace]. split.
  - rewrite G. cbn [fst]. f_equal.
    unfold micPublication, hasLocalParticipant in *.
    cbn [room with_trace].
    destruct (room s) as [rm |]; [| reflexivity].
    destruct (localParticipant rm); [discriminate | reflexivity].
  - rewrite !emissions_app, (emissions_reports _ reports).
    + destruct muted; cbn; lia.
    + now destruct muted.
    + exact Hr.
Qed.
(** ** Looking a track up *)

Lemma find_app_first {A : Type} (f : A -> bool) (l1 l2 : list A) :
  find f (l1 ++ l2)
  = match find f l1 with
    | Some x => Some x
    | None => find f l2
    end.
Proof.
  induction l1 as [| x l1 IH]; cbn; [reflexivity |].
  destruct (f x); [reflexivity | exact IH].
Qed.

Lemma opt_is_eq (o : option string) (x : string) :
  opt_is o x = true <-> o = Some x.
Proof.
  destruct o as [y |]; cbn.
  - rewrite String.eqb_eq. split; [now intros -> | now intros [= ->]].
  - split; discriminate.
Qed.

Lemma publicationHas_iff (trackId : string) (pub : Publication) :
  publicationHas trackId pub = true
  <-> exists t, pubTrack pub = Some t /\ carriesId trackId t.
Proof.
  unfold publicationHas, carriesId. destruct (pubTrack pub) as [t |].
  - rewrite orb_true_iff, !opt_is_eq. split.
    + intros H. now exists t.
    + now intros (t' & [= <-] & H).
  - split; [discriminate | now intros (t & H & _)].
Qed.

Lemma getTrackById_find (trackId : string) (s : State) :
  getTrackById trackId s
  = match find (publicationHas trackId) (roomPublications s) with
    | Some pub => pubTrack pub
    | None => None
    end.
Proof.
  unfold getTrackById, roomPublications, searchPublications.
  destruct (room s) as [rm |]; [| reflexivity].
  rewrite find_app_first.
  destruct (find (publicationHas trackId) (List.concat (remoteParticipants rm)))
    as [pub |] eqn:F.
  - apply find_some in F as [_ F].
    apply publicationHas_iff in F as (t & -> & _). reflexivity.
  - destruct (localParticipant rm); reflexivity.
Qed.

(** X6: [#getTrackById] answers the track of the first publication of the
    room, remote participants before the local one, whose track carries the
    id as its [sid] or as the id of its media track.  So the track it
    returns carries the id and is published in the room, it returns a track
    as soon as some published track carries the id, and it returns nothing
    without a room. *)
Theorem getTrackById_finds_published (trackId : string) (s : State) :
  getTrackById trackId s
  = match find (publicationHas trackId) (roomPublications s) with
    | Some pub => pubTrack pub
    | None => None
    end
  /\ (forall t, getTrackById trackId s = Some t ->
        carriesId trackId t
        /\ exists pub, In pub (roomPublications s) /\ pubTrack pub = Some t)
  /\ ((exists pub t, In pub (roomPublications s)
                     /\ pubTrack pub = Some t /\ carriesId trackId t)
      <-> exists t, getTrackById trackId s = Some t)
  /\ (room s = None -> getTrackById trackId s = None).
Proof.
  split; [apply getTrackById_find |].
  assert (Sound : forall t, getTrackById trackId s = Some t ->
            carriesId trackId t
            /\ exists pub, In pub (roomPublications s)
                           /\ pubTrack pub = Some t).
  { intros t. rewrite getTrackById_find.
    destruct (find (publicationHas trackId) (roomPublications s))
      as [pub |] eqn:F; [| discriminate].
    apply find_some in F as [Hin F].
    apply publicationHas_iff in F as (t' & Ht & Hc).
    intros E. rewrite Ht in E. injection E as <-.
    split; [exact Hc | now exists pub]. }
  split; [exact Sound |].
  split.
  - split.
    + intros (pub & t & Hin & Ht & Hc). rewrite getTrackById_find.
      destruct (find (publicationHas trackId) (roomPublications s))
        as [pub' |] eqn:F.
      * apply find_some in F as [_ F].
        apply publicationHas_iff in F as (t' & Ht' & _). now exists t'.
      * exfalso. pose proof (find_none _ _ F pub Hin) as N.
        assert (Y : publicationHas trackId pub = true)
          by (apply publicationHas_iff; now exists t).
        congruence.
    + intros (t & E). destruct (Sound t E) as (Hc & pub & Hin & Ht).
      now exists pub, t.
  - intros Hr. unfold getTrackById. now rewrite Hr.
Qed.

(** ** The recorder's type *)

Lemma find_first {A : Type} (f : A -> bool) (l : list A) (x : A) :
  find f l = Some x ->
  exists before after,
    l = (before ++ x :: after)%list
    /\ f x = true
    /\ forall y, In y before -> f y = false.
Proof.
  induction l as [| a l IH]; cbn; [discriminate |].
  destruct (f a) eqn:E.
  - intros [= <-]. exists [], l. repeat split; [exact E | intros y []].
  - intros F. destruct (IH F) as (before & after & -> & Hx & Hb).
    exists (a :: before), after. repeat split; [exact Hx |].
    intros y [<- | Hy]; [exact E | now apply Hb].
Qed.

(** X7: [#getSupportedMimeType] changes nothing.  Where [MediaRecorder]
    exists it returns the first type of its preference list that the
    browser supports (every type listed before it being unsupported) and
    the empty string when none is; where [MediaRecorder] is missing it
    throws. *)
Theorem getSupportedMimeType_first_supported (s : State) :
  post getSupportedMimeType s = s
  /\ (hasMediaRecorder (platform s) = false ->
      exists e, outcome getSupportedMimeType s = Raised e)
  /\ (hasMediaRecorder (platform s) = true ->
      exists ty,
        outcome getSupportedMimeType s = Ok ty
        /\ ((ty = "" /\ forall x, In x mimePreference ->
                                  typeSupported s x = false)
            \/ (typeSupported s ty = true
                /\ exists before after,
                     mimePreference = (before ++ ty :: after)%list
                     /\ forall x, In x before -> typeSupported s x = false))).
Proof.
  unfold post, outcome, getSupportedMimeType, bind. cbn [gets].
  destruct (hasMediaRecorder (platform s)).
  - split.
    { destruct (find _ mimePreference); reflexivity. }
    split; [discriminate |]. intros _.
    change (fun ty => existsb (String.eqb ty) (supportedMimeTypes (platform s)))
      with (typeSupported s).
    destruct (find (typeSupported s) mimePreference) as [ty |] eqn:F.
    + exists ty. split; [reflexivity |]. right.
      destruct (find_first _ _ _ F) as (before & after & E & Hty & Hb).
      split; [exact Hty |]. now exists before, after.
    + exists "". split; [reflexivity |]. left.
      split; [reflexivity |]. intros x Hx. exact (find_none _ _ F x Hx).
  - split; [reflexivity |].
    split; [| discriminate]. intros _. eexists. reflexivity.
Qed.

Lemma getSupportedMimeType_first_supported_witness :
  outcome getSupportedMimeType demoState = Ok "audio/webm"
  /\ typeSupported demoState "audio/webm;codecs=opus" = false.
Proof.
  destruct (getSupportedMimeType_first_supported demoState) as (_ & _ & H).
  destruct (H eq_refl) as (ty & E & _).
  split; [| reflexivity].
  rewrite E. f_equal. vm_compute in E. now injection E as <-.
Defined.
(** ** Frequency data *)

Lemma fillBytes_length (n : nat) (data : list Byte.byte) :
  List.length (fillBytes n data) = n.
Proof.
  unfold fillBytes. rewrite length_app, length_firstn, repeat_length. lia.
Qed.

(** The tail shared by the two frequency-data getters. *)
Lemma readBytes_run (read : State -> option Analyser) (st : State) :
  try_catch
    (a <- gets read ;;
     match a with
     | None => ret []
     | Some analyser =>
         let binCount := frequencyBinCount analyser in
         match byteFrequencyData analyser with
         | None => throw (JsError "getByteFrequencyData failed")
         | Some data => ret (fillBytes binCount data)
         end
     end)
    (fun _ => ret []) st
  = (Ok (tapBytes (read st)), st).
Proof.
  unfold try_catch, bind, tapBytes, binsOf. cbn [gets].
  destruct (read st) as [a |]; [| reflexivity].
  cbv zeta. destruct (byteFrequencyData a); reflexivity.
Qed.

Lemma getInputByteFrequencyData_run (s : State) :
  getInputByteFrequencyData s
  = (Ok (tapBytes (inputTap s)),
     post (when (isNone (inputAnalyser s)) initializeInputAnalyser) s).
Proof.
  unfold getInputByteFrequencyData.
  erewrite try_bind_ok by (cbn [gets]; reflexivity).
  destruct (inputAnalyser s) as [a |] eqn:E; cbn [isNone when].
  - erewrite try_bind_ok by reflexivity.
    rewrite readBytes_run. unfold inputTap, post. now rewrite E.
  - destruct (initializeInputAnalyser_tap s E) as [Ho Hi].
    unfold outcome, post in *.
    destruct (initializeInputAnalyser s) as [o s1] eqn:R.
    cbn [fst snd] in *. subst o.
    erewrite try_bind_ok by exact R.
    rewrite readBytes_run, Hi. reflexivity.
Qed.

Lemma getInputVolume_post (s : State) :
  post getInputVolume s
  = post (when (isNone (inputAnalyser s)) initializeInputAnalyser) s.
Proof.
  unfold getInputVolume, post at 1.
  erewrite try_bind_ok by (cbn [gets]; reflexivity).
  assert (Tail : forall st,
            snd (try_catch
                   (a <- gets inputAnalyser ;;
                    match a with
                    | None => ret MIN_VOLUME
                    | Some analyser =>
                        let binCount := frequencyBinCount analyser in
                        match byteFrequencyData analyser with
                        | None =>
                            throw (JsError "getByteFrequencyData failed")
                        | Some data =>
                            let dataArray := fillBytes binCount data in
                            if Nat.eqb (List.length dataArray) 0
                            then ret MIN_VOLUME
                            else
                              let sum := byteSum dataArray in
                              let avg :=
                                binary64
                                  (inject_Z sum /
                                   inject_Z (Z.of_nat
                                               (List.length dataArray)
                                             * BYTE_MAX)) in
                              ret (Math_max MIN_VOLUME
                                     (Math_min MAX_VOLUME avg))
                        end
                    end)
                   (fun _ => ret MIN_VOLUME) st) = st).
  { intros st. unfold try_catch, bind. cbn [gets].
    destruct (inputAnalyser st) as [a |]; [| reflexivity].
    cbv zeta. destruct (byteFrequencyData a); [| reflexivity].
    destruct (Nat.eqb _ 0); reflexivity. }
  destruct (inputAnalyser s) as [a |] eqn:E; cbn [isNone when].
  - erewrite try_bind_ok by reflexivity. rewrite Tail. reflexivity.
  - destruct (initializeInputAnalyser_tap s E) as [Ho _].
    unfold outcome, post in *.
    destruct (initializeInputAnalyser s) as [o s1] eqn:R.
    cbn [fst snd] in *. subst o.
    erewrite try_bind_ok by exact R. apply Tail.
Qed.

(** X8: [getInputByteFrequencyData] never throws.  It returns the bytes of
    the input tap, exactly [frequencyBinCount] of them, and the empty array
    when there is no tap or its data cannot be read; it leaves the state
    that [getInputVolume] leaves; and the level that [getInputVolume]
    returns in the same state is 0 for an empty array and otherwise the
    quotient of the sum of these bytes by 255 times their number, rounded
    to binary64: a value within [0,1] and within 2^-53 of the average of
    the bytes divided by 255. *)
Theorem getInputVolume_is_level_of_frequency_data (s : State) :
  exists bins q,
    outcome getInputByteFrequencyData s = Ok bins
    /\ outcome getInputVolume s = Ok (Fin q)
    /\ post getInputByteFrequencyData s = post getInputVolume s
    /\ bins = tapBytes (inputTap s)
    /\ (forall a data,
          inputTap s = Some a -> byteFrequencyData a = Some data ->
          List.length bins = frequencyBinCount a)
    /\ (bins = [] -> q = 0%Q)
    /\ (bins <> [] ->
        Fin q = binary64 (inject_Z (byteSum bins)
                          / inject_Z (Z.of_nat (List.length bins) * 255))
        /\ (0 <= q)%Q /\ (q <= 1)%Q
        /\ (averageLevel bins - (1 # 9007199254740992) <= q)%Q
        /\ (q <= averageLevel bins + (1 # 9007199254740992))%Q).
Proof.
  exists (tapBytes (inputTap s)).
  assert (Hlen : forall a data,
            inputTap s = Some a -> byteFrequencyData a = Some data ->
            List.length (tapBytes (inputTap s)) = frequencyBinCount a).
  { intros a data -> Hd. unfold tapBytes, binsOf. rewrite Hd.
    cbn [option_map]. apply fillBytes_length. }
  assert (Hpost : post getInputByteFrequencyData s = post getInputVolume s).
  { rewrite getInputVolume_post. unfold post at 1.
    now rewrite getInputByteFrequencyData_run. }
  assert (Hout : outcome getInputByteFrequencyData s
                 = Ok (tapBytes (inputTap s)))
    by (unfold outcome; now rewrite getInputByteFrequencyData_run).
  rewrite getInputVolume_outcome. unfold tapBytes in *.
  destruct (inputTap s) as [a |].
  - destruct (binsOf a) as [bins |].
    + destruct bins as [| b bins].
      * exists 0%Q. cbn [List.length Nat.eqb].
        repeat split; auto; congruence.
      * set (l := b :: bins) in *.
        assert (Hpos : (0 < Z.of_nat (List.length l))%Z)
          by (subst l; cbn [List.length]; lia).
        destruct (level_clamped (byteSum l) (Z.of_nat (List.length l))
                    (byteSum_bounds l) Hpos)
          as (c & Ec & Er & Hc0 & Hc1 & Hlo & Hhi).
        exists c.
        replace (Nat.eqb (List.length l) 0) with false
          by (subst l; reflexivity).
        rewrite Ec.
        split; [exact Hout |]. split; [reflexivity |].
        split; [exact Hpost |]. split; [reflexivity |].
        split; [exact Hlen |].
        split; [subst l; discriminate |].
        intros _. split; [symmetry; exact Er |].
        unfold averageLevel. auto.
    + exists 0%Q. repeat split; auto; congruence.
  - exists 0%Q. repeat split; auto; congruence.
Qed.

(** ** The output tap *)

Lemma initializeOutputAnalyser_tap (f : nat -> option Analyser) (s : State) :
  outputAnalyser s = None ->
  outcome (initializeOutputAnalyser f) s = Ok tt
  /\ outputAnalyser (post (initializeOutputAnalyser f) s) = outputTap f s.
Proof.
  intros H. unfold outputTap, contextAvailable. rewrite H.
  destruct s as [ae ts vol rm ctx ia oa en opts recs procs srcs cl tcm wr
                  pf ls hp nw nx pd tr].
  destruct pf. cbn in *. subst oa.
  cbv [outcome post initializeOutputAnalyser try_catch bind
       ensureAudioContext gets modify effect fresh when ret throw].
  cbn.
  repeat case_step; split; reflexivity.
Qed.

Lemma getOutputByteFrequencyData_run (f : nat -> option Analyser)
    (s : State) :
  getOutputByteFrequencyData f s
  = (Ok (tapBytes (outputTap f s)),
     post (when (isNone (outputAnalyser s)) (initializeOutputAnalyser f)) s).
Proof.
  unfold getOutputByteFrequencyData.
  erewrite try_bind_ok by (cbn [gets]; reflexivity).
  destruct (outputAnalyser s) as [a |] eqn:E; cbn [isNone when].
  - erewrite try_bind_ok by reflexivity.
    rewrite readBytes_run. unfold outputTap, post. now rewrite E.
  - destruct (initializeOutputAnalyser_tap f s E) as [Ho Hi].
    unfold outcome, post in *.
    destruct (initializeOutputAnalyser f s) as [o s1] eqn:R.
    cbn [fst snd] in *. subst o.
    erewrite try_bind_ok by exact R.
    rewrite readBytes_run, Hi. reflexivity.
Qed.

(** X9: [getOutputByteFrequencyData] never throws and returns the bytes of
    the output tap, the empty array when there is none or its data cannot
    be read.  A tap made by an earlier call is read again and the state is
    left alone, whatever the tracked elements have become; otherwise the
    tap is made for the first tracked element only, in the order of
    subscription, and kept; with no tracked element or no audio context
    the result is empty and no tap is kept. *)
Theorem getOutputByteFrequencyData_taps_first_element
    (f : nat -> option Analyser) (s : State) :
  outcome (getOutputByteFrequencyData f) s = Ok (tapBytes (outputTap f s))
  /\ (forall a, outputAnalyser s = Some a ->
        post (getOutputByteFrequencyData f) s = s
        /\ outputTap f s = Some a)
  /\ (outputAnalyser s = None ->
      outputAnalyser (post (getOutputByteFrequencyData f) s) = outputTap f s
      /\ (forall first rest,
            audioElements s = first :: rest -> contextAvailable s = true ->
            outputTap f s = f first)
      /\ (audioElements s = [] \/ contextAvailable s = false ->
          outputTap f s = None
          /\ outcome (getOutputByteFrequencyData f) s = Ok [])).
Proof.
  unfold outcome, post. rewrite getOutputByteFrequencyData_run.
  cbn [fst snd].
  split; [reflexivity |].
  split.
  - intros a E. unfold outputTap. rewrite E. cbn [isNone when].
    split; reflexivity.
  - intros E. rewrite E. cbn [isNone when].
    destruct (initializeOutputAnalyser_tap f s E) as [_ Hi].
    split; [exact Hi |].
    unfold outputTap. rewrite E.
    split.
    + intros first rest -> ->. reflexivity.
    + intros [-> | ->].
      * now destruct (contextAvailable s).
      * split; reflexivity.
Qed.
(** ** Switching capture off *)

Lemma cleanupAudioCapture_trace (s : State) :
  cleanupAudioCapture s
  = (Ok tt,
     with_trace (trace s ++ releaseEffects s)
       (with_audioContext None
          (with_trackCaptureMap JsMap.empty
             (with_clonedTracks JsMap.empty
                (with_sourceNodes JsMap.empty
                   (with_processors JsMap.empty
                      (with_recorders JsMap.empty
                         (with_workletReady None s)))))))).
Proof.
  assert (T : trace (post cleanupAudioCapture s)
              = (trace s ++ releaseEffects s)%list).
  { unfold post, cleanupAudioCapture, bind, releaseEffects.
    cbn [modify gets].
    repeat (rewrite forEach_effect; cbn [modify gets]).
    cbn [trace recorders processors sourceNodes clonedTracks audioContext
         with_trace with_audioContext with_trackCaptureMap with_clonedTracks
         with_sourceNodes with_processors with_recorders with_workletReady].
    destruct (audioContext s) as [c |].
    - destruct (ctxState c);
        cbn [when effect modify ret bind snd trace recorders processors
             sourceNodes clonedTracks audioContext with_trace
             with_audioContext with_trackCaptureMap with_clonedTracks
             with_sourceNodes with_processors with_recorders
             with_workletReady];
        rewrite <- ?app_assoc, ?app_nil_r; reflexivity.
    - cbn [snd trace recorders processors sourceNodes clonedTracks
           audioContext with_trace with_audioContext with_trackCaptureMap
           with_clonedTracks with_sourceNodes with_processors with_recorders
           with_workletReady].
      rewrite <- ?app_assoc, ?app_nil_r. reflexivity. }
  destruct (cleanupAudioCapture_run s) as (tr & E).
  unfold post in T. rewrite E in T. cbn [snd trace with_trace] in T.
  rewrite E, T. reflexivity.
Qed.

Lemma disableAudioCapture_run (s : State) :
  disableAudioCapture s
  = (Ok tt,
     with_workletReady None
       (with_audioCaptureOptions None
          (with_trace (trace s ++ releaseEffects s)
             (with_audioContext None
                (with_trackCaptureMap JsMap.empty
                   (with_clonedTracks JsMap.empty
                      (with_sourceNodes JsMap.empty
                         (with_processors JsMap.empty
                            (with_recorders JsMap.empty
                               (with_workletReady None
                                  (with_audioCaptureEnabled false s))))))))))).
Proof.
  unfold disableAudioCapture, bind. cbn [modify].
  rewrite cleanupAudioCapture_trace. reflexivity.
Qed.

Lemma captureOff_disableAudioCapture (s : State) :
  captureOff s -> disableAudioCapture s = (Ok tt, s).
Proof.
  unfold captureOff. destruct s; cbn.
  intros (-> & -> & -> & -> & -> & -> & -> & -> & ->). reflexivity.
Qed.

Lemma released_snoc_other (tr : list Effect) (e : Effect) :
  releasesResource e = false ->
  filter releasesResource (tr ++ [e]) = filter releasesResource tr.
Proof.
  intros H. rewrite filter_app. cbn [filter]. rewrite H. apply app_nil_r.
Qed.

(** Field updates and effects that leave the capture ledger alone. *)
Ltac ledger_leaf :=
  cbv [captureLedger captureView]; cbn;
  rewrite ?created_snoc_other, ?released_snoc_other by reflexivity;
  reflexivity.

(** While capture is off the set-up hook does nothing. *)
Lemma keeps_captureLedger_off track p :
  keeps captureLedger (fun v => snd (fst v) = false)
        (setupAudioCaptureIfEnabled track p).
Proof.
  intros s Hs. cbn in Hs.
  unfold post, setupAudioCaptureIfEnabled, bind. cbn [gets].
  rewrite Hs. reflexivity.
Qed.

Lemma keeps_captureLedger_subscribed_off track pub p :
  keeps captureLedger (fun v => snd (fst v) = false)
        (handleTrackSubscribed track pub p)
  /\ keeps captureLedger (fun v => snd (fst v) = false)
        (handleLocalTrackPublished track pub p).
Proof.
  pose proof (keeps_captureLedger_off track p) as K.
  split.
  - unfold handleTrackSubscribed, setupAudioElement.
    keeps_auto ltac:(ledger_leaf).
  - unfold handleLocalTrackPublished. keeps_auto ltac:(ledger_leaf).
Qed.

(** X10: [disableAudioCapture] never throws.  It stops every recorder,
    disconnects every processor and source node, stops every clone and
    closes the audio context, each once and in that order; afterwards
    capture is off (flag cleared, options and context dropped, the five
    capture maps empty, no worklet registration kept), while the tracked
    elements, the statistics, the volume, the room, the analysers and the
    suspended worklet set-ups are as before.  A second call changes
    nothing, and a later subscription or local publication sets up and
    releases nothing. *)
Theorem disableAudioCapture_releases_everything (s : State) :
  let s' := post disableAudioCapture s in
  outcome disableAudioCapture s = Ok tt
  /\ captureOff s'
  /\ trace s' = (trace s ++ releaseEffects s)%list
  /\ (audioElements s', trackStats s', volume s', room s', inputAnalyser s',
      outputAnalyser s', heap s', pending s')
     = (audioElements s, trackStats s, volume s, room s, inputAnalyser s,
        outputAnalyser s, heap s, pending s)
  /\ disableAudioCapture s' = (Ok tt, s')
  /\ forall t pub p,
       captureLedger (post (handleTrackSubscribed t pub p) s')
       = captureLedger s'
       /\ captureLedger (post (handleLocalTrackPublished t pub p) s')
          = captureLedger s'.
Proof.
  cbv zeta. unfold outcome, post. rewrite disableAudioCapture_run.
  cbn [fst snd].
  set (s' := with_workletReady None _).
  assert (Off : captureOff s') by (repeat split).
  split; [reflexivity |].
  split; [exact Off |].
  split; [reflexivity |].
  split; [reflexivity |].
  split; [now apply captureOff_disableAudioCapture |].
  intros t pub p.
  destruct (keeps_captureLedger_subscribed_off t pub p) as [K1 K2].
  split; [apply K1 | apply K2]; reflexivity.
Qed.

(** ** Unsubscribing leaves the capture alone *)

Lemma keeps_captureLedger_unsubscribed track pub p :
  keeps captureLedger (fun _ => True) (handleTrackUnsubscribed track pub p).
Proof.
  unfold handleTrackUnsubscribed. keeps_auto ltac:(ledger_leaf).
Qed.

Lemma keeps_captureLedger_duplicate id p r f :
  keeps captureLedger
        (fun v => JsMap.has id (vSessions (fst (fst (fst v)))) = true)
        (setupTrackCapture id p r f).
Proof.
  intros s HP. cbn in HP. unfold post, setupTrackCapture, bind. cbn [gets].
  destruct (audioCaptureOptions s); [| reflexivity].
  destruct (getTrackById id s) as [t |]; [| reflexivity].
  destruct (mediaStreamTrackId t); [| reflexivity].
  rewrite HP. cbn. ledger_leaf.
Qed.

Lemma keeps_captureLedger_resubscribed track pub p :
  keeps captureLedger
        (fun v => JsMap.has (trackKey track)
                            (vSessions (fst (fst (fst v)))) = true)
        (handleTrackSubscribed track pub p).
Proof.
  pose proof keeps_captureLedger_duplicate as K.
  unfold handleTrackSubscribed, setupAudioElement,
    setupAudioCaptureIfEnabled.
  keeps_auto ltac:(ledger_leaf).
Qed.

(** X11: [handleTrackUnsubscribed] (and [handleLocalTrackUnsubscribed],
    which calls it) never touches the capture pipeline: the session, the
    clone, the recorder and the nodes of the stream stay, nothing is
    created and nothing is released, whatever the track and the listeners.
    So when the stream had a session, a later subscription under the same
    id finds it and sets up nothing: the capture resources are those from
    before the unsubscription. *)
Theorem handleTrackUnsubscribed_keeps_capture
    (s : State) (t : Track) (pub : Publication) (p : Participant) :
  captureLedger (post (handleTrackUnsubscribed t pub p) s) = captureLedger s
  /\ captureLedger (post (handleLocalTrackUnsubscribed t pub p) s)
     = captureLedger s
  /\ forall t' pub' p',
       trackKey t' = trackKey t ->
       JsMap.has (trackKey t) (trackCaptureMap s) = true ->
       captureLedger
         (post (handleTrackSubscribed t' pub' p')
               (post (handleTrackUnsubscribed t pub p) s))
       = captureLedger s.
Proof.
  pose proof (keeps_captureLedger_unsubscribed t pub p s I) as U.
  split; [exact U |]. split; [exact U |].
  intros t' pub' p' Hk Hs.
  rewrite keeps_captureLedger_resubscribed; [exact U |].
  rewrite U. cbn. rewrite Hk. exact Hs.
Qed.
(** ** Streams without id *)

Lemma JsMap_get_set_same {V : Type} (k : string) (v : V) (m : JsMap.t V) :
  JsMap.get k (JsMap.set k v m) = Some v.
Proof.
  induction m as [| [k' v'] m IH]; cbn.
  - now rewrite String.eqb_refl.
  - destruct (String.eqb k k') eqn:E; cbn.
    + now rewrite String.eqb_refl.
    + now rewrite E.
Qed.

Lemma JsMap_get_delete_same {V : Type} (k : string) (m : JsMap.t V) :
  JsMap.get k (JsMap.delete k m) = None.
Proof.
  unfold JsMap.delete. induction m as [| [k' v'] m IH]; cbn; [reflexivity |].
  destruct (String.eqb k k') eqn:E; cbn; [exact IH |].
  now rewrite E.
Qed.

Lemma JsMap_size_set {V : Type} (k : string) (v : V) (m : JsMap.t V) :
  JsMap.size (JsMap.set k v m)
  = if JsMap.has k m then JsMap.size m else S (JsMap.size m).
Proof.
  unfold JsMap.size, JsMap.has.
  induction m as [| [k' v'] m IH]; cbn; [reflexivity |].
  destruct (String.eqb k k'); cbn; [reflexivity |].
  rewrite IH. now destruct (JsMap.get k m).
Qed.

Lemma trackKey_anonymous (t : Track) : anonymous t -> trackKey t = "unknown".
Proof.
  unfold anonymous, trackKey.
  intros [[-> | ->] [-> | ->]]; reflexivity.
Qed.

(** X12: audio tracks that carry neither [sid] nor media track id are all
    registered under the key ['unknown'].  Subscribing a second one adds no
    record: it replaces the record of the first; and unsubscribing the
    first then removes the record of the second, which is still
    subscribed. *)
Theorem anonymous_tracks_share_one_record
    (s : State) (t1 t2 : Track) (pub1 pub2 : Publication)
    (p1 p2 : Participant) :
  anonymous t1 -> anonymous t2 ->
  kind t1 = KAudio -> kind t2 = KAudio ->
  let s1 := post (handleTrackSubscribed t1 pub1 p1) s in
  let s2 := post (handleTrackSubscribed t2 pub2 p2) s1 in
  let s3 := post (handleTrackUnsubscribed t1 pub1 p1) s2 in
  trackKey t1 = "unknown" /\ trackKey t2 = "unknown"
  /\ JsMap.get "unknown" (trackStats s1)
     = Some (statsRecord t1 pub1 p1 (now s))
  /\ JsMap.size (trackStats s2) = JsMap.size (trackStats s1)
  /\ JsMap.get "unknown" (trackStats s2)
     = Some (statsRecord t2 pub2 p2 (now s))
  /\ JsMap.get "unknown" (trackStats s3) = None.
Proof.
  intros A1 A2 K1 K2. cbv zeta.
  pose proof (trackKey_anonymous t1 A1) as E1.
  pose proof (trackKey_anonymous t2 A2) as E2.
  assert (Ha1 : isAudio (kind t1) = true) by now rewrite K1.
  assert (Ha2 : isAudio (kind t2) = true) by now rewrite K2.
  rewrite trackStats_handleTrackUnsubscribed by exact Ha1.
  rewrite !trackStats_handleTrackSubscribed by assumption.
  rewrite now_handleTrackSubscribed, E1, E2.
  split; [reflexivity |]. split; [reflexivity |].
  split; [apply JsMap_get_set_same |].
  split; [rewrite (JsMap_size_set _ _ (JsMap.set _ _ _)),
            JsMap_has_set_same; reflexivity |].
  split; [apply JsMap_get_set_same | apply JsMap_get_delete_same].
Qed.

Lemma anonymous_tracks_share_one_record_witness :
  let t1 := anonymousTrack 1 in
  let t2 := anonymousTrack 2 in
  let s1 := post (handleTrackSubscribed t1 (demoPublication t1)
                                        agentParticipant) demoState in
  let s2 := post (handleTrackSubscribed t2 (demoPublication t2)
                                        userParticipant) s1 in
  JsMap.size (trackStats s2) = 1%nat
  /\ List.length (audioElements s2) = 2%nat
  /\ JsMap.get "unknown" (trackStats s2)
     = Some (statsRecord t2 (demoPublication t2) userParticipant 1000).
Proof.
  cbv zeta.
  destruct (anonymous_tracks_share_one_record
              demoState (anonymousTrack 1) (anonymousTrack 2)
              (demoPublication (anonymousTrack 1))
              (demoPublication (anonymousTrack 2))
              agentParticipant userParticipant)
    as (_ & _ & _ & _ & H & _).
  - split; left; reflexivity.
  - split; left; reflexivity.
  - reflexivity.
  - reflexivity.
  - split; [vm_compute; reflexivity |].
    split; [vm_compute; reflexivity | exact H].
Defined.

(** ** A worklet set-up resumes *)

Lemma length_append (a b : string) :
  String.length (a ++ b) = (String.length a + String.length b)%nat.
Proof. induction a as [| c a IH]; cbn; [reflexivity | now rewrite IH]. Qed.

Lemma gain_key_differs (id : string) : id <> id ++ "_gain".
Proof.
  intros E. apply (f_equal String.length) in E.
  rewrite length_append in E. cbn in E. lia.
Qed.

(** Projections through field updates. *)
Ltac through_updates :=
  cbn [fst snd platform trace processors sourceNodes workletReady nextObj
       with_trace with_nextObj with_processors with_sourceNodes
       with_workletReady].

(** X13: the resumption of a suspended worklet set-up never throws.  When
    the registration of the processor module failed it forgets the
    registration, so that a later set-up registers again, and falls back
    to a ScriptProcessor: where the browser builds the nodes, the stream's
    source node, a ScriptProcessor node under the stream's id and a gain
    node under the id followed by [_gain] are stored.  When the
    registration succeeded and the browser builds the nodes, a worklet
    node is stored under the stream's id and the registration is kept. *)
Theorem resumeAudioWorkletCapture_falls_back (t : WorkletTask) (s : State) :
  let id := poTrackId (wtOptions t) in
  let s' := post (resumeAudioWorkletCapture t) s in
  outcome (resumeAudioWorkletCapture t) s = Ok tt
  /\ (registrationOk (wtAwaited t) = false ->
      workletReady s' = None
      /\ (sourceNodeFailure (platform s) = None ->
          scriptProcessorFailure (platform s) = None ->
          JsMap.get id (sourceNodes s')
          = Some {| nodeId := nextObj s; nodeKind := SourceNode;
                    nodeTrack := id |}
          /\ JsMap.get id (processors s')
             = Some {| nodeId := S (nextObj s); nodeKind := ScriptProcessor;
                       nodeTrack := id |}
          /\ JsMap.get (id ++ "_gain") (processors s')
             = Some {| nodeId := S (S (nextObj s)); nodeKind := GainNode;
                       nodeTrack := id |}))
  /\ (registrationOk (wtAwaited t) = true ->
      sourceNodeFailure (platform s) = None ->
      workletNodeFailure (platform s) = None ->
      workletReady s' = workletReady s
      /\ JsMap.get id (processors s')
         = Some {| nodeId := S (nextObj s); nodeKind := WorkletNode;
                   nodeTrack := id |}
      /\ JsMap.get (id ++ "_gain") (processors s')
         = Some {| nodeId := S (S (nextObj s)); nodeKind := GainNode;
                   nodeTrack := id |}).
Proof.
  cbv zeta.
  pose proof (gain_key_differs (poTrackId (wtOptions t))) as Hne.
  unfold outcome, post, resumeAudioWorkletCapture, setupScriptProcessorCapture,
    try_catch, bind, log, effect, fresh, modify, gets, throw, ret.
  destruct (registrationOk (wtAwaited t));
    destruct (sourceNodeFailure (platform s)) as [m1 |] eqn:E1;
    destruct (workletNodeFailure (platform s)) as [m2 |] eqn:E2;
    destruct (scriptProcessorFailure (platform s)) as [m3 |] eqn:E3;
    repeat (through_updates; rewrite ?E1, ?E2, ?E3);
    repeat match goal with
           | |- _ /\ _ => split
           | |- _ -> _ => intro
           | H : Some _ = None |- _ => discriminate H
           | H : true = false |- _ => discriminate H
           | H : false = true |- _ => discriminate H
           end;
    try reflexivity;
    rewrite ?JsMap_get_set_other by exact Hne;
    rewrite ?JsMap_get_set_same; reflexivity.
Qed.
(** ** Invariants of method bodies *)

Section MaintainsSteps.
Context (I : State -> Prop).

Lemma maintains_gets {X : Type} (f : State -> X) : maintains I (gets f).
Proof. intros s H. exact H. Qed.

Lemma maintains_throw {X : Type} (e : Exn) : maintains I (@throw X e).
Proof. intros s H. exact H. Qed.

Lemma maintains_modify (g : State -> State) :
  (forall s, I s -> I (g s)) -> maintains I (modify g).
Proof. intros H s Hs. apply H, Hs. Qed.

Lemma maintains_fresh :
  (forall s, I s -> I (with_nextObj (S (nextObj s)) s)) -> maintains I fresh.
Proof. intros H s Hs. apply H, Hs. Qed.

Lemma maintains_try_catch {X : Type} (m : M X) (h : Exn -> M X) :
  maintains I m -> (forall e, maintains I (h e)) ->
  maintains I (try_catch m h).
Proof.
  intros Hm Hh s Hs. rewrite post_try_catch.
  specialize (Hm s Hs). unfold post in Hm.
  destruct (m s) as [[a | e] s']; cbn [snd] in Hm.
  - exact Hm.
  - now apply Hh.
Qed.

Lemma maintains_when (b : bool) (m : M unit) :
  maintains I m -> maintains I (when b m).
Proof. intros H. destruct b; [exact H | apply maintains_ret]. Qed.

Lemma maintains_callListeners (ls : list Listener) :
  maintains I (callListeners ls).
Proof.
  induction ls as [| [| msg] ls IH]; cbn [callListeners].
  - apply maintains_ret.
  - exact IH.
  - apply maintains_throw.
Qed.
End MaintainsSteps.

(** The structural steps of a proof that a method maintains an invariant:
    [special] settles the steps that need their own lemma, [leaf] the field
    updates, [open] unfolds the methods on the way. *)
Ltac maintains_step special leaf open :=
  lazymatch goal with
  | |- maintains _ (ret _) => apply maintains_ret
  | |- maintains _ (throw _) => apply maintains_throw
  | |- maintains _ (gets _) => apply maintains_gets
  | |- maintains _ (callListeners _) => apply maintains_callListeners
  | |- maintains _ (bind _ _) => apply maintains_bind; [| intros ?]
  | |- maintains _ (try_catch _ _) => apply maintains_try_catch; [| intros ?]
  | |- maintains _ (forEach _ _) => apply maintains_forEach; intros ?
  | |- maintains _ (when _ _) => apply maintains_when
  | |- maintains _ (modify _) => apply maintains_modify; intros ? ?; leaf
  | |- maintains _ fresh => apply maintains_fresh; intros ? ?; leaf
  | |- maintains _ (match ?x with _ => _ end) => destruct x
  | |- maintains _ (let _ := _ in _) => cbv zeta
  | |- maintains _ _ => first [special | progress open]
  end.

(** The methods that the set-up paths go through, the registration of the
    worklet module apart. *)
Ltac open_setup :=
  unfold enableAudioCapture, setupExistingTrackCapture, handleTrackSubscribed,
    handleLocalTrackPublished, setupAudioElement, setupAudioCaptureIfEnabled,
    setupTrackCapture, setupEncodedCapture, setupPCMCapture,
    setupScriptProcessorCapture, getSupportedMimeType, ensureAudioContext,
    recordTrackStats, attach, setupAudioMonitoring, emitTrackSubscribed,
    attachAudioElementToDOM, updateElement, emit, log, effect.

(** ** The worklet module is registered once *)

Lemma moduleAdds_snoc (tr : list Effect) (e : Effect) :
  moduleAdds (tr ++ [e])
  = (moduleAdds tr + if isModuleAdded e then 1 else 0)%nat.
Proof.
  unfold moduleAdds. rewrite filter_app, length_app. cbn [filter].
  now destruct (isModuleAdded e).
Qed.

Lemma registersWithin_setupAudioWorkletCapture (lo hi : nat) (o : PcmOptions) :
  maintains (registersWithin lo hi) (setupAudioWorkletCapture o).
Proof.
  intros s [Hlo Hhi].
  unfold post, setupAudioWorkletCapture, bind, effect, modify, gets, ret.
  destruct (workletReady s) as [r |] eqn:E; unfold registersWithin;
    cbn [snd fst trace workletReady with_pending with_workletReady with_trace
         isNone] in *.
  - rewrite E. cbn [isNone]. lia.
  - rewrite moduleAdds_snoc. cbn. lia.
Qed.

Lemma moduleAdds_snoc_other (tr : list Effect) (e : Effect) :
  isModuleAdded e = false -> moduleAdds (tr ++ [e]) = moduleAdds tr.
Proof. intros H. rewrite moduleAdds_snoc, H. lia. Qed.

Lemma registersWithin_same (lo hi : nat) (s s' : State) :
  moduleAdds (trace s') = moduleAdds (trace s) ->
  workletReady s' = workletReady s ->
  registersWithin lo hi s -> registersWithin lo hi s'.
Proof. unfold registersWithin. now intros -> ->. Qed.

Ltac registers_leaf :=
  idtac;
  match goal with
  | H : registersWithin _ _ ?s |- _ =>
      apply (registersWithin_same _ _ s);
      [ first [ reflexivity
              | cbn [trace with_trace]; apply moduleAdds_snoc_other;
                reflexivity ]
      | reflexivity
      | exact H ]
  end.

Lemma registersWithin_setup (lo hi : nat) :
  (forall options,
     maintains (registersWithin lo hi) (enableAudioCapture options))
  /\ (forall t pub p,
        maintains (registersWithin lo hi) (handleTrackSubscribed t pub p))
  /\ (forall t pub p,
        maintains (registersWithin lo hi) (handleLocalTrackPublished t pub p)).
Proof.
  pose proof (registersWithin_setupAudioWorkletCapture lo hi) as K.
  split; [| split]; intros;
    repeat maintains_step ltac:(solve [apply K]) ltac:(registers_leaf)
                          ltac:(open_setup).
Qed.

Lemma registers_bounds {X : Type} (m : M X) (s : State) :
  (forall lo hi, maintains (registersWithin lo hi) m) ->
  (moduleAdds (trace s) <= moduleAdds (trace (post m s)))%nat
  /\ (moduleAdds (trace (post m s)) <= S (moduleAdds (trace s)))%nat
  /\ (workletReady s <> None ->
      moduleAdds (trace (post m s)) = moduleAdds (trace s))
  /\ (moduleAdds (trace (post m s)) = S (moduleAdds (trace s)) ->
      workletReady s = None /\ workletReady (post m s) <> None).
Proof.
  intros H.
  destruct (H (moduleAdds (trace s))
              (moduleAdds (trace s)
               + if isNone (workletReady s) then 1 else 0)%nat s)
    as [Hlo Hhi].
  { split; lia. }
  destruct (workletReady s) as [r |]; destruct (workletReady (post m s));
    cbn [isNone] in Hhi; repeat split; try lia; try congruence;
    intros; try discriminate; lia.
Qed.

(** X14: arming the capture registers the worklet module at most once,
    however many streams it sets up, and not at all while a registration is
    kept; when it registers, the registration is kept afterwards.  The same
    holds for a subscription and for a local publication. *)
Theorem worklet_module_registered_once (s : State) :
  (forall options,
     let s' := post (enableAudioCapture options) s in
     (moduleAdds (trace s) <= moduleAdds (trace s'))%nat
     /\ (moduleAdds (trace s') <= S (moduleAdds (trace s)))%nat
     /\ (workletReady s <> None ->
         moduleAdds (trace s') = moduleAdds (trace s))
     /\ (moduleAdds (trace s') = S (moduleAdds (trace s)) ->
         workletReady s = None /\ workletReady s' <> None))
  /\ (forall t pub p,
        let s' := post (handleTrackSubscribed t pub p) s in
        (moduleAdds (trace s) <= moduleAdds (trace s'))%nat
        /\ (moduleAdds (trace s') <= S (moduleAdds (trace s)))%nat
        /\ (workletReady s <> None ->
            moduleAdds (trace s') = moduleAdds (trace s))
        /\ (moduleAdds (trace s') = S (moduleAdds (trace s)) ->
            workletReady s = None /\ workletReady s' <> None))
  /\ (forall t pub p,
        let s' := post (handleLocalTrackPublished t pub p) s in
        (moduleAdds (trace s) <= moduleAdds (trace s'))%nat
        /\ (moduleAdds (trace s') <= S (moduleAdds (trace s)))%nat
        /\ (workletReady s <> None ->
            moduleAdds (trace s') = moduleAdds (trace s))
        /\ (moduleAdds (trace s') = S (moduleAdds (trace s)) ->
            workletReady s = None /\ workletReady s' <> None)).
Proof.
  split; [| split]; intros; cbv zeta; apply registers_bounds; intros lo hi;
    apply (registersWithin_setup lo hi).
Qed.
(** Two streams armed for PCM at once: one registration, two suspended
    set-ups. *)
Example worklet_module_registered_once_example :
  let s' := post (enableAudioCapture otherOptions) twoStreamsState in
  moduleAdds (trace twoStreamsState) = 0%nat
  /\ moduleAdds (trace s') = 1%nat
  /\ JsMap.keys (trackCaptureMap s') = ["TR_agent"; "TR_user"]
  /\ List.length (pending s') = 2%nat.
Proof. cbv zeta. repeat split; vm_compute; reflexivity. Qed.

(** ** Audio contexts are closed *)

Lemma attainable_serveAll (rs : list Request) (s : State) :
  attainable s -> attainable (serveAll rs s).
Proof.
  unfold serveAll. revert s.
  induction rs as [| r rs IH]; intros s H; cbn [fold_left].
  - exact H.
  - apply IH. now apply attainable_serve.
Qed.

Lemma contextsOpened_snoc (tr : list Effect) (e : Effect) :
  contextsOpened (tr ++ [e])
  = (contextsOpened tr + if isContextCreated e then 1 else 0)%nat.
Proof.
  unfold contextsOpened. rewrite filter_app, length_app. cbn [filter].
  now destruct (isContextCreated e).
Qed.

Lemma contextsClosed_snoc (tr : list Effect) (e : Effect) :
  contextsClosed (tr ++ [e])
  = (contextsClosed tr + if isContextClosed e then 1 else 0)%nat.
Proof.
  unfold contextsClosed. rewrite filter_app, length_app. cbn [filter].
  now destruct (isContextClosed e).
Qed.

Lemma contexts_snoc_other (tr : list Effect) (e : Effect) :
  isContextCreated e = false -> isContextClosed e = false ->
  contextsOpened (tr ++ [e]) = contextsOpened tr
  /\ contextsClosed (tr ++ [e]) = contextsClosed tr.
Proof.
  intros H1 H2. rewrite contextsOpened_snoc, contextsClosed_snoc, H1, H2.
  split; lia.
Qed.

Lemma contextBalanced_same (s s' : State) :
  contextsOpened (trace s') = contextsOpened (trace s)
  /\ contextsClosed (trace s') = contextsClosed (trace s) ->
  audioContext s' = audioContext s ->
  contextBalanced s -> contextBalanced s'.
Proof. unfold contextBalanced. now intros [-> ->] ->. Qed.

Ltac contexts_leaf :=
  idtac;
  match goal with
  | H : contextBalanced ?s |- _ =>
      apply (contextBalanced_same s);
      [ first [ split; reflexivity
              | cbn [trace with_trace]; apply contexts_snoc_other;
                reflexivity ]
      | reflexivity
      | exact H ]
  end.

Arguments contextsOpened : simpl never.
Arguments contextsClosed : simpl never.

Lemma contextBalanced_ensureAudioContext :
  maintains contextBalanced ensureAudioContext.
Proof.
  intros s [Hc Hs].
  unfold post, ensureAudioContext, bind, effect, fresh, modify, gets, ret, when.
  destruct (audioContext s) as [c |] eqn:E.
  - cbn [snd]. split; [now rewrite E | now rewrite E].
  - cbn [isNone] in Hc.
    destruct (hasAudioContextCtor (platform s)); cbn [negb snd].
    2:{ split; [now rewrite E | now rewrite E]. }
    destruct (ctx16kOk (platform s)) eqn:E1;
      destruct (ctxDefaultOk (platform s)) eqn:E2;
      destruct (ctxStartsSuspended (platform s)) eqn:E3;
      unfold contextBalanced; cbn; rewrite ?E1, ?E2, ?E3; cbn;
      rewrite ?contextsOpened_snoc, ?contextsClosed_snoc; cbn;
      (split; [lia |]); intros c; try discriminate;
      intros [= <-]; discriminate.
Qed.

Lemma filter_map_none {A B : Type} (p : B -> bool) (f : A -> B) (l : list A) :
  (forall x, p (f x) = false) -> filter p (map f l) = [].
Proof.
  intros H. induction l as [| x l IH]; cbn; [reflexivity |].
  now rewrite H.
Qed.

Lemma releaseEffects_contexts (s : State) :
  contextsOpened (releaseEffects s) = 0%nat
  /\ contextsClosed (releaseEffects s)
     = match audioContext s with
       | Some c => match ctxState c with Closed => 0 | _ => 1 end
       | None => 0
       end%nat.
Proof.
  unfold contextsOpened, contextsClosed, releaseEffects.
  rewrite !filter_app, !filter_map_none by reflexivity.
  cbn [app]. destruct (audioContext s) as [c |]; [| split; reflexivity].
  destruct (ctxState c); split; reflexivity.
Qed.

Lemma contexts_app (a b : list Effect) :
  contextsOpened (a ++ b) = (contextsOpened a + contextsOpened b)%nat
  /\ contextsClosed (a ++ b) = (contextsClosed a + contextsClosed b)%nat.
Proof.
  unfold contextsOpened, contextsClosed.
  rewrite !filter_app, !length_app. split; reflexivity.
Qed.

Lemma contextBalanced_cleanupAudioCapture :
  maintains contextBalanced cleanupAudioCapture.
Proof.
  intros s [Hc Hs]. unfold post. rewrite cleanupAudioCapture_trace.
  unfold contextBalanced. cbn [snd trace audioContext with_trace
                               with_audioContext isNone].
  destruct (contexts_app (trace s) (releaseEffects s)) as [-> ->].
  destruct (releaseEffects_contexts s) as [-> ->].
  split; [| discriminate].
  destruct (audioContext s) as [c |]; cbn [isNone] in Hc; [| lia].
  specialize (Hs c eq_refl). destruct (ctxState c); [lia | lia | congruence].
Qed.

(** The methods behind the requests; [setVolume] and [#setupAudioElement],
    the creation of the audio context and the release of the capture
    resources are opened apart. *)
Ltac open_requests :=
  unfold setRoom, getInputVolume, getOutputVolume, getTrackStats,
    initializeInputAnalyser, lookupMicPublication,
    getInputByteFrequencyData, getOutputByteFrequencyData,
    initializeOutputAnalyser, setMicMuted, micPromiseSettled, isMicMuted,
    emitMicEventSafely, emitMicControlError, listenerCount,
    enableAudioCapture, disableAudioCapture, setupExistingTrackCapture,
    handleTrackSubscribed, handleLocalTrackPublished,
    handleTrackUnsubscribed, handleLocalTrackUnsubscribed,
    setupAudioCaptureIfEnabled, setupTrackCapture,
    setupEncodedCapture, setupPCMCapture, setupScriptProcessorCapture,
    setupAudioWorkletCapture, resumeAudioWorkletCapture, runPending,
    getSupportedMimeType, recordTrackStats, attach, detach,
    setupAudioMonitoring, emitTrackSubscribed, attachAudioElementToDOM,
    detachTrackElements, removeFromDOM, cleanupTrackMetadata, cleanup,
    dispatch, onPlay, onPause, onEnded, on, updateElement, emit, log, effect.

Ltac open_volume := unfold setVolume, setupAudioElement.

Ltac open_contexts := unfold ensureAudioContext, cleanupAudioCapture.

Lemma contextBalanced_serve (r : Request) :
  maintains contextBalanced (serve r).
Proof.
  pose proof contextBalanced_ensureAudioContext as K1.
  pose proof contextBalanced_cleanupAudioCapture as K2.
  destruct r as [c | | | | | | | |]; [destruct c |..];
    cbn [serve perform];
    repeat maintains_step ltac:(first [exact K1 | exact K2])
                          ltac:(contexts_leaf)
                          ltac:(open_requests; open_volume).
Qed.

Lemma attainable_contextBalanced (s : State) :
  attainable s -> contextBalanced s.
Proof.
  induction 1 as [p ls t | r s _ IH].
  - split; [reflexivity | discriminate].
  - now apply contextBalanced_serve.
Qed.

(** X15: in every state a manager can reach, whatever the requests made
    and their order, each audio context that was created has been closed,
    except the one the manager holds: at most one context is open at a
    time.  After [cleanup()] or [disableAudioCapture()] none is open. *)
Theorem audio_contexts_balanced (s : State) :
  attainable s ->
  contextsOpened (trace s)
  = (contextsClosed (trace s) + if isNone (audioContext s) then 0 else 1)%nat
  /\ contextsOpened (trace (post cleanup s))
     = contextsClosed (trace (post cleanup s))
  /\ contextsOpened (trace (post disableAudioCapture s))
     = contextsClosed (trace (post disableAudioCapture s)).
Proof.
  intros H.
  split; [apply attainable_contextBalanced, H |].
  split.
  - destruct (attainable_contextBalanced
                _ (attainable_serve (ReqCall CallCleanup) s H)) as [B _].
    cbn [serve perform] in B. rewrite B.
    unfold post. destruct (cleanup_run s) as (h & tr & ->). cbn. lia.
  - destruct (attainable_contextBalanced
                _ (attainable_serve (ReqCall CallDisableCapture) s H))
      as [B _].
    cbn [serve perform] in B. rewrite B.
    unfold post. rewrite disableAudioCapture_run. cbn. lia.
Qed.

Lemma audio_contexts_balanced_witness :
  attainable tornDownState
  /\ contextsOpened (trace tornDownState) = 2%nat
  /\ contextsClosed (trace tornDownState) = 2%nat
  /\ audioContext tornDownState = None.
Proof.
  assert (A : attainable tornDownState)
    by apply attainable_serveAll, attainable_new.
  destruct (audio_contexts_balanced tornDownState A) as (B & _).
  assert (N : audioContext tornDownState = None)
    by (vm_compute; reflexivity).
  assert (C : contextsClosed (trace tornDownState) = 2%nat)
    by (vm_compute; reflexivity).
  rewrite N, C in B.
  exact (conj A (conj B (conj C N))).
Defined.
(** ** Every tracked element plays at the stored volume *)

Lemma setupAudioElement_prefix (t : Track) (pub : Publication)
    (p : Participant) (s : State) :
  setupAudioElement t pub p s
  = if attachYields t then
      (emitTrackSubscribed t pub p ;;
       attachAudioElementToDOM (nextObj s) ;;
       setupAudioCaptureIfEnabled t p) (elementAdded (nextObj s) t s)
    else (Ok tt, s).
Proof.
  unfold setupAudioElement, attach. destruct (attachYields t); reflexivity.
Qed.

Lemma in_set_add (x y : nat) (l : list nat) :
  In y (set_add x l) <-> y = x \/ In y l.
Proof.
  unfold set_add. destruct (existsb (Nat.eqb x) l) eqn:E.
  - apply existsb_exists in E as (z & Hz & Ez). apply Nat.eqb_eq in Ez.
    subst z. split; [auto | intros [-> | H]; assumption].
  - rewrite in_app_iff. cbn. split.
    + intros [H | [<- | []]]; auto.
    + intros [-> | H]; auto.
Qed.

Lemma volumeApplied_same (s s' : State) :
  volume s' = volume s ->
  incl (audioElements s') (audioElements s) ->
  map (fun e => (elId e, elVolume e)) (heap s')
  = map (fun e => (elId e, elVolume e)) (heap s) ->
  (nextObj s <= nextObj s')%nat ->
  volumeApplied s -> volumeApplied s'.
Proof.
  intros Hv Hi Hh Hn (Hq & Hids & Hvol). unfold volumeApplied.
  rewrite Hv. split; [exact Hq |]. split.
  - intros id Hid. specialize (Hids id (Hi id Hid)). lia.
  - intros e' He' Hid'.
    assert (P : In (elId e', elVolume e')
                   (map (fun e => (elId e, elVolume e)) (heap s)))
      by (rewrite <- Hh; apply (in_map (fun e => (elId e, elVolume e)) _ _ He')).
    apply in_map_iff in P as (e & [= E1 E2] & He).
    rewrite <- E2. apply Hvol; [exact He |]. rewrite E1. now apply Hi.
Qed.

Ltac volume_leaf :=
  idtac;
  match goal with
  | H : volumeApplied ?s |- _ =>
      apply (volumeApplied_same s);
      [ reflexivity
      | cbn [audioElements with_audioElements];
        first [ apply incl_refl
              | apply incl_filter
              | apply incl_nil_l ]
      | first [ reflexivity
              | cbn [heap with_heap]; rewrite map_map; apply map_ext;
                intros ?e;
                match goal with
                | |- context [Nat.eqb ?a ?b] => destruct (Nat.eqb a b)
                end; reflexivity ]
      | first [ apply Nat.le_refl | cbn [nextObj with_nextObj]; lia ]
      | exact H ]
  end.

Lemma volumeApplied_setVolume (v : number) :
  maintains volumeApplied (setVolume v).
Proof.
  intros s (_ & Hids & _).
  destruct (setVolume_state v s) as (tail & Hv & Hh & Ha & _).
  destruct (setVolume_stored v s) as (c & Hc & H0 & H1 & _).
  assert (Hn : nextObj (post (setVolume v) s) = nextObj s).
  { assert (K : keeps nextObj (fun _ => True) (setVolume v))
      by (unfold setVolume; keeps_fields).
    now apply K. }
  unfold volumeApplied. rewrite Ha, Hn, Hh.
  split; [now exists c |]. split; [exact Hids |].
  intros e He Hid. rewrite Hv.
  now apply (applyVolume_sets _ _ _ _ He).
Qed.

Lemma volumeApplied_elementAdded (t : Track) (s : State) :
  volumeApplied s -> volumeApplied (elementAdded (nextObj s) t s).
Proof.
  intros (Hq & Hids & Hvol). unfold volumeApplied, elementAdded.
  cbn [volume audioElements heap nextObj with_audioElements with_heap
       with_nextObj].
  split; [exact Hq |]. split.
  - intros id Hid. apply in_set_add in Hid as [-> | Hid]; [lia |].
    specialize (Hids id Hid). lia.
  - intros e' He' Hid'.
    rewrite !map_map in He'. apply in_map_iff in He' as (e & <- & He).
    destruct (Nat.eqb (elId e) (nextObj s)) eqn:E;
      repeat (cbn [elId elVolume with_elVolume with_elAutoplay
                   with_elMonitors] in *;
              rewrite ?E in * );
      [reflexivity |].
    apply Nat.eqb_neq in E.
    apply in_app_iff in He as [He | [<- | []]]; [| now cbn in E].
    apply Hvol; [exact He |].
    apply in_set_add in Hid' as [Hx | Hx]; [contradiction | exact Hx].
Qed.

Lemma volumeApplied_setupAudioCaptureIfEnabled (t : Track) (p : Participant) :
  maintains volumeApplied (setupAudioCaptureIfEnabled t p).
Proof.
  repeat maintains_step ltac:(idtac; fail) ltac:(volume_leaf)
                         ltac:(open_requests; open_contexts).
Qed.

Lemma volumeApplied_setupAudioElement (t : Track) (pub : Publication)
    (p : Participant) :
  maintains volumeApplied (setupAudioElement t pub p).
Proof.
  intros s H. unfold post. rewrite setupAudioElement_prefix.
  destruct (attachYields t); [| exact H].
  pose proof (volumeApplied_setupAudioCaptureIfEnabled t p) as K.
  assert (T : maintains volumeApplied
                (emitTrackSubscribed t pub p ;;
                 attachAudioElementToDOM (nextObj s) ;;
                 setupAudioCaptureIfEnabled t p)).
  { repeat maintains_step ltac:(exact K) ltac:(volume_leaf)
                          ltac:(unfold emitTrackSubscribed,
                                  attachAudioElementToDOM, updateElement,
                                  emit, effect). }
  apply T. now apply volumeApplied_elementAdded.
Qed.

Lemma volumeApplied_serve (r : Request) :
  maintains volumeApplied (serve r).
Proof.
  pose proof volumeApplied_setVolume as K1.
  pose proof volumeApplied_setupAudioElement as K2.
  destruct r as [c | | | | | | | |]; [destruct c |..];
    cbn [serve perform];
    repeat maintains_step ltac:(first [apply K1 | apply K2])
                          ltac:(volume_leaf)
                          ltac:(open_requests; open_contexts).
Qed.

Lemma attainable_volumeApplied (s : State) :
  attainable s -> volumeApplied s.
Proof.
  induction 1 as [p ls t | r s _ IH].
  - split; [exists 1%Q; repeat split; discriminate |].
    split; intros ? [].
  - now apply volumeApplied_serve.
Qed.

(** X16: in every state a manager can reach, whatever the requests made
    and their order, the stored volume is a number within [0,1] and every
    tracked audio element plays at exactly that volume: [setVolume] reaches
    the elements subscribed before it, and a subscription gives the new
    element the volume stored at that moment. *)
Theorem tracked_elements_play_at_stored_volume (s : State) :
  attainable s ->
  (exists q, volume s = Fin q /\ (0 <= q)%Q /\ (q <= 1)%Q)
  /\ forall id e,
       In id (audioElements s) -> findElement id s = Some e ->
       elVolume e = volume s.
Proof.
  intros H. destruct (attainable_volumeApplied s H) as (Hq & _ & Hvol).
  split; [exact Hq |].
  intros id e Hid Hf. unfold findElement in Hf.
  apply find_some in Hf as [He Eid]. apply Nat.eqb_eq in Eid.
  apply Hvol; [exact He | now rewrite Eid].
Qed.

Lemma tracked_elements_play_at_stored_volume_witness :
  attainable mixedState
  /\ volume mixedState = Fin 1
  /\ audioElements mixedState = [0; 1]%nat
  /\ map elVolume (heap mixedState) = [Fin 1; Fin 1].
Proof.
  assert (A : attainable mixedState)
    by apply attainable_serveAll, attainable_new.
  destruct (tracked_elements_play_at_stored_volume mixedState A) as [_ H].
  split; [exact A |].
  split; [vm_compute; reflexivity |].
  split; [vm_compute; reflexivity |].
  vm_compute. reflexivity.
Defined.
(** ** Subscribing and unsubscribing *)

Lemma post_bind_keeps {V X Y : Type} (v : State -> V) (m : M X)
    (k : X -> M Y) (s : State) :
  (forall x, keeps v (fun _ => True) (k x)) ->
  v (post (bind m k) s) = v (post m s).
Proof.
  intros K. rewrite post_bind. unfold post.
  destruct (m s) as [[x | e] s']; [| reflexivity].
  now apply K.
Qed.

Ltac elements_leaf :=
  cbv [elementsView];
  cbn [audioElements heap with_audioElements with_trackStats with_volume
       with_room with_audioContext with_inputAnalyser with_outputAnalyser
       with_audioCaptureEnabled with_audioCaptureOptions with_recorders
       with_processors with_sourceNodes with_clonedTracks
       with_trackCaptureMap with_workletReady with_heap with_nextObj
       with_pending with_trace with_listeners with_now];
  first [ reflexivity
        | f_equal; rewrite map_map; apply map_ext; intros ?e;
          match goal with
          | |- context [Nat.eqb ?a ?b] => destruct (Nat.eqb a b)
          end; reflexivity ].

Lemma keeps_elementsView_setupAudioCaptureIfEnabled t p :
  keeps elementsView (fun _ => True) (setupAudioCaptureIfEnabled t p).
Proof.
  unfold setupAudioCaptureIfEnabled, setupTrackCapture.
  keeps_auto ltac:(elements_leaf).
Qed.

Lemma elementsView_elementAdded (n : nat) (t : Track) (s : State) :
  elementsView (elementAdded n t s)
  = (set_add n (audioElements s),
     (snd (elementsView s) ++ [(n, trackObj t, true)])%list).
Proof.
  unfold elementsView, elementAdded.
  cbn [audioElements heap with_audioElements with_heap with_nextObj snd].
  f_equal. rewrite !map_map, map_app. cbn [map]. f_equal.
  - apply map_ext. intros e.
    destruct (Nat.eqb (elId e) n) eqn:E;
      repeat (cbn [elId elTrack elAttached with_elVolume with_elAutoplay
                   with_elMonitors];
              rewrite ?E);
      reflexivity.
  - repeat (cbn [elId elTrack elAttached newElement with_elVolume
                 with_elAutoplay with_elMonitors];
            rewrite ?Nat.eqb_refl).
    reflexivity.
Qed.

(** What a subscription does to the tracked elements: one new element,
    attached to the track, or nothing when [attach()] yields none. *)
Lemma elementsView_handleTrackSubscribed t pub p s :
  isAudio (kind t) = true ->
  elementsView (post (handleTrackSubscribed t pub p) s)
  = if attachYields t
    then (set_add (nextObj s) (audioElements s),
          (snd (elementsView s) ++ [(nextObj s, trackObj t, true)])%list)
    else elementsView s.
Proof.
  intros Hk. unfold handleTrackSubscribed. rewrite Hk.
  rewrite post_bind, recordTrackStats_run.
  pose proof (keeps_elementsView_setupAudioCaptureIfEnabled t p) as K.
  rewrite post_bind_keeps by (intros _; exact K).
  unfold post. rewrite setupAudioElement_prefix.
  destruct (attachYields t); [| reflexivity].
  assert (T : keeps elementsView (fun _ => True)
                (emitTrackSubscribed t pub p ;;
                 attachAudioElementToDOM
                   (nextObj
                      (with_trackStats
                         (JsMap.set (trackKey t)
                            (statsRecord t pub p (now s)) (trackStats s)) s)) ;;
                 setupAudioCaptureIfEnabled t p)).
  { unfold emitTrackSubscribed, attachAudioElementToDOM.
    keeps_auto ltac:(elements_leaf). }
  etransitivity; [exact (T _ I) |].
  rewrite elementsView_elementAdded. reflexivity.
Qed.

Lemma forEach_updateElement (ids : list nat)
    (f : AudioElement -> AudioElement) (s : State) :
  exists h, forEach ids (fun id => updateElement id f) s
            = (Ok tt, with_heap h s).
Proof.
  revert s. induction ids as [| id ids IH]; intros s.
  - exists (heap s). cbn. now rewrite with_heap_same.
  - cbn [forEach]. unfold bind at 1. rewrite updateElement_run.
    destruct (IH (with_heap
                    (map (fun e => if Nat.eqb (elId e) id then f e else e)
                         (heap s)) s)) as (h & ->).
    exists h. destruct s; reflexivity.
Qed.

Lemma detach_run (t : Track) (s : State) :
  exists h, detach t s = (Ok (attachedTo t s), with_heap h s).
Proof.
  unfold detach, bind at 1. cbn [gets]. unfold bind.
  destruct (forEach_updateElement (attachedTo t s) (with_elAttached false) s)
    as (h & E).
  unfold attachedTo in *. rewrite E. now exists h.
Qed.

Lemma removeFromDOM_run (el : nat) (s : State) :
  exists h tr, removeFromDOM el s = (Ok tt, with_trace tr (with_heap h s)).
Proof.
  unfold removeFromDOM, bind. cbn [gets].
  destruct (findElement el s) as [x |].
  - destruct (elInDom x); cbn.
    + eexists _, _. destruct s; reflexivity.
    + exists (heap s), (trace s). destruct s; reflexivity.
  - exists (heap s), (trace s). destruct s; reflexivity.
Qed.

Lemma untrack_loop (ids : list nat) (s : State) :
  exists h tr,
    forEach ids (fun el =>
      removeFromDOM el ;;
      modify (fun s => with_audioElements
                         (set_delete el (audioElements s)) s)) s
    = (Ok tt,
       with_audioElements
         (fold_left (fun l el => set_delete el l) ids (audioElements s))
         (with_trace tr (with_heap h s))).
Proof.
  revert s. induction ids as [| el ids IH]; intros s.
  - exists (heap s), (trace s). destruct s; reflexivity.
  - cbn [forEach fold_left]. unfold bind at 1. unfold bind at 1.
    destruct (removeFromDOM_run el s) as (h & tr & ->). cbn [modify].
    match goal with
    | |- context [forEach ids ?f ?st] =>
        destruct (IH st) as (h' & tr' & ->)
    end.
    exists h', tr'. destruct s; reflexivity.
Qed.

(** What an unsubscription does to the tracked elements: those that
    [detach()] hands back are dropped. *)
Lemma audioElements_handleTrackUnsubscribed t pub p s :
  isAudio (kind t) = true ->
  audioElements (post (handleTrackUnsubscribed t pub p) s)
  = if hasDetach t
    then fold_left (fun l el => set_delete el l) (attachedTo t s)
                   (audioElements s)
    else audioElements s.
Proof.
  intros Hk. unfold handleTrackUnsubscribed. rewrite Hk. cbn [negb].
  rewrite post_bind. unfold cleanupTrackMetadata at 1. cbn [modify].
  assert (E : keeps audioElements (fun _ => True)
                (emit EvTrackUnsubscribed
                   (PUnsubscribed (trackKey t)
                                  (str_or (identity p) "unknown"))))
    by keeps_fields.
  rewrite (post_bind_keeps audioElements) by (intros _; exact E).
  destruct (hasDetach t); [| reflexivity].
  cbn [when]. unfold detachTrackElements, post. unfold bind at 1.
  match goal with
  | |- context [detach t ?st] =>
      destruct (detach_run t st) as (h & ->);
      change (attachedTo t st) with (attachedTo t s)
  end.
  match goal with
  | |- context [forEach ?ids ?f ?st] =>
      destruct (untrack_loop ids st) as (h' & tr' & ->)
  end.
  reflexivity.
Qed.

Lemma attachedTo_view (t : Track) (s s' : State) :
  snd (elementsView s') = snd (elementsView s) ->
  attachedTo t s' = attachedTo t s.
Proof.
  unfold elementsView, attachedTo. cbn [snd].
  generalize (heap s). induction (heap s') as [| e' h' IH];
    intros [| e h] E; try discriminate; [reflexivity |].
  cbn in E. injection E as E1 E2 E3 E4. cbn [filter].
  rewrite E2, E3.
  destruct (Nat.eqb (elTrack e) (trackObj t) && elAttached e);
    cbn [map]; rewrite (IH h E4); congruence.
Qed.

Lemma attachedTo_added (t : Track) (s s' : State) (n : nat) :
  snd (elementsView s')
  = (snd (elementsView s) ++ [(n, trackObj t, true)])%list ->
  attachedTo t s' = (attachedTo t s ++ [n])%list.
Proof.
  unfold elementsView, attachedTo. cbn [snd].
  generalize (heap s'). induction (heap s) as [| e h IH]; intros h' E.
  - destruct h' as [| e' [| e'' h']]; try discriminate.
    cbn in E. injection E as E1 E2 E3. cbn.
    rewrite E2, E3, Nat.eqb_refl. cbn. now rewrite E1.
  - destruct h' as [| e' h']; [discriminate |].
    cbn in E. injection E as E1 E2 E3 E4. cbn [filter].
    rewrite E2, E3.
    destruct (Nat.eqb (elTrack e) (trackObj t) && elAttached e);
      cbn [map app]; rewrite (IH h' E4); congruence.
Qed.

Lemma set_delete_add (n : nat) (l : list nat) :
  ~ In n l -> set_delete n (set_add n l) = l.
Proof.
  intros H. unfold set_add, set_delete.
  assert (F : filter (fun y => negb (Nat.eqb n y)) l = l).
  { induction l as [| x l IH]; [reflexivity |]. cbn.
    destruct (Nat.eqb_spec n x) as [-> | Hne].
    - exfalso. apply H. now left.
    - cbn. f_equal. apply IH. intros Hin. apply H. now right. }
  destruct (existsb (Nat.eqb n) l) eqn:E.
  - apply existsb_exists in E as (x & Hx & Ex). apply Nat.eqb_eq in Ex.
    subst x. contradiction.
  - rewrite filter_app, F. cbn. rewrite Nat.eqb_refl. cbn. apply app_nil_r.
Qed.

Lemma JsMap_delete_set_new {V : Type} (k : string) (v : V) (m : JsMap.t V) :
  JsMap.has k m = false -> JsMap.delete k (JsMap.set k v m) = m.
Proof.
  unfold JsMap.has, JsMap.delete.
  induction m as [| [k' v'] m IH]; cbn.
  - now rewrite String.eqb_refl.
  - destruct (String.eqb k k') eqn:E; [discriminate |].
    intros H. cbn. rewrite E. cbn. f_equal. now apply IH.
Qed.

(** X17: a subscription followed by the unsubscription of the same remote
    track is a round trip for the registry and for the tracked elements.
    In a state the manager can reach, for an audio track that has a
    [detach] method, no record under its key and no element attached,
    [handleTrackSubscribed] then [handleTrackUnsubscribed] leave the
    statistics and the set of tracked elements exactly as they were, so
    [getTrackStats()] answers as before; this holds whatever the listeners
    do and whether or not [attach()] yields an element. *)
Theorem subscribe_unsubscribe_round_trip
    (s : State) (t : Track) (pub pub' : Publication) (p p' : Participant) :
  attainable s ->
  kind t = KAudio ->
  hasDetach t = true ->
  JsMap.has (trackKey t) (trackStats s) = false ->
  attachedTo t s = [] ->
  let s1 := post (handleTrackSubscribed t pub p) s in
  let s2 := post (handleTrackUnsubscribed t pub' p') s1 in
  JsMap.get (trackKey t) (trackStats s1)
  = Some (statsRecord t pub p (now s))
  /\ (attachYields t = true ->
      audioElements s1 = (audioElements s ++ [nextObj s])%list)
  /\ trackStats s2 = trackStats s
  /\ audioElements s2 = audioElements s
  /\ outcome getTrackStats s2 = outcome getTrackStats s.
Proof.
  intros Ha Hk Hd Hnew Hfree. cbv zeta.
  assert (Hk' : isAudio (kind t) = true) by now rewrite Hk.
  destruct (attainable_volumeApplied s Ha) as (_ & Hids & _).
  assert (Hn : ~ In (nextObj s) (audioElements s))
    by (intros Hin; specialize (Hids _ Hin); lia).
  pose proof (elementsView_handleTrackSubscribed t pub p s Hk') as V.
  assert (Hstats : trackStats
                     (post (handleTrackUnsubscribed t pub' p')
                           (post (handleTrackSubscribed t pub p) s))
                   = trackStats s).
  { rewrite trackStats_handleTrackUnsubscribed by exact Hk'.
    rewrite trackStats_handleTrackSubscribed by exact Hk'.
    now apply JsMap_delete_set_new. }
  assert (Hels : audioElements
                   (post (handleTrackUnsubscribed t pub' p')
                         (post (handleTrackSubscribed t pub p) s))
                 = audioElements s).
  { rewrite audioElements_handleTrackUnsubscribed by exact Hk'.
    rewrite Hd. destruct (attachYields t).
    - rewrite (attachedTo_added t s _ (nextObj s)) by now rewrite V.
      rewrite Hfree. cbn [app fold_left].
      change (audioElements (post (handleTrackSubscribed t pub p) s))
        with (fst (elementsView (post (handleTrackSubscribed t pub p) s))).
      rewrite V. cbn [fst]. now apply set_delete_add.
    - rewrite (attachedTo_view t s) by now rewrite V.
      rewrite Hfree. cbn [fold_left].
      change (audioElements (post (handleTrackSubscribed t pub p) s))
        with (fst (elementsView (post (handleTrackSubscribed t pub p) s))).
      now rewrite V. }
  split.
  { rewrite trackStats_handleTrackSubscribed by exact Hk'.
    apply JsMap_get_set_same. }
  split.
  { intros Hy. rewrite Hy in V.
    change (audioElements (post (handleTrackSubscribed t pub p) s))
      with (fst (elementsView (post (handleTrackSubscribed t pub p) s))).
    rewrite V. cbn [fst]. unfold set_add.
    destruct (existsb (Nat.eqb (nextObj s)) (audioElements s)) eqn:E;
      [| reflexivity].
    apply existsb_exists in E as (x & Hx & Ex). apply Nat.eqb_eq in Ex.
    subst x. contradiction. }
  split; [exact Hstats |]. split; [exact Hels |].
  unfold outcome, getTrackStats. cbn [gets fst]. now rewrite Hstats, Hels.
Qed.

Lemma subscribe_unsubscribe_round_trip_witness :
  let t := demoTrack 3 "TR_third" in
  let s1 := post (handleTrackSubscribed t (demoPublication t)
                                        agentParticipant) mixedState in
  let s2 := post (handleTrackUnsubscribed t (demoPublication t)
                                          agentParticipant) s1 in
  attainable mixedState
  /\ audioElements mixedState = [0; 1]%nat
  /\ audioElements s1 = [0; 1; 2]%nat
  /\ trackStats s2 = trackStats mixedState
  /\ audioElements s2 = audioElements mixedState.
Proof.
  cbv zeta.
  assert (A : attainable mixedState)
    by apply attainable_serveAll, attainable_new.
  assert (H1 : JsMap.has (trackKey (demoTrack 3 "TR_third"))
                         (trackStats mixedState) = false)
    by (vm_compute; reflexivity).
  assert (H2 : attachedTo (demoTrack 3 "TR_third") mixedState = [])
    by (vm_compute; reflexivity).
  destruct (subscribe_unsubscribe_round_trip
              mixedState (demoTrack 3 "TR_third")
              (demoPublication (demoTrack 3 "TR_third"))
              (demoPublication (demoTrack 3 "TR_third"))
              agentParticipant agentParticipant A eq_refl eq_refl H1 H2)
    as (_ & Hadd & Hstats & Hels & _).
  assert (E0 : audioElements mixedState = [0; 1]%nat)
    by (vm_compute; reflexivity).
  assert (E1 : (audioElements mixedState ++ [nextObj mixedState])%list
               = [0; 1; 2]%nat)
    by (vm_compute; reflexivity).
  specialize (Hadd eq_refl). rewrite E1 in Hadd.
  exact (conj A (conj E0 (conj Hadd (conj Hstats Hels)))).
Defined.
(** ** The range and the order of the converted samples *)

Lemma Qtrunc_le (x y : Q) : (x <= y)%Q -> (Qtrunc x <= Qtrunc y)%Z.
Proof.
  intros H.
  destruct (Z_le_gt_dec 0 (Qnum x)) as [Hx | Hx].
  - assert (Hy : (0 <= Qnum y)%Z).
    { apply Qnum_sign. eapply Qle_trans; [| exact H]. now apply Qnum_sign. }
    rewrite !Qtrunc_nonneg by assumption. now apply Qfloor_resp_le.
  - destruct (Z_le_gt_dec 0 (Qnum y)) as [Hy | Hy].
    + rewrite (Qtrunc_neg x) by lia. rewrite (Qtrunc_nonneg y) by assumption.
      assert (Qceiling x <= 0)%Z.
      { rewrite <- (Qceiling_Z 0). apply Qceiling_resp_le.
        destruct x as [a d]. unfold Qle. simpl in *. lia. }
      assert (0 <= Qfloor y)%Z.
      { rewrite <- (Qfloor_Z 0). apply Qfloor_resp_le. now apply Qnum_sign. }
      lia.
    + rewrite !Qtrunc_neg by lia. now apply Qceiling_resp_le.
Qed.

Lemma clampQ_le (lo hi s s' : Q) :
  (lo <= hi)%Q -> (s <= s')%Q -> (clampQ lo hi s <= clampQ lo hi s')%Q.
Proof.
  intros Hlh H. unfold clampQ.
  destruct (Qle_bool s lo) eqn:E1; destruct (Qle_bool s' lo) eqn:E1';
    try apply Qle_refl.
  - destruct (Qle_bool hi s') eqn:E2'; [exact Hlh |].
    apply Qlt_le_weak, Qnot_le_lt. intros C. apply Qle_bool_iff in C.
    congruence.
  - exfalso. apply Qle_bool_iff in E1'.
    assert (C : (s <= lo)%Q) by (eapply Qle_trans; eassumption).
    apply Qle_bool_iff in C. congruence.
  - destruct (Qle_bool hi s) eqn:E2; destruct (Qle_bool hi s') eqn:E2';
      try apply Qle_refl; try exact H.
    + exfalso. apply Qle_bool_iff in E2.
      assert (C : (hi <= s')%Q) by (eapply Qle_trans; eassumption).
      apply Qle_bool_iff in C. congruence.
    + apply Qlt_le_weak, Qnot_le_lt. intros C. apply Qle_bool_iff in C.
      congruence.
Qed.

Lemma float32ToInt16_elem_bounds (x : number) :
  (-32767 <= float32ToInt16_elem x <= 32767)%Z.
Proof.
  destruct x as [s | | |]; try (cbn; lia).
  rewrite float32ToInt16_elem_finite.
  destruct (clampQ_range s) as [Hlo Hhi].
  apply (Qtrunc_bounds _ 32767); [lia | |].
  - setoid_replace (inject_Z (- 32767)) with (((-1 # 1) * INT16_SCALE)%Q)
      by reflexivity.
    apply Qmult_le_compat_r; [assumption | discriminate].
  - setoid_replace (inject_Z 32767) with (((1 # 1) * INT16_SCALE)%Q)
      by reflexivity.
    apply Qmult_le_compat_r; [assumption | discriminate].
Qed.

(** X18: [#float32ToInt16] returns as many samples as it is given; every
    one of them lies within [-32767, 32767], so the store into the
    [Int16Array] never wraps around and -32768 never occurs; the
    conversion keeps the order of finite samples and maps 0 to 0. *)
Theorem float32ToInt16_bounded_monotone (buffer : list number) :
  List.length (float32ToInt16 buffer) = List.length buffer
  /\ Forall (fun z => -32767 <= z <= 32767) (float32ToInt16 buffer)
  /\ (forall s s' : Q,
        (s <= s')%Q ->
        exists z z',
          float32ToInt16 [Fin s; Fin s'] = [z; z'] /\ z <= z')
  /\ float32ToInt16 [Fin 0] = [0].
Proof.
  rewrite float32ToInt16_map.
  split; [apply length_map |].
  split.
  { apply Forall_forall. intros z Hz.
    apply in_map_iff in Hz as (x & <- & _).
    apply float32ToInt16_elem_bounds. }
  split; [| reflexivity].
  intros s s' H.
  exists (float32ToInt16_elem (Fin s)), (float32ToInt16_elem (Fin s')).
  split; [apply float32ToInt16_map |].
  rewrite !float32ToInt16_elem_finite. apply Qtrunc_le.
  apply Qmult_le_compat_r; [| discriminate].
  apply clampQ_le; [discriminate | exact H].
Qed.

(** ** What the delivery function receives *)

Lemma callCallback_run (reply : CallbackReply) (s : State) :
  callCallback reply s
  = (match reply with
     | CallbackReturns => Ok tt
     | CallbackThrows msg => Raised (JsError msg)
     end, s).
Proof. destruct reply; reflexivity. Qed.

(** X19: the two PCM handlers hand the delivery function the same data
    for the same samples: the samples themselves, or for ['pcm-i16'] the
    converted value of each sample in order; the metadata carry the
    stream's id, participant, role and source, the requested format and the
    time of the call.  The worklet handler catches what the delivery
    function throws and logs it, so it always returns; the ScriptProcessor
    handler lets it through and changes nothing. *)
Theorem pcm_handlers_deliver (o : PcmOptions) (reply : CallbackReply)
    (sampleRate channels : Z) (audioData : list number) (s : State) :
  let data :=
    if isPcmI16 (poFormat o)
    then Int16Buffer (map float32ToInt16_elem audioData)
    else Float32Buffer audioData in
  let metadata rate n :=
    {| mdParticipant := poParticipant o; mdSource := poSource o;
       mdTimestamp := now s; mdTrackId := poTrackId o;
       mdTrackSource := poTrackSource o; mdFormat := poFormat o;
       mdSampleRate := rate; mdChannels := n |} in
  onWorkletMessage o reply audioData s
  = (Ok (data, metadata (ctxSampleRate (poContext o)) 1),
     match reply with
     | CallbackReturns => s
     | CallbackThrows _ =>
         with_trace
           (trace s ++ [Logged ("Callback error for "
                                ++ roleString (poSource o) ++ ":")]) s
     end)
  /\ onAudioProcess o reply sampleRate channels audioData s
     = (match reply with
        | CallbackReturns => Ok (data, metadata (Some sampleRate) channels)
        | CallbackThrows msg => Raised (JsError msg)
        end, s).
Proof.
  cbv zeta. unfold onWorkletMessage, onAudioProcess, pcmOutput, bind.
  cbn [gets]. unfold try_catch. rewrite callCallback_run.
  rewrite float32ToInt16_map.
  destruct reply; split; reflexivity.
Qed.
(** ** A session outlives a new arming *)

Lemma keeps_sessionOf_setupTrackCapture (trackId id' p : string) (r : Role)
    (f : AudioCaptureFormat) :
  keeps (sessionOf trackId) (fun v => fst (fst v) <> None)
        (setupTrackCapture id' p r f).
Proof.
  destruct (String.eqb_spec trackId id') as [<- | Hne].
  - intros s HP. cbn in HP.
    assert (Hd : JsMap.has trackId (trackCaptureMap s) = true).
    { unfold JsMap.has.
      destruct (JsMap.get trackId (trackCaptureMap s)); congruence. }
    unfold post, setupTrackCapture, bind. cbn [gets].
    destruct (audioCaptureOptions s); [| reflexivity].
    destruct (getTrackById trackId s) as [t |]; [| reflexivity].
    destruct (mediaStreamTrackId t); [| reflexivity].
    rewrite Hd. reflexivity.
  - unfold setupTrackCapture.
    keeps_auto ltac:(
      cbv [sessionOf]; cbn;
      rewrite ?(JsMap_get_set_other trackId id') by exact Hne;
      reflexivity).
Qed.

(** X20: a capture session is not touched by a new arming.  Once a stream
    has a session, [enableAudioCapture] with any options leaves the
    session's record, its clone and its recorder as they are, although the
    stored options are replaced: the new delivery function, format and
    chunk size reach only the streams set up afterwards.  A subscription
    or a local publication leaves them alone as well. *)
Theorem capture_session_survives_rearming
    (s : State) (trackId : string) (options : AudioCaptureOptions) :
  JsMap.has trackId (trackCaptureMap s) = true ->
  sessionOf trackId (post (enableAudioCapture options) s)
  = sessionOf trackId s
  /\ (forall cb, opt_or (callback options) (onData options) = Some cb ->
        exists o, audioCaptureOptions (post (enableAudioCapture options) s)
                  = Some o
                  /\ callback o = Some cb
                  /\ format o = Some (givenOr (format options) OpusWebm)
                  /\ chunkSize o
                     = Some (match chunkSize options with
                             | Some x => if falsy x then Fin 100 else x
                             | None => Fin 100
                             end))
  /\ forall t pub p,
       sessionOf trackId (post (handleTrackSubscribed t pub p) s)
       = sessionOf trackId s
       /\ sessionOf trackId (post (handleLocalTrackPublished t pub p) s)
          = sessionOf trackId s.
Proof.
  intros Hd.
  assert (HP : fst (fst (sessionOf trackId s)) <> None).
  { cbn. unfold JsMap.has in Hd.
    destruct (JsMap.get trackId (trackCaptureMap s)); congruence. }
  pose proof (keeps_sessionOf_setupTrackCapture trackId) as K.
  split.
  { assert (E : keeps (sessionOf trackId) (fun v => fst (fst v) <> None)
                  (enableAudioCapture options)).
    { unfold enableAudioCapture, setupExistingTrackCapture.
      keeps_auto ltac:(cbv [sessionOf]; cbn; reflexivity). }
    now apply E. }
  split.
  { intros cb Hcb.
    pose proof (keeps_armed_setupExistingTrackCapture (fun _ => True)) as A.
    unfold enableAudioCapture. rewrite Hcb.
    rewrite post_bind. cbn [modify]. rewrite post_bind. cbn [modify].
    match goal with
    | |- context [post setupExistingTrackCapture ?st] =>
        specialize (A st I)
    end.
    cbn beta in A. injection A as _ A2.
    rewrite A2. eexists. split; [reflexivity |]. split; [reflexivity |].
    split; [destruct (format options); reflexivity | reflexivity]. }
  intros t pub p. split.
  - assert (E : keeps (sessionOf trackId) (fun v => fst (fst v) <> None)
                  (handleTrackSubscribed t pub p)).
    { unfold handleTrackSubscribed, setupAudioElement,
        setupAudioCaptureIfEnabled.
      keeps_auto ltac:(cbv [sessionOf]; cbn; reflexivity). }
    now apply E.
  - assert (E : keeps (sessionOf trackId) (fun v => fst (fst v) <> None)
                  (handleLocalTrackPublished t pub p)).
    { unfold handleLocalTrackPublished, setupAudioCaptureIfEnabled.
      keeps_auto ltac:(cbv [sessionOf]; cbn; reflexivity). }
    now apply E.
Qed.

Lemma capture_session_survives_rearming_witness :
  JsMap.has "TR_agent" (trackCaptureMap capturingState) = true
  /\ sessionOf "TR_agent" (post (enableAudioCapture otherOptions)
                                capturingState)
     = sessionOf "TR_agent" capturingState
  /\ option_map recCallback
       (JsMap.get "TR_agent"
          (recorders (post (enableAudioCapture otherOptions) capturingState)))
     = Some {| cbId := 1 |}
  /\ option_map callback
       (audioCaptureOptions
          (post (enableAudioCapture otherOptions) capturingState))
     = Some (Some {| cbId := 9 |}).
Proof.
  assert (H : JsMap.has "TR_agent" (trackCaptureMap capturingState) = true)
    by (vm_compute; reflexivity).
  destruct (capture_session_survives_rearming
              capturingState "TR_agent" otherOptions H) as (E & _ & _).
  split; [exact H |]. split; [exact E |].
  split; vm_compute; reflexivity.
Defined.

(** ** Without a room nothing is captured *)

Ltac room_leaf :=
  cbv [captureInRoom captureView]; cbn;
  rewrite ?created_snoc_other by reflexivity;
  reflexivity.

Lemma keeps_captureInRoom_setupTrackCapture (id p : string) (r : Role)
    (f : AudioCaptureFormat) :
  keeps captureInRoom (fun v => snd v = None) (setupTrackCapture id p r f).
Proof.
  intros s HP. cbn in HP.
  unfold post, setupTrackCapture, bind. cbn [gets].
  destruct (audioCaptureOptions s); [| reflexivity].
  unfold getTrackById. rewrite HP. reflexivity.
Qed.

(** X21: a stream is looked up in the room when its capture is set up, so
    without a room nothing is captured: [enableAudioCapture] sets the flag
    when it is given a delivery function, but creates no session, clone,
    recorder, node or context, whatever streams are registered, and neither
    does a subscription or a local publication. *)
Theorem no_capture_without_room (s : State) :
  room s = None ->
  (forall options,
     captureView (post (enableAudioCapture options) s) = captureView s
     /\ (opt_or (callback options) (onData options) <> None ->
         audioCaptureEnabled (post (enableAudioCapture options) s) = true))
  /\ forall t pub p,
       captureView (post (handleTrackSubscribed t pub p) s) = captureView s
       /\ captureView (post (handleLocalTrackPublished t pub p) s)
          = captureView s.
Proof.
  intros Hr.
  pose proof keeps_captureInRoom_setupTrackCapture as K.
  assert (V : forall (m : M unit),
            keeps captureInRoom (fun v => snd v = None) m ->
            captureView (post m s) = captureView s).
  { intros m Km. specialize (Km s Hr).
    exact (f_equal fst Km). }
  split.
  - intros options. split.
    + apply V. unfold enableAudioCapture, setupExistingTrackCapture.
      keeps_auto ltac:(room_leaf).
    + intros Hcb.
      pose proof (keeps_armed_setupExistingTrackCapture (fun _ => True)) as A.
      unfold enableAudioCapture.
      destruct (opt_or (callback options) (onData options)) as [cb |];
        [| congruence].
      rewrite post_bind. cbn [modify]. rewrite post_bind. cbn [modify].
      match goal with
      | |- context [post setupExistingTrackCapture ?st] =>
          specialize (A st I)
      end.
      cbn beta in A. injection A as A1 _. rewrite A1. reflexivity.
  - intros t pub p. split; apply V.
    + unfold handleTrackSubscribed, setupAudioElement,
        setupAudioCaptureIfEnabled.
      keeps_auto ltac:(room_leaf).
    + unfold handleLocalTrackPublished, setupAudioCaptureIfEnabled.
      keeps_auto ltac:(room_leaf).
Qed.

Lemma no_capture_without_room_witness :
  room roomlessState = None
  /\ JsMap.keys (trackStats roomlessState) = ["TR_agent"]
  /\ trackCaptureMap (post (enableAudioCapture demoOptions) roomlessState)
     = []
  /\ JsMap.keys (trackCaptureMap capturingState) = ["TR_agent"].
Proof.
  assert (R : room roomlessState = None) by reflexivity.
  destruct (no_capture_without_room roomlessState R) as [H _].
  destruct (H demoOptions) as [E _].
  apply (f_equal vSessions) in E. cbn [vSessions captureView] in E.
  split; [exact R |].
  split; [vm_compute; reflexivity |].
  split; [rewrite E; vm_compute; reflexivity |].
  vm_compute. reflexivity.
Defined.

(** ** Tracks that are not played *)

Lemma keeps_elementsView_handleLocalTrackPublished t pub p :
  keeps elementsView (fun _ => True) (handleLocalTrackPublished t pub p).
Proof.
  pose proof (keeps_elementsView_setupAudioCaptureIfEnabled t p) as K.
  unfold handleLocalTrackPublished. keeps_auto ltac:(elements_leaf).
Qed.

(** X22: the four track handlers ignore a track that is not an audio
    track: they return and leave the state as it is, without any record,
    element or event (not even [trackUnsubscribed]).  And a local
    publication, of whatever kind, never creates or tracks an audio
    element: local audio is registered and captured but not played. *)
Theorem handlers_ignore_other_tracks
    (s : State) (t : Track) (pub : Publication) (p : Participant) :
  (kind t <> KAudio ->
   handleTrackSubscribed t pub p s = (Ok tt, s)
   /\ handleLocalTrackPublished t pub p s = (Ok tt, s)
   /\ handleTrackUnsubscribed t pub p s = (Ok tt, s)
   /\ handleLocalTrackUnsubscribed t pub p s = (Ok tt, s))
  /\ audioElements (post (handleLocalTrackPublished t pub p) s)
     = audioElements s
  /\ map elId (heap (post (handleLocalTrackPublished t pub p) s))
     = map elId (heap s).
Proof.
  split.
  - intros Hk.
    assert (E : isAudio (kind t) = false)
      by (destruct (kind t); [congruence | reflexivity | reflexivity]).
    unfold handleLocalTrackUnsubscribed, handleTrackSubscribed,
      handleLocalTrackPublished, handleTrackUnsubscribed.
    rewrite E. repeat split.
  - pose proof (keeps_elementsView_handleLocalTrackPublished t pub p s I) as V.
    unfold elementsView in V. injection V as V1 V2.
    split; [exact V1 |].
    apply (f_equal (map (fun x => fst (fst x)))) in V2.
    rewrite !map_map in V2. exact V2.
Qed.

(** ** The size of the PCM buffers *)

Lemma bufferSized_same (stored : AudioCaptureOptions) (size : number)
    (before : list WorkletTask) (s s' : State) :
  audioCaptureOptions s' = audioCaptureOptions s ->
  pending s' = pending s ->
  bufferSized stored size before s -> bufferSized stored size before s'.
Proof. unfold bufferSized. now intros -> ->. Qed.

Ltac sized_leaf :=
  idtac;
  match goal with
  | H : bufferSized _ _ _ ?s |- _ =>
      apply (bufferSized_same _ _ _ s); [reflexivity | reflexivity | exact H]
  end.

Lemma bufferSized_setupAudioWorkletCapture stored size before (o : PcmOptions) :
  poBufferSize o = size ->
  maintains (bufferSized stored size before) (setupAudioWorkletCapture o).
Proof.
  intros Ho s [Hs Hp].
  unfold post, setupAudioWorkletCapture, bind, effect, modify, gets, ret.
  destruct (workletReady s); unfold bufferSized;
    cbn [snd fst audioCaptureOptions pending with_pending with_workletReady
         with_trace];
    (split; [exact Hs |]);
    apply Forall_app; (split; [exact Hp |]);
    constructor; [now right | constructor | now right | constructor].
Qed.

Lemma opt_num_or_kept (size d : number) :
  falsy size = false -> opt_num_or (Some size) d = size.
Proof. intros H. unfold opt_num_or. now rewrite H. Qed.

Lemma bufferSized_setupPCMCapture stored size before
    (clone : nat) (id p : string) (r : Role) (f : AudioCaptureFormat)
    (ts : string) :
  bufferSize stored = Some size -> falsy size = false ->
  maintains (bufferSized stored size before) (setupPCMCapture clone id p r f ts).
Proof.
  intros Hb Hnz s H.
  assert (Ho : audioCaptureOptions s = Some stored) by apply H.
  unfold post, setupPCMCapture, bind at 1. cbn [gets]. rewrite Ho.
  destruct (callback stored) as [cb |]; [| exact H].
  rewrite Hb, (opt_num_or_kept _ _ Hnz).
  clear Ho. revert s H.
  change (maintains (bufferSized stored size before)
            (try_catch
               (ensureAudioContext ;;
                ctx <- gets audioContext ;;
                match ctx with
                | None =>
                    throw (JsError
                             "WebAudio is not supported in this environment")
                | Some c =>
                    when (match ctxState c with
                          | Suspended => true
                          | _ => false
                          end)
                         (effect (ContextResumed (ctxId c))) ;;
                    let o := {| poContext := c; poClone := clone;
                                poTrackId := id; poParticipant := p;
                                poSource := r; poTrackSource := ts;
                                poFormat := f; poBufferSize := size;
                                poCallback := cb |} in
                    if ctxHasWorklet c then setupAudioWorkletCapture o
                    else setupScriptProcessorCapture o
                end)
               (fun error =>
                  emit EvError
                    (PError ("Failed to setup PCM audio capture: "
                             ++ message error))))).
  pose proof (bufferSized_setupAudioWorkletCapture stored size before) as K.
  repeat maintains_step ltac:(solve [apply K; reflexivity])
                        ltac:(sized_leaf)
                        ltac:(unfold ensureAudioContext,
                                setupScriptProcessorCapture, emit, log,
                                effect).
Qed.

Lemma bufferSized_setupExistingTrackCapture stored size before :
  bufferSize stored = Some size -> falsy size = false ->
  maintains (bufferSized stored size before) setupExistingTrackCapture.
Proof.
  intros Hb Hnz.
  pose proof (fun c id p r f ts =>
                bufferSized_setupPCMCapture stored size before c id p r f ts
                                            Hb Hnz) as K.
  repeat maintains_step ltac:(solve [apply K])
                        ltac:(sized_leaf)
                        ltac:(unfold setupExistingTrackCapture,
                                setupTrackCapture, setupEncodedCapture,
                                getSupportedMimeType, emit, log, effect).
Qed.

(** X23: the buffer size that [enableAudioCapture] stores is the given
    one, or 2048 when none, 0 or [NaN] was given; it is never 0 nor [NaN],
    so neither the PCM set-up nor the worklet processor replaces it by
    their fallback of 4096: every worklet set-up that an arming suspends
    asks for a buffer of the stored size.  When that size is a whole number
    of samples that the engine allocates, the processor is built with a
    buffer of exactly that many samples. *)
Theorem armed_pcm_buffer_size (s : State) (options : AudioCaptureOptions) :
  let size := opt_num_or (bufferSize options) DEFAULT_BUFFER_SIZE in
  size = match bufferSize options with
         | Some (Fin q) => if Qeq_bool q 0 then Fin 2048 else Fin q
         | Some NaN | None => Fin 2048
         | Some PosInf => PosInf
         | Some NegInf => NegInf
         end
  /\ size <> NaN
  /\ (forall q, size = Fin q -> ~ (q == 0)%Q)
  /\ opt_num_or (Some size) DEFAULT_PCM_BUFFER_SIZE = size
  /\ (forall t,
        In t (pending (post (enableAudioCapture options) s)) ->
        In t (pending s) \/ poBufferSize (wtOptions t) = size)
  /\ (forall (allocates : Z -> bool) (q : Q) (n : nat),
        size = Fin q -> (q == inject_Z (Z.of_nat n))%Q ->
        Z.of_nat n <= 2 ^ 53 - 1 -> allocates (Z.of_nat n) = true ->
        exists p, newPCMProcessor allocates size = Some p
                  /\ ppBufferSize p = q
                  /\ List.length (ppBuffer p) = n
                  /\ wfProcessor p).
Proof.
  cbv zeta.
  assert (Hnz : falsy (opt_num_or (bufferSize options) DEFAULT_BUFFER_SIZE)
                = false).
  { unfold opt_num_or, DEFAULT_BUFFER_SIZE.
    destruct (bufferSize options) as [x |]; [| reflexivity].
    destruct (falsy x) eqn:E; [reflexivity | exact E]. }
  split.
  { unfold opt_num_or, falsy, DEFAULT_BUFFER_SIZE.
    destruct (bufferSize options) as [[q | | |] |]; reflexivity. }
  split; [intros E; rewrite E in Hnz; discriminate |].
  split.
  { intros q E Hq. rewrite E in Hnz. cbn [falsy] in Hnz.
    apply Qeq_bool_neq in Hnz. exact (Hnz Hq). }
  split; [exact (opt_num_or_kept _ _ Hnz) |].
  split.
  - unfold enableAudioCapture.
    destruct (opt_or (callback options) (onData options)) as [cb |];
      [| intros t Ht; now left].
    rewrite post_bind. cbn [modify]. rewrite post_bind. cbn [modify].
    match goal with
    | |- context [post setupExistingTrackCapture ?st] =>
        match st with
        | with_audioCaptureOptions (Some ?stored) _ =>
            destruct (bufferSized_setupExistingTrackCapture
                        stored
                        (opt_num_or (bufferSize options) DEFAULT_BUFFER_SIZE)
                        (pending s) eq_refl Hnz st) as [_ F]
        end
    end.
    + split; [reflexivity |].
      apply Forall_forall. intros t Ht. now left.
    + intros t Ht. exact (proj1 (Forall_forall _ _) F t Ht).
  - intros allocates q n E Hq Hmax Ha.
    assert (Ht : Qtrunc q = Z.of_nat n)
      by (rewrite (Qtrunc_comp _ _ Hq); apply Qtrunc_inject_Z).
    destruct (newPCMProcessor allocates
                (opt_num_or (bufferSize options) DEFAULT_BUFFER_SIZE))
      as [p |] eqn:N.
    + destruct (newPCMProcessor_wf _ _ _ N) as (Hs & _ & _ & _ & _ & Hwhole).
      rewrite (opt_num_or_kept _ _ Hnz), E in Hs. injection Hs as Hs.
      exists p. subst q. destruct (Hwhole n Hq) as (Hwf & Hlen & _).
      auto.
    + exfalso. revert N. unfold newPCMProcessor.
      rewrite (opt_num_or_kept _ _ Hnz), E. unfold newFloat32Array.
      rewrite Ht, Ha.
      destruct (Z.ltb_spec (Z.of_nat n) 0); [lia |].
      destruct (Z.ltb_spec (2 ^ 53 - 1) (Z.of_nat n)); [lia |].
      discriminate.
Qed.

(** Two streams armed for PCM without a buffer size: both suspended
    set-ups ask for 2048 samples. *)
Example armed_pcm_buffer_size_example :
  map (fun t => poBufferSize (wtOptions t))
      (pending (post (enableAudioCapture otherOptions) twoStreamsState))
  = [Fin 2048; Fin 2048]
  /\ pending twoStreamsState = [].
Proof. split; vm_compute; reflexivity. Qed.
